(** * lirc-indicator: a shallow embedding of [lirc-indicator.c]

    The program exports a GPIO pin through sysfs, connects to the LIRC
    socket and flashes the pin for every message that is not a button-up
    event.  It is modelled as a state-and-exit monad over a [world] (the two
    global variables, [errno], the locals of [main] that survive between
    statements, and the log of what the process did to its surroundings).
    What the surroundings answer (whether a sysfs file can be opened, what
    [read] delivers, when SIGINT arrives) is an [env], fixed for a run. *)

From Stdlib Require Import ZArith List String Ascii Bool Lia DecimalString.
From Stdlib.Strings Require Import Byte.
Import ListNotations.
Local Open Scope string_scope.
Local Open Scope Z_scope.

(** ** Constants of the C library and of the platform *)

Definition EXIT_SUCCESS : Z := 0.
Definition EXIT_FAILURE : Z := 1.

(** [sizeof(addr.sun_path)] of [struct sockaddr_un] on Linux. *)
Definition SUN_PATH_SIZE : nat := 108.

(** [sizeof(buf)] in [main]. *)
Definition BUF_SIZE : nat := 128.

(** ** What the process does to its surroundings *)

(** The messages the program sends to [stderr], one constructor per
    [fprintf(stderr, ...)] or [perror] of the source, with the values the
    format string is filled with. *)
Inductive report : Type :=
| UnableOpenExport (e : Z)
| UnableWriteExport (e : Z)
| UnableOpenUnexport (e : Z)
| UnableWriteUnexport (e : Z)
| UnableOpenDirection (pin e : Z)
| UnableWriteDirection (pin e : Z)
| ValueNot0Or1 (pin value : Z)
| UnableOpenValue (pin e : Z)
| UnableWriteValue (pin e : Z)
| UnrecognizedOption
| IncorrectArguments
| InvalidPin (pin : Z)
| PerrorSocket (e : Z)
| UnableOpenSocket (path : string) (e : Z)
| PerrorRead (e : Z).

Inductive banner : Type := Help | Version.

Inductive event : Type :=
| Stdout (b : banner)
| Stderr (r : report)
| Write (path text : string)   (* a [fprintf] on a stream of [path] that succeeded *)
| Usleep (usec : Z)
| Sigaction                     (* [onExit] installed for SIGINT *)
| Fork (pid : Z)
| Socket
| Connect (path : string)       (* a [connect] that succeeded *)
| Read (n : Z)                  (* [read] returned [n] *)
| Lseek.

(** What one call of [read(lirc_fd, buf, 128)] finds: bytes to deliver (none
    at all when the peer has closed the connection), or a failure with its
    [errno]. *)
Inductive read_result : Type :=
| ReadBytes (bs : list byte)
| ReadError (e : Z).

(** The answers of the C library and the kernel.  [fopen_at] and
    [fprintf_at] are asked with the value of the statement clock, so that the
    same file may open at one moment and not at another. *)
Record env : Type := {
  strtold_num : string -> Z;            (* [(int) strtold(s, NULL)] when [s] has a numeric prefix *)
  fopen_at : nat -> string -> option Z; (* [Some e]: [fopen] returns NULL with [errno = e] *)
  fprintf_at : nat -> string -> Z;      (* what [fprintf] on a stream of that file returns *)
  fork_pid : Z;                         (* what [fork] returns *)
  socket_err : option Z;                (* [Some e]: [socket] returns -1 with [errno = e] *)
  connect_err : string -> option Z;     (* [Some e]: [connect] returns -1 with [errno = e] *)
  sigint_at : option nat                (* the statement boundary at which SIGINT is delivered *)
}.

(** ** The state of the process *)

Record world : Type := {
  gpio_pin : Z;          (* [int gpio_pin = -1;] *)
  isExported : Z;        (* [int isExported = 0;] *)
  errno : Z;
  sun_path : string;     (* [addr.sun_path] *)
  buf : list byte;       (* [char buf[128]] *)
  connected : bool;      (* [lirc_fd] is a connected socket *)
  handler : bool;        (* SIGINT is handled by [onExit] *)
  clock : nat;           (* statement boundaries passed so far *)
  trace : list event     (* oldest event first *)
}.

Definition set_gpio_pin (v : Z) (w : world) : world :=
  {| gpio_pin := v; isExported := isExported w; errno := errno w;
     sun_path := sun_path w; buf := buf w; connected := connected w;
     handler := handler w; clock := clock w; trace := trace w |}.

Definition set_isExported (v : Z) (w : world) : world :=
  {| gpio_pin := gpio_pin w; isExported := v; errno := errno w;
     sun_path := sun_path w; buf := buf w; connected := connected w;
     handler := handler w; clock := clock w; trace := trace w |}.

Definition set_errno (v : Z) (w : world) : world :=
  {| gpio_pin := gpio_pin w; isExported := isExported w; errno := v;
     sun_path := sun_path w; buf := buf w; connected := connected w;
     handler := handler w; clock := clock w; trace := trace w |}.

Definition set_sun_path (v : string) (w : world) : world :=
  {| gpio_pin := gpio_pin w; isExported := isExported w; errno := errno w;
     sun_path := v; buf := buf w; connected := connected w;
     handler := handler w; clock := clock w; trace := trace w |}.

Definition set_buf (v : list byte) (w : world) : world :=
  {| gpio_pin := gpio_pin w; isExported := isExported w; errno := errno w;
     sun_path := sun_path w; buf := v; connected := connected w;
     handler := handler w; clock := clock w; trace := trace w |}.

Definition set_connected (v : bool) (w : world) : world :=
  {| gpio_pin := gpio_pin w; isExported := isExported w; errno := errno w;
     sun_path := sun_path w; buf := buf w; connected := v;
     handler := handler w; clock := clock w; trace := trace w |}.

Definition set_handler (v : bool) (w : world) : world :=
  {| gpio_pin := gpio_pin w; isExported := isExported w; errno := errno w;
     sun_path := sun_path w; buf := buf w; connected := connected w;
     handler := v; clock := clock w; trace := trace w |}.

Definition advance (w : world) : world :=
  {| gpio_pin := gpio_pin w; isExported := isExported w; errno := errno w;
     sun_path := sun_path w; buf := buf w; connected := connected w;
     handler := handler w; clock := S (clock w); trace := trace w |}.

Definition log (ev : event) (w : world) : world :=
  {| gpio_pin := gpio_pin w; isExported := isExported w; errno := errno w;
     sun_path := sun_path w; buf := buf w; connected := connected w;
     handler := handler w; clock := clock w; trace := trace w ++ [ev] |}.

(** The process image at the entry of [main]: the globals as initialised,
    [buf] holding whatever its 128 bytes of the stack hold. *)
Definition boot (stack : list byte) : world :=
  {| gpio_pin := -1; isExported := 0; errno := 0;
     sun_path := ""; buf := firstn BUF_SIZE stack; connected := false;
     handler := false; clock := 0%nat; trace := [] |}.

(** ** The monad *)

Inductive result (A : Type) : Type :=
| Ret (a : A) (w : world)       (* the statement is over, control goes on *)
| Exited (code : Z) (w : world) (* [exit(code)], or [return code] from [main];
                                   [code] is the argument as passed *)
| Killed (w : world)            (* SIGINT with its default disposition *)
| Blocked (w : world)           (* [read] never returns *)
| Undefined (w : world).        (* the C standard gives the step no meaning *)

Arguments Ret {A} a w.
Arguments Exited {A} code w.
Arguments Killed {A} w.
Arguments Blocked {A} w.
Arguments Undefined {A} w.

Definition M (A : Type) : Type := world -> result A.

Definition ret {A : Type} (a : A) : M A := fun w => Ret a w.

Definition bind {A B : Type} (m : M A) (k : A -> M B) : M B :=
  fun w =>
    match m w with
    | Ret a w' => k a w'
    | Exited c w' => Exited c w'
    | Killed w' => Killed w'
    | Blocked w' => Blocked w'
    | Undefined w' => Undefined w'
    end.

Declare Scope prog_scope.
Delimit Scope prog_scope with prog.
Notation "x <- m ;; k" := (bind m (fun x => k))
  (at level 61, m at next level, right associativity) : prog_scope.
Notation "m ;; k" := (bind m (fun _ => k))
  (at level 61, right associativity) : prog_scope.
Local Open Scope prog_scope.

Definition gets {A : Type} (f : world -> A) : M A := fun w => Ret (f w) w.
Definition modify (f : world -> world) : M unit := fun w => Ret tt (f w).

(** The world a run ends in, whatever the way it ends. *)
Definition final {A : Type} (r : result A) : world :=
  match r with
  | Ret _ w | Exited _ w | Killed w | Blocked w | Undefined w => w
  end.

(** ** Text and bytes *)

(** [printf("%d", z)]. *)
Definition fmt_d (z : Z) : string := NilZero.string_of_int (Z.to_int z).

Definition NUL : byte := x00.

(** The C string that starts at the first byte of an array: the bytes before
    the first NUL.  [None] when the array holds no NUL, in which case a scan
    for the terminator leaves the array. *)
Fixpoint cstring (mem : list byte) : option (list byte) :=
  match mem with
  | [] => None
  | b :: rest =>
      if Byte.eqb b NUL then Some []
      else match cstring rest with
           | Some s => Some (b :: s)
           | None => None
           end
  end.

Fixpoint starts_with (needle hay : list byte) : bool :=
  match needle, hay with
  | [], _ => true
  | _ :: _, [] => false
  | n :: needle', h :: hay' => Byte.eqb n h && starts_with needle' hay'
  end.

(** [strstr] on two C strings given by their bytes: the offset of the first
    occurrence, [None] for the null pointer. *)
Fixpoint strstr (hay needle : list byte) : option nat :=
  if starts_with needle hay then Some 0%nat
  else match hay with
       | [] => None
       | _ :: hay' => option_map S (strstr hay' needle)
       end.

(** The literal ["_UP "] of the source. *)
Definition UP_MARKER : list byte := list_byte_of_string "_UP ".

(** [isspace] in the C locale. *)
Definition isspace (c : ascii) : bool :=
  let n := nat_of_ascii c in
  (n =? 32)%nat || ((9 <=? n)%nat && (n <=? 13)%nat).

Definition isdigit (c : ascii) : bool :=
  let n := nat_of_ascii c in (48 <=? n)%nat && (n <=? 57)%nat.

Definition tolower (c : ascii) : ascii :=
  let n := nat_of_ascii c in
  if (65 <=? n)%nat && (n <=? 90)%nat then ascii_of_nat (n + 32) else c.

Fixpoint skip_space (s : string) : string :=
  match s with
  | String c s' => if isspace c then skip_space s' else s
  | EmptyString => s
  end.

Definition skip_sign (s : string) : string :=
  match s with
  | String "+"%char s' | String "-"%char s' => s'
  | _ => s
  end.

Fixpoint lower (s : string) : string :=
  match s with
  | String c s' => String (tolower c) (lower s')
  | EmptyString => EmptyString
  end.

(** Whether [strtold] finds a subject sequence in [s] (C99 7.20.1.3): after
    white space and an optional sign, a digit, a point followed by a digit,
    or one of INF and NAN in any case.  (A hexadecimal constant starts with
    the digit 0.) *)
Definition has_subject (s : string) : bool :=
  match skip_sign (skip_space s) with
  | String c rest =>
      isdigit c
      || (Ascii.eqb c "."%char
          && match rest with String d _ => isdigit d | EmptyString => false end)
      || String.prefix "inf" (lower (String c rest))
      || String.prefix "nan" (lower (String c rest))
  | EmptyString => false
  end.

(** [gpio_pin = strtold(s, NULL);]: "if no conversion could be performed,
    zero is returned"; otherwise the value is the library's. *)
Definition strtold (E : env) (s : string) : Z :=
  if has_subject s then strtold_num E s else 0.

(** ** The sysfs files *)

(** The text of ["\n"]. *)
Definition NL : string := String "010" EmptyString.

Definition GPIO_EXPORT : string := "/sys/class/gpio/export".
Definition GPIO_UNEXPORT : string := "/sys/class/gpio/unexport".

(** [sprintf (fName, "/sys/class/gpio/gpio%d/direction", pin)]. *)
Definition gpio_direction (pin : Z) : string :=
  "/sys/class/gpio/gpio" ++ fmt_d pin ++ "/direction".

(** [sprintf (fName, "/sys/class/gpio/gpio%d/value", pin)]. *)
Definition gpio_value (pin : Z) : string :=
  "/sys/class/gpio/gpio" ++ fmt_d pin ++ "/value".

Definition DEFAULT_PIN : Z := 4.
Definition DEFAULT_SOCKET : string := "/var/run/lirc/lircd".

(** The [switch (gpio_pin)] of [main]: the cases that [break]. *)
Definition valid_pin (pin : Z) : bool :=
  match pin with
  | 0 | 1 | 2 | 3 | 4 | 7 | 8 | 9 | 10 | 11 | 14 | 15 | 17 | 18
  | 21 | 22 | 23 | 24 | 25 | 27 | 28 | 29 | 30 | 31 => true
  | _ => false
  end.

(** ** The program

    Every function of the source is a definition of the same name.  [poll]
    stands for a statement boundary: it is what happens between two
    statements, where a signal may be delivered.  The functions are written
    once, over any [poll]; the handler runs them with SIGINT blocked, the
    main flow with [boundary] (below). *)

Section Program.

Variable E : env.
Variable poll : M unit.

(** A library call or an assignment to a global, after the boundary that
    precedes it. *)
Definition stmt {A : Type} (m : M A) : M A := poll ;; m.

Definition when (b : bool) (m : M unit) : M unit := if b then m else ret tt.

(** [exit(status)], and [return status] in [main]. *)
Definition exit_ {A : Type} (status : Z) : M A :=
  stmt (fun w => Exited status w).

Definition eprint (r : report) : M unit :=
  stmt (modify (log (Stderr r))).

Definition print (b : banner) : M unit :=
  stmt (modify (log (Stdout b))).

(** [fopen(path, "w")]: whether the stream is not NULL. *)
Definition fopen (path : string) : M bool :=
  stmt (fun w =>
          match fopen_at E (clock w) path with
          | None => Ret true w
          | Some e => Ret false (set_errno e w)
          end).

(** [fprintf(fd, ...)] on a stream of [path], producing [text]; the value
    is what the call returns, negative when nothing was written. *)
Definition fprintf (path text : string) : M Z :=
  stmt (fun w =>
          let r := fprintf_at E (clock w) path in
          Ret r (if r <? 0 then w else log (Write path text) w)).

Definition fclose : M unit := stmt (ret tt).

Definition usleep (usec : Z) : M unit := stmt (modify (log (Usleep usec))).

(** [int unexportGPIO(int pin)]. *)
Definition unexportGPIO (pin : Z) : M unit :=
  fd <- fopen GPIO_UNEXPORT ;;
  when (negb fd)
    (e <- gets errno ;; eprint (UnableOpenUnexport e) ;;
     e <- gets errno ;; exit_ e) ;;
  r <- fprintf GPIO_UNEXPORT (fmt_d pin ++ NL) ;;
  modify (set_errno r) ;;
  when (r <? 0)
    (e <- gets errno ;; eprint (UnableWriteUnexport e) ;;
     e <- gets errno ;; exit_ e) ;;
  fclose.

(** [void cleanup(int retval)]. *)
Definition cleanup {A : Type} (retval : Z) : M A :=
  exported <- gets isExported ;;
  pin <- gets gpio_pin ;;
  when (negb (exported =? 0) && (0 <=? pin)) (unexportGPIO pin) ;;
  exit_ retval.

(** [void exportGPIO(int pin)]. *)
Definition exportGPIO (pin : Z) : M unit :=
  fd <- fopen GPIO_EXPORT ;;
  when (negb fd)
    (e <- gets errno ;; eprint (UnableOpenExport e) ;;
     e <- gets errno ;; cleanup e) ;;
  r <- fprintf GPIO_EXPORT (fmt_d pin ++ NL) ;;
  modify (set_errno r) ;;
  when (r <? 0)
    (e <- gets errno ;; eprint (UnableWriteExport e) ;;
     e <- gets errno ;; cleanup e) ;;
  fclose.

(** [void setAsOutput(int pin)]. *)
Definition setAsOutput (pin : Z) : M unit :=
  fd <- fopen (gpio_direction pin) ;;
  when (negb fd)
    (e <- gets errno ;; eprint (UnableOpenDirection pin e) ;;
     e <- gets errno ;; cleanup e) ;;
  r <- fprintf (gpio_direction pin) ("out" ++ NL) ;;
  modify (set_errno r) ;;
  when (r <? 0)
    (e <- gets errno ;; eprint (UnableWriteDirection pin e) ;;
     e <- gets errno ;; cleanup e) ;;
  fclose.

(** [void setValue(int pin, int value)]. *)
Definition setValue (pin value : Z) : M unit :=
  when (negb (value =? 0) && negb (value =? 1))
    (eprint (ValueNot0Or1 pin value) ;; cleanup 0) ;;
  fd <- fopen (gpio_value pin) ;;
  when (negb fd)
    (e <- gets errno ;; eprint (UnableOpenValue pin e) ;;
     e <- gets errno ;; cleanup e) ;;
  r <- fprintf (gpio_value pin) (fmt_d value ++ NL) ;;
  modify (set_errno r) ;;
  when (r <? 0)
    (e <- gets errno ;; eprint (UnableWriteValue pin e) ;;
     e <- gets errno ;; cleanup e) ;;
  fclose.

(** [void flash(int pin)]. *)
Definition flash (pin : Z) : M unit :=
  setValue pin 1 ;;
  usleep 100000 ;;
  setValue pin 0.

(** *** [main], in the order of its text *)

(** The [while ((c = getopt_long(...)) != EOF)] loop, over the option
    characters [getopt_long] returns; the value is [isDaemon].  The help
    text, five [printf]s in the source, is one event, and so are the two
    lines of a complaint. *)
Fixpoint getopt_loop (opts : list ascii) (isDaemon : bool) : M bool :=
  match opts with
  | [] => ret isDaemon
  | c :: opts' =>
      if Ascii.eqb c "h" then print Help ;; exit_ EXIT_SUCCESS
      else if Ascii.eqb c "v" then print Version ;; exit_ EXIT_SUCCESS
      else if Ascii.eqb c "?" then eprint UnrecognizedOption ;; exit_ EXIT_FAILURE
      else if Ascii.eqb c "d" then getopt_loop opts' true
      else getopt_loop opts' isDaemon
  end.

(** [strcpy(addr.sun_path, src)]: [src] and its terminator must fit. *)
Definition strcpy_sun_path (src : string) : M unit :=
  stmt (fun w =>
          if (String.length src <? SUN_PATH_SIZE)%nat
          then Ret tt (set_sun_path src w)
          else Undefined w).

(** The [if (argc == optind) ... else ...] chain, over the arguments from
    [argv[optind]] on. *)
Definition positional (args : list string) : M unit :=
  match args with
  | [] =>
      stmt (modify (set_gpio_pin DEFAULT_PIN)) ;;
      strcpy_sun_path DEFAULT_SOCKET
  | [pin] =>
      stmt (modify (set_gpio_pin (strtold E pin))) ;;
      strcpy_sun_path DEFAULT_SOCKET
  | [pin; path] =>
      stmt (modify (set_gpio_pin (strtold E pin))) ;;
      strcpy_sun_path path
  | _ =>
      eprint IncorrectArguments ;; exit_ EXIT_FAILURE
  end.

(** [// check for valid gpio pin] *)
Definition check_pin : M unit :=
  pin <- gets gpio_pin ;;
  if valid_pin pin then ret tt
  else eprint (InvalidPin pin) ;; exit_ EXIT_FAILURE.

(** [if (isDaemon) { ... fork ... }] *)
Definition daemonize (isDaemon : bool) : M unit :=
  if isDaemon then
    pid <- stmt (fun w => Ret (fork_pid E) (log (Fork (fork_pid E)) w)) ;;
    if pid <? 0 then exit_ EXIT_FAILURE
    else if 0 <? pid then exit_ EXIT_SUCCESS
    else ret tt
  else ret tt.

(** [// catch SIGINT and clean up] *)
Definition catch_sigint : M unit :=
  stmt (modify (fun w => log Sigaction (set_handler true w))).

(** [// lirc init] *)
Definition lirc_init : M unit :=
  fd <- stmt (fun w =>
                match socket_err E with
                | None => Ret true (log Socket w)
                | Some e => Ret false (set_errno e w)
                end) ;;
  when (negb fd)
    (e <- gets errno ;; eprint (PerrorSocket e) ;;
     e <- gets errno ;; exit_ e) ;;
  path <- gets sun_path ;;
  ok <- stmt (fun w =>
                match connect_err E path with
                | None => Ret true (log (Connect path) (set_connected true w))
                | Some e => Ret false (set_errno e w)
                end) ;;
  when (negb ok)
    (e <- gets errno ;; eprint (UnableOpenSocket path e) ;;
     e <- gets errno ;; exit_ e).

(** [// gpio init] *)
Definition gpio_init : M unit :=
  pin <- gets gpio_pin ;;
  exportGPIO pin ;;
  stmt (modify (set_isExported 1)) ;;
  pin <- gets gpio_pin ;;
  setAsOutput pin.

(** [i = read(lirc_fd, buf, 128);]: at most 128 bytes land at the start of
    [buf], the bytes behind them stay as they were, and nothing is put
    behind the bytes read. *)
Definition read (r : read_result) : M Z :=
  stmt (fun w =>
          match r with
          | ReadError e => Ret (-1) (log (Read (-1)) (set_errno e w))
          | ReadBytes bs =>
              let got := firstn BUF_SIZE bs in
              let i := Z.of_nat (List.length got) in
              Ret i (log (Read i)
                       (set_buf (got ++ skipn (List.length got) (buf w)) w))
          end).

(** [strstr(buf, "_UP ")]: the scan runs over the C string at [buf]. *)
Definition strstr_buf (needle : list byte) : M (option nat) :=
  stmt (fun w =>
          match cstring (buf w) with
          | Some hay => Ret (strstr hay needle) w
          | None => Undefined w
          end).

(** [lseek(lirc_fd, 0, SEEK_END);], its value unused. *)
Definition lseek_end : M unit := stmt (modify (log Lseek)).

(** The body of [for(;;) { ... }], for what its [read] finds. *)
Definition iteration (r : read_result) : M unit :=
  i <- read r ;;
  when (i =? -1)
    (e <- gets errno ;; eprint (PerrorRead e) ;;
     e <- gets errno ;; cleanup e) ;;
  when (i =? 0) (cleanup 0) ;;
  hit <- strstr_buf UP_MARKER ;;
  when (match hit with None => true | Some _ => false end)
    (pin <- gets gpio_pin ;; flash pin) ;;
  lseek_end.

(** [for(;;) { ... }], over what the successive [read]s find; when that
    is used up the next [read] blocks for good. *)
Fixpoint event_loop (reads : list read_result) : M unit :=
  match reads with
  | [] => fun w => Blocked w
  | r :: reads' => iteration r ;; event_loop reads'
  end.

(** [main] up to the loop. *)
Definition startup (opts : list ascii) (args : list string) : M unit :=
  isDaemon <- getopt_loop opts false ;;
  positional args ;;
  check_pin ;;
  daemonize isDaemon ;;
  catch_sigint ;;
  lirc_init ;;
  gpio_init.

Definition main (opts : list ascii) (args : list string)
    (reads : list read_result) : M unit :=
  isDaemon <- getopt_loop opts false ;;
  positional args ;;
  check_pin ;;
  daemonize isDaemon ;;
  catch_sigint ;;
  lirc_init ;;
  gpio_init ;;
  event_loop reads.

End Program.

(** ** SIGINT *)

(** A boundary inside the handler: SIGINT is blocked while [onExit] runs
    ([sa_flags = 0]), time passes and nothing else happens. *)
Definition masked : M unit := modify advance.

(** [void onExit(int s) { cleanup(1); }] *)
Definition onExit (E : env) {A : Type} : M A := cleanup E masked 1.

(** A boundary of the main flow: when this is the boundary at which SIGINT
    arrives, the handler runs if [sigaction] has installed it, and the
    default disposition ends the process if not. *)
Definition boundary (E : env) : M unit :=
  fun w =>
    let now :=
      match sigint_at E with
      | Some k => Nat.eqb k (clock w)
      | None => false
      end in
    if now then
      if handler w then onExit E (advance w) else Killed (advance w)
    else Ret tt (advance w).

(** The process, from [main]'s entry on. *)
Definition lirc_indicator (E : env) (opts : list ascii) (args : list string)
    (reads : list read_result) (stack : list byte) : result unit :=
  main E (boundary E) opts args reads (boot stack).

(** A boundary that stops the run when the clock shows [k], and lets it
    pass otherwise: a run over it ends in the state in which the process,
    left alone by signals, reaches its boundary [k]. *)
Definition probe (k : nat) : M unit :=
  fun w => if Nat.eqb (clock w) k then Killed w else Ret tt (advance w).

(** The state of the process at its boundary [k], or at the end of the run
    when the run is over before. *)
Definition state_at (E : env) (opts : list ascii) (args : list string)
    (reads : list read_result) (stack : list byte) (k : nat) : world :=
  final (main E (probe k) opts args reads (boot stack)).

(** The [Write]s to one file in a log, oldest first. *)
Definition writes_to (path : string) (tr : list event) : list string :=
  flat_map (fun ev =>
              match ev with
              | Write p text => if String.eqb p path then [text] else []
              | _ => []
              end) tr.

(** Whether an event touches the GPIO interface. *)
Definition is_gpio (ev : event) : bool :=
  match ev with
  | Write _ _ => true
  | _ => false
  end.

(** ** A well-behaved environment, for examples

    Every file opens, every write succeeds, the socket connects, no signal
    arrives. *)
Fixpoint digits_value (s : string) (acc : Z) : Z :=
  match s with
  | String c s' =>
      if isdigit c then digits_value s' (10 * acc + (Z.of_nat (nat_of_ascii c) - 48))
      else acc
  | EmptyString => acc
  end.

(** A numeric parser for the examples: the decimal integer at the start of
    the text, which is what [strtold] yields on texts such as ["18"]. *)
Definition dec_value (s : string) : Z :=
  match skip_space s with
  | String "-"%char s' => - digits_value s' 0
  | String "+"%char s' => digits_value s' 0
  | s' => digits_value s' 0
  end.

Definition calm : env :=
  {| strtold_num := dec_value;
     fopen_at := fun _ _ => None;
     fprintf_at := fun _ _ => 2;
     fork_pid := 0;
     socket_err := None;
     connect_err := fun _ => None;
     sigint_at := None |}.

Definition with_sigint (k : nat) (E : env) : env :=
  {| strtold_num := strtold_num E;
     fopen_at := fopen_at E;
     fprintf_at := fprintf_at E;
     fork_pid := fork_pid E;
     socket_err := socket_err E;
     connect_err := connect_err E;
     sigint_at := Some k |}.

Definition zeros : list byte := repeat NUL BUF_SIZE.

Local Open Scope list_scope.

(** ** Predicates on environments *)

(** No SIGINT is delivered during the run. *)
Definition no_sigint (E : env) : Prop := sigint_at E = None.

(** The file can be opened for writing, whenever that is tried. *)
Definition opens (E : env) (path : string) : Prop :=
  forall t, fopen_at E t path = None.

(** A [fprintf] on a stream of the file succeeds, whenever that is tried. *)
Definition writable (E : env) (path : string) : Prop :=
  forall t, 0 <= fprintf_at E t path.

(** The option characters that neither end the program nor are
    complained about: all but [h], [v] and [?]. *)
Definition passes (opts : list ascii) : bool :=
  forallb (fun c => negb (Ascii.eqb c "h" || Ascii.eqb c "v" || Ascii.eqb c "?")) opts.

(** Whether [d] is among the options: the value of [isDaemon] behind the
    option loop. *)
Definition daemon_flag (opts : list ascii) : bool :=
  existsb (fun c => Ascii.eqb c "d") opts.

(** ** A program logic for invariants *)

Inductive ending : Type := Exit (code : Z) | Kill | Block | Undef.

(** [wp m Q X w]: run from [w], [m] either returns a value and a world in
    [Q], or ends the run in a world in [X]. *)
Definition wp {A : Type} (m : M A) (Q : A -> world -> Prop)
    (X : ending -> world -> Prop) (w : world) : Prop :=
  match m w with
  | Ret a w' => Q a w'
  | Exited c w' => X (Exit c) w'
  | Killed w' => X Kill w'
  | Blocked w' => X Block w'
  | Undefined w' => X Undef w'
  end.

Definition has_connect (tr : list event) : Prop :=
  exists path, In (Connect path) tr.

(** Every event on the GPIO interface comes after a successful [connect]. *)
Definition connect_first (tr : list event) : Prop :=
  forall pre ev post,
    tr = pre ++ ev :: post -> is_gpio ev = true -> has_connect pre.

(** What holds of the process at every moment of every run. *)
Record sound (w : world) : Prop := {
  sound_exported :
    isExported w <> 0 -> connected w = true /\ valid_pin (gpio_pin w) = true;
  sound_connected : connected w = true <-> has_connect (trace w);
  sound_order : connect_first (trace w)
}.

(** What a step leaves alone. *)
Definition frame (w w' : world) : Prop :=
  gpio_pin w' = gpio_pin w /\ isExported w' = isExported w
  /\ connected w' = connected w.

(** Ends of a run outside [read]. *)
Definition ends_sound (e : ending) (w : world) : Prop :=
  sound w /\ e <> Block.

(** Ends of a run: when the process waits in [read] the pin is exported. *)
Definition ends_ok (e : ending) (w : world) : Prop :=
  sound w /\ (e = Block -> isExported w <> 0).

(** [m] writes to no GPIO file, except to release an exported pin. *)
Definition quiet {A : Type} (m : M A) : Prop :=
  forall w, sound w -> wp m (fun _ w' => sound w' /\ frame w w') ends_sound w.

(** [m] may write to GPIO files; it is run with the socket connected. *)
Definition live {A : Type} (m : M A) : Prop :=
  forall w, sound w -> connected w = true ->
    wp m (fun _ w' => sound w' /\ frame w w') ends_sound w.

(** [m] does not return: it ends the run, soundly. *)
Definition noreturn {A : Type} (m : M A) : Prop :=
  forall w, sound w -> wp m (fun _ _ => False) ends_sound w.

(** Events that are neither a GPIO write nor a [connect]. *)
Definition plain (ev : event) : bool :=
  match ev with
  | Write _ _ | Connect _ => false
  | _ => true
  end.

(** ** Relating a world to a later one *)

(** [after w evs w']: [w'] is [w] with the events [evs] logged; only the
    clock and [errno] may differ otherwise. *)
Definition after (w : world) (evs : list event) (w' : world) : Prop :=
  trace w' = trace w ++ evs
  /\ gpio_pin w' = gpio_pin w /\ isExported w' = isExported w
  /\ sun_path w' = sun_path w /\ buf w' = buf w
  /\ connected w' = connected w /\ handler w' = handler w.

(** The test of [cleanup]: [isExported && gpio_pin >= 0]. *)
Definition exported (w : world) : bool :=
  negb (isExported w =? 0) && (0 <=? gpio_pin w).

(** What [cleanup] writes to release the pin. *)
Definition release_events (w : world) : list event :=
  if exported w then [Write GPIO_UNEXPORT (fmt_d (gpio_pin w) ++ NL)%string]
  else [].

(** [main] from the daemon switch on, that is, once the pin has passed the
    allow-list. *)
Definition proceed (E : env) (isDaemon : bool) (reads : list read_result) : M unit :=
  daemonize E (boundary E) isDaemon ;;
  catch_sigint (boundary E) ;;
  lirc_init E (boundary E) ;;
  gpio_init E (boundary E) ;;
  event_loop E (boundary E) reads.

(** The world in which [proceed] starts: pin and socket path stored, two
    statements executed, nothing reported. *)
Definition configured (pin : Z) (path : string) (stack : list byte) : world :=
  set_sun_path path (advance (set_gpio_pin pin (advance (boot stack)))).

(** The socket path the arguments behind the pin select. *)
Definition socket_of (rest : list string) : string :=
  match rest with
  | [] => DEFAULT_SOCKET
  | path :: _ => path
  end.

(** At most one argument behind the pin, and one that fits [sun_path]. *)
Definition fits (rest : list string) : bool :=
  match rest with
  | [] => true
  | [path] => (String.length path <? SUN_PATH_SIZE)%nat
  | _ => false
  end.

(** ** Inputs of the examples *)

(** Two messages in the format of lircd: the release of a button, and the
    press of another one, shorter. *)
Definition release_msg : list byte :=
  list_byte_of_string ("0000000000000001 00 KEY_VOLUMEDOWN_UP r" ++ NL)%string.

Definition press_msg : list byte :=
  list_byte_of_string ("0000000000000002 00 KEY_1 r" ++ NL)%string.

(** A message with a NUL in front of the marker. *)
Definition nul_msg : list byte :=
  list_byte_of_string "0000000000000003 00 KEY_2" ++ [NUL]
  ++ list_byte_of_string ("_UP r" ++ NL)%string.

(** A stack that holds the marker behind the place of a first message, and
    no NUL in front of it. *)
Definition stale_stack : list byte :=
  repeat "x"%byte 30 ++ list_byte_of_string "_UP " ++ repeat NUL 94.

(** A stack without any NUL. *)
Definition full_stack : list byte := repeat "x"%byte BUF_SIZE.

(** The GPIO export file cannot be opened (EACCES); all else is well. *)
Definition no_export : env :=
  {| strtold_num := dec_value;
     fopen_at := fun _ path => if String.eqb path GPIO_EXPORT then Some 13 else None;
     fprintf_at := fun _ _ => 2;
     fork_pid := 0;
     socket_err := None;
     connect_err := fun _ => None;
     sigint_at := None |}.

(** Nobody listens on the socket (ECONNREFUSED); all else is well. *)
Definition no_lircd : env :=
  {| strtold_num := dec_value;
     fopen_at := fun _ _ => None;
     fprintf_at := fun _ _ => 2;
     fork_pid := 0;
     socket_err := None;
     connect_err := fun _ => Some 111;
     sigint_at := None |}.

(** The process with pin 18, waiting in its first [read]. *)
Definition waiting18 : world :=
  final (lirc_indicator calm [] ["18"%string] [] zeros).

(** ** More predicates on environments *)

(** The file cannot be opened, whenever that is tried: [fopen] returns NULL
    with [errno = e]. *)
Definition refuses (E : env) (path : string) (e : Z) : Prop :=
  forall t, fopen_at E t path = Some e.

(** A [fprintf] on a stream of the file returns [r], whenever that is
    tried. *)
Definition fprintf_returns (E : env) (path : string) (r : Z) : Prop :=
  forall t, fprintf_at E t path = r.

(** The pin the positional arguments select. *)
Definition pin_of (E : env) (args : list string) : Z :=
  match args with
  | [] => DEFAULT_PIN
  | pin :: _ => strtold E pin
  end.

(** The socket path the positional arguments select. *)
Definition path_of (args : list string) : string :=
  match args with
  | _ :: path :: _ => path
  | _ => DEFAULT_SOCKET
  end.

(** The options, arguments and environment with which [main] gets as far
    as its socket: no option ends the program, there are at most two
    arguments, the socket path fits, the pin is in the allow-list, the
    process is the child if it forks, and no SIGINT arrives. *)
Definition prepares (E : env) (opts : list ascii) (args : list string) : Prop :=
  no_sigint E
  /\ passes opts = true
  /\ (List.length args <= 2)%nat
  /\ (String.length (path_of args) < SUN_PATH_SIZE)%nat
  /\ valid_pin (pin_of E args) = true
  /\ (daemon_flag opts = true -> fork_pid E = 0).

(** ... and as far as its GPIO initialisation: the socket connects, too. *)
Definition starts (E : env) (opts : list ascii) (args : list string) : Prop :=
  prepares E opts args
  /\ socket_err E = None
  /\ connect_err E (path_of args) = None.

(** What [main] has logged when it turns to the socket. *)
Definition prepared_events (daemon : bool) : list event :=
  (if daemon then [Fork 0] else []) ++ [Sigaction].

(** The world in which [main] turns to the socket. *)
Definition prepared_world (daemon : bool) (pin : Z) (path : string)
    (stack : list byte) : world :=
  {| gpio_pin := pin; isExported := 0; errno := 0;
     sun_path := path; buf := firstn BUF_SIZE stack; connected := false;
     handler := true; clock := if daemon then 4%nat else 3%nat;
     trace := prepared_events daemon |}.

(** What [main] has logged when it gets there. *)
Definition startup_events (daemon : bool) (path : string) : list event :=
  (if daemon then [Fork 0] else []) ++ [Sigaction; Socket; Connect path].

(** The world in which the GPIO initialisation starts. *)
Definition connected_world (daemon : bool) (pin : Z) (path : string)
    (stack : list byte) : world :=
  {| gpio_pin := pin; isExported := 0; errno := 0;
     sun_path := path; buf := firstn BUF_SIZE stack; connected := true;
     handler := true; clock := if daemon then 6%nat else 5%nat;
     trace := startup_events daemon path |}.

(** Environments of the examples: one file that cannot be opened (EACCES),
    or whose writes fail; all else is well. *)
Definition denying (path : string) : env :=
  {| strtold_num := dec_value;
     fopen_at := fun _ p => if String.eqb p path then Some 13 else None;
     fprintf_at := fun _ _ => 2;
     fork_pid := 0;
     socket_err := None;
     connect_err := fun _ => None;
     sigint_at := None |}.

Definition failing_writes (path : string) : env :=
  {| strtold_num := dec_value;
     fopen_at := fun _ _ => None;
     fprintf_at := fun _ p => if String.eqb p path then -1 else 2;
     fork_pid := 0;
     socket_err := None;
     connect_err := fun _ => None;
     sigint_at := None |}.

(** The process forks and is the parent ([pid] positive) or the [fork]
    fails ([pid] negative). *)
Definition forking (pid : Z) : env :=
  {| strtold_num := dec_value;
     fopen_at := fun _ _ => None;
     fprintf_at := fun _ _ => 2;
     fork_pid := pid;
     socket_err := None;
     connect_err := fun _ => None;
     sigint_at := None |}.

(** ** A run and its interrupted twin *)

(** The end of a run, seen at another result type (a run that has not ended
    has no such view; it is given the undefined one). *)
Definition ended {A B : Type} (r : result A) : result B :=
  match r with
  | Ret _ w => Undefined w
  | Exited c w => Exited c w
  | Killed w => Killed w
  | Blocked w => Blocked w
  | Undefined w => Undefined w
  end.

(** [tracks k H m1 m2]: [m2] does what [m1] does, except that where [m1] is
    stopped by [probe k], in a world [w0] with the clock at [k], [m2] ends
    the way [H] ends from [w0]. *)
Definition tracks (k : nat) (H : M unit) {A : Type} (m1 m2 : M A) : Prop :=
  forall w,
    match m1 w with
    | Killed w0 => clock w0 = k /\ m2 w = ended (H w0)
    | Ret a w' => m2 w = Ret a w'
    | Exited c w' => m2 w = Exited c w'
    | Blocked w' => m2 w = Blocked w'
    | Undefined w' => m2 w = Undefined w'
    end.

(** ** What a run does to the GPIO files *)

(** The writes the program makes for the pin [pin]: the pin number to the
    export and the unexport file, [out] to the direction file of the pin,
    [1] and [0] to its value file. *)
Definition pin_write (pin : Z) (path text : string) : bool :=
  (String.eqb path GPIO_EXPORT && String.eqb text (fmt_d pin ++ NL))
  || (String.eqb path GPIO_UNEXPORT && String.eqb text (fmt_d pin ++ NL))
  || (String.eqb path (gpio_direction pin) && String.eqb text ("out" ++ NL))
  || (String.eqb path (gpio_value pin)
      && (String.eqb text ("1" ++ NL) || String.eqb text ("0" ++ NL))).

Definition pin_event (pin : Z) (ev : event) : bool :=
  match ev with
  | Write path text => pin_write pin path text
  | _ => true
  end.

(** The log shows that the release of the pin was tried: a write to the
    unexport file, or the report that this file could not be opened or
    written. *)
Definition release_tried (tr : list event) : Prop :=
  (exists text, In (Write GPIO_UNEXPORT text) tr)
  \/ (exists e, In (Stderr (UnableOpenUnexport e)) tr)
  \/ (exists e, In (Stderr (UnableWriteUnexport e)) tr).

(** What holds of the process at every moment of every run, besides
    [sound]. *)
Record tidy (w : world) : Prop := {
  tidy_marked :
    isExported w <> 0 -> isExported w = 1 /\ connected w = true;
  tidy_handler : connected w = true -> handler w = true;
  tidy_valid : connected w = true -> valid_pin (gpio_pin w) = true;
  tidy_writes : Forall (fun ev => pin_event (gpio_pin w) ev = true) (trace w);
  tidy_early : connected w = false ->
               Forall (fun ev => is_gpio ev = false) (trace w)
}.

(** What a step of the second kind leaves alone; the log only grows. *)
Definition frame2 (w w' : world) : Prop :=
  gpio_pin w' = gpio_pin w /\ isExported w' = isExported w
  /\ connected w' = connected w /\ handler w' = handler w
  /\ exists evs, trace w' = trace w ++ evs.

(** Ends of a run: an [exit] with the pin marked comes after an attempt to
    release it, and a kill by SIGINT comes before the socket is connected. *)
Definition ends_tidy (e : ending) (w : world) : Prop :=
  tidy w
  /\ (forall c, e = Exit c -> isExported w <> 0 -> release_tried (trace w))
  /\ (e = Kill -> connected w = false).

(** [m], run in a phase [P] of the program, keeps [tidy]. *)
Definition keeps (P : world -> Prop) {A : Type} (m : M A) : Prop :=
  forall w, tidy w -> P w ->
    wp m (fun _ w' => tidy w' /\ frame2 w w') ends_tidy w.

(** A phase lasts as long as the steps leave alone what [frame2] names. *)
Definition steady (P : world -> Prop) : Prop :=
  forall w w', frame2 w w' -> P w -> P w'.

(** The phases: any moment; the pin not marked; the socket connected and
    [gpio_pin] holding [pin]. *)
Definition anytime (w : world) : Prop := True.
Definition unmarked (w : world) : Prop := isExported w = 0.
Definition serving (pin : Z) (w : world) : Prop :=
  gpio_pin w = pin /\ connected w = true.

(** ** Messages that the filter gets right *)

(** Messages that arrive in a buffer filled up to byte [n] and zero behind
    it: each is not empty, holds no NUL, fits the buffer with a byte to
    spare, and is at least as long as what the buffer was filled with
    before. *)
Fixpoint rising (n : nat) (msgs : list (list byte)) : Prop :=
  match msgs with
  | [] => True
  | bs :: rest =>
      bs <> []
      /\ (n <= List.length bs)%nat /\ (List.length bs < BUF_SIZE)%nat
      /\ forallb (fun b => negb (Byte.eqb b NUL)) bs = true
      /\ rising (List.length bs) rest
  end.

(** What one turn of the loop should log for a message: the [read], the
    pulse unless the message contains the marker, the [lseek]. *)
Definition message_events (pin : Z) (bs : list byte) : list event :=
  [Read (Z.of_nat (List.length bs))]
  ++ match strstr bs UP_MARKER with
     | None => [Write (gpio_value pin) ("1" ++ NL)%string;
                Usleep 100000;
                Write (gpio_value pin) ("0" ++ NL)%string]
     | Some _ => []
     end
  ++ [Lseek].


(** * Proofs *)

(** ** Rules of the logic *)

Lemma wp_bind {A B : Type} (m : M A) (k : A -> M B) Q X w :
  wp m (fun a w' => wp (k a) Q X w') X w -> wp (bind m k) Q X w.
Proof.
  unfold wp, bind. destruct (m w); auto.
Qed.

Lemma wp_mono {A : Type} (m : M A) (Q Q' : A -> world -> Prop)
    (X X' : ending -> world -> Prop) w :
  wp m Q X w ->
  (forall a w', Q a w' -> Q' a w') ->
  (forall e w', X e w' -> X' e w') ->
  wp m Q' X' w.
Proof.
  unfold wp. destruct (m w); auto.
Qed.

Lemma frame_refl w : frame w w.
Proof. unfold frame. auto. Qed.

Lemma frame_trans w1 w2 w3 : frame w1 w2 -> frame w2 w3 -> frame w1 w3.
Proof.
  unfold frame. intros (H1 & H2 & H3) (K1 & K2 & K3).
  rewrite K1, K2, K3. auto.
Qed.

Lemma quiet_live {A : Type} (m : M A) : quiet m -> live m.
Proof. intros H w Hs _. apply H, Hs. Qed.

Lemma quiet_bind {A B : Type} (m : M A) (k : A -> M B) :
  quiet m -> (forall a, quiet (k a)) -> quiet (bind m k).
Proof.
  intros Hm Hk w Hs. apply wp_bind.
  eapply wp_mono; [apply Hm, Hs | | auto].
  intros a w1 [Hs1 Hf1]. cbv beta.
  eapply wp_mono; [apply Hk, Hs1 | | auto].
  intros b w2 [Hs2 Hf2]. split; [assumption | eapply frame_trans; eassumption].
Qed.

Lemma live_bind {A B : Type} (m : M A) (k : A -> M B) :
  live m -> (forall a, live (k a)) -> live (bind m k).
Proof.
  intros Hm Hk w Hs Hc. apply wp_bind.
  eapply wp_mono; [apply Hm; assumption | | auto].
  intros a w1 [Hs1 Hf1]. cbv beta.
  assert (Hc1 : connected w1 = true).
  { destruct Hf1 as (_ & _ & ->). assumption. }
  eapply wp_mono; [apply Hk; assumption | | auto].
  intros b w2 [Hs2 Hf2]. split; [assumption | eapply frame_trans; eassumption].
Qed.

Lemma quiet_ret {A : Type} (a : A) : quiet (ret a).
Proof. intros w Hs. split; [assumption | apply frame_refl]. Qed.

Lemma quiet_gets {A : Type} (f : world -> A) : quiet (gets f).
Proof. intros w Hs. split; [assumption | apply frame_refl]. Qed.

Lemma quiet_when (b : bool) (m : M unit) : quiet m -> quiet (when b m).
Proof. destruct b; [auto | intros _; apply quiet_ret]. Qed.

Lemma live_when (b : bool) (m : M unit) : live m -> live (when b m).
Proof. destruct b; [auto | intros _; apply quiet_live, quiet_ret]. Qed.

(** ** The invariant under the updates of the world *)

Lemma has_connect_app tr ev : has_connect tr -> has_connect (tr ++ [ev]).
Proof. intros [p Hp]. exists p. apply in_or_app. auto. Qed.

Lemma has_connect_plain tr ev :
  plain ev = true -> has_connect (tr ++ [ev]) -> has_connect tr.
Proof.
  intros Hev [p Hp]. exists p.
  apply in_app_or in Hp. destruct Hp as [Hp | [Hp | []]]; [assumption |].
  subst ev. discriminate.
Qed.

Lemma has_connect_write tr path text :
  has_connect (tr ++ [Write path text]) -> has_connect tr.
Proof.
  intros [p Hp]. exists p.
  apply in_app_or in Hp. destruct Hp as [Hp | [Hp | []]]; [assumption |].
  discriminate.
Qed.

Lemma connect_first_snoc tr ev :
  connect_first tr ->
  (is_gpio ev = true -> has_connect tr) ->
  connect_first (tr ++ [ev]).
Proof.
  intros Htr Hev pre ev' post Heq Hg.
  destruct (exists_last (l := ev' :: post)) as (body & last & Hl);
    [discriminate |].
  rewrite Hl, app_assoc in Heq.
  apply app_inj_tail in Heq. destruct Heq as [Heq <-].
  destruct post as [| x post].
  - destruct body as [| y [| z body]]; try discriminate.
    injection Hl as ->. rewrite app_nil_r in Heq. subst pre. auto.
  - assert (Hb : body = ev' :: removelast (x :: post)).
    { change (ev' :: x :: post) with ([ev'] ++ x :: post) in Hl.
      apply (f_equal (@removelast event)) in Hl.
      rewrite removelast_app in Hl by discriminate.
      rewrite removelast_last in Hl. symmetry. exact Hl. }
    subst body. eapply Htr; eassumption.
Qed.

Lemma connect_first_nil : connect_first [].
Proof. intros [| x pre] ev post H; discriminate. Qed.

Lemma sound_boot stack : sound (boot stack).
Proof.
  constructor; cbn.
  - intros H. contradiction H. reflexivity.
  - split; [discriminate | intros [p []]].
  - apply connect_first_nil.
Qed.

Lemma sound_advance w : sound w -> sound (advance w).
Proof. intros [H1 H2 H3]. constructor; assumption. Qed.

Lemma sound_errno e w : sound w -> sound (set_errno e w).
Proof. intros [H1 H2 H3]. constructor; assumption. Qed.

Lemma sound_buf b w : sound w -> sound (set_buf b w).
Proof. intros [H1 H2 H3]. constructor; assumption. Qed.

Lemma sound_sun_path p w : sound w -> sound (set_sun_path p w).
Proof. intros [H1 H2 H3]. constructor; assumption. Qed.

Lemma sound_handler b w : sound w -> sound (set_handler b w).
Proof. intros [H1 H2 H3]. constructor; assumption. Qed.

Lemma sound_log_plain ev w : plain ev = true -> sound w -> sound (log ev w).
Proof.
  intros Hev [H1 H2 H3]. constructor; cbn.
  - assumption.
  - rewrite H2. split; [apply has_connect_app | apply has_connect_plain, Hev].
  - apply connect_first_snoc; [assumption |].
    destruct ev; try discriminate.
Qed.

Lemma sound_log_write path text w :
  connected w = true -> sound w -> sound (log (Write path text) w).
Proof.
  intros Hc [H1 H2 H3]. constructor; cbn.
  - assumption.
  - rewrite H2. split; [apply has_connect_app | apply has_connect_write].
  - apply connect_first_snoc; [assumption |].
    intros _. apply H2, Hc.
Qed.

Lemma sound_connect path w :
  sound w -> sound (log (Connect path) (set_connected true w)).
Proof.
  intros [H1 H2 H3]. constructor; cbn.
  - intros Hx. split; [reflexivity | apply H1, Hx].
  - split; [| reflexivity].
    intros _. exists path. apply in_or_app. right. left. reflexivity.
  - apply connect_first_snoc; [assumption | discriminate].
Qed.

Lemma sound_gpio_pin v w :
  isExported w = 0 -> sound w -> sound (set_gpio_pin v w).
Proof.
  intros H0 [H1 H2 H3]. constructor; cbn; try assumption.
  intros Hx. contradiction.
Qed.

Lemma sound_isExported w :
  connected w = true -> valid_pin (gpio_pin w) = true ->
  sound w -> sound (set_isExported 1 w).
Proof.
  intros Hc Hv [H1 H2 H3]. constructor; cbn; auto.
Qed.

(** ** Every function of the program keeps the invariant *)

Ltac framed := unfold frame; cbn; auto.

Section Safety.

Variable E : env.
Variable poll : M unit.
Hypothesis poll_quiet : quiet poll.

Lemma wp_stmt {A : Type} (m : M A) Q w :
  sound w ->
  (forall w', sound w' -> frame w w' -> wp m Q ends_sound w') ->
  wp (stmt poll m) Q ends_sound w.
Proof.
  intros Hs Hm. unfold stmt. apply wp_bind.
  eapply wp_mono; [apply poll_quiet, Hs | | auto].
  intros [] w' [Hs' Hf]. auto.
Qed.

Lemma quiet_stmt {A : Type} (m : M A) : quiet m -> quiet (stmt poll m).
Proof. intros Hm. apply quiet_bind; auto. Qed.

Lemma live_stmt {A : Type} (m : M A) : live m -> live (stmt poll m).
Proof. intros Hm. apply live_bind; auto using quiet_live. Qed.

Lemma quiet_exit {A : Type} (status : Z) : quiet (@exit_ poll A status).
Proof.
  apply quiet_stmt. intros w Hs. split; [assumption | discriminate].
Qed.

Lemma quiet_log (ev : event) : plain ev = true -> quiet (modify (log ev)).
Proof.
  intros Hev w Hs. split; [apply sound_log_plain; assumption |].
  framed.
Qed.

Lemma quiet_eprint (r : report) : quiet (eprint poll r).
Proof. apply quiet_stmt, quiet_log. reflexivity. Qed.

Lemma quiet_print (b : banner) : quiet (print poll b).
Proof. apply quiet_stmt, quiet_log. reflexivity. Qed.

Lemma quiet_usleep (usec : Z) : quiet (usleep poll usec).
Proof. apply quiet_stmt, quiet_log. reflexivity. Qed.

Lemma quiet_lseek_end : quiet (lseek_end poll).
Proof. apply quiet_stmt, quiet_log. reflexivity. Qed.

Lemma quiet_fclose : quiet (fclose poll).
Proof. apply quiet_stmt, quiet_ret. Qed.

Lemma quiet_set_errno (e : Z) : quiet (modify (set_errno e)).
Proof.
  intros w Hs. split; [apply sound_errno, Hs | framed].
Qed.

Lemma quiet_fopen (path : string) : quiet (fopen E poll path).
Proof.
  apply quiet_stmt. intros w Hs. unfold wp.
  destruct (fopen_at E (clock w) path).
  - split; [apply sound_errno, Hs | framed].
  - split; [assumption | framed].
Qed.

Lemma live_fprintf (path text : string) : live (fprintf E poll path text).
Proof.
  apply live_stmt. intros w Hs Hc. unfold wp. cbv zeta.
  destruct (fprintf_at E (clock w) path <? 0).
  - split; [assumption | framed].
  - split; [apply sound_log_write; assumption | framed].
Qed.

Lemma quiet_read (r : read_result) : quiet (read poll r).
Proof.
  apply quiet_stmt. intros w Hs. unfold wp. destruct r as [bs | e].
  - split; [| framed].
    apply sound_log_plain; [reflexivity | apply sound_buf, Hs].
  - split; [| framed].
    apply sound_log_plain; [reflexivity | apply sound_errno, Hs].
Qed.

Lemma quiet_strstr_buf (needle : list byte) : quiet (strstr_buf poll needle).
Proof.
  apply quiet_stmt. intros w Hs. unfold wp.
  destruct (cstring (buf w)).
  - split; [assumption | framed].
  - split; [assumption | discriminate].
Qed.

(** Chains of calls are taken apart by the rules, call by call. *)
Ltac atom :=
  first [ apply quiet_ret | apply quiet_gets | apply quiet_exit
        | apply quiet_eprint | apply quiet_print | apply quiet_usleep
        | apply quiet_fclose | apply quiet_set_errno
        | apply quiet_fopen | apply quiet_lseek_end | apply quiet_read
        | apply quiet_strstr_buf ].

Ltac safe_with extra :=
  repeat (intros;
          lazymatch goal with
          | |- quiet (bind _ _) => apply quiet_bind
          | |- live (bind _ _) => apply live_bind
          | |- quiet (when _ _) => apply quiet_when
          | |- live (when _ _) => apply live_when
          | |- live (fprintf _ _ _ _) => apply live_fprintf
          | |- live _ => first [ extra | apply quiet_live ]
          | |- quiet _ => first [ extra | atom ]
          end).

Ltac safe := safe_with fail.

Lemma live_unexportGPIO (pin : Z) : live (unexportGPIO E poll pin).
Proof. unfold unexportGPIO. safe. Qed.

Lemma noreturn_exit {A : Type} (status : Z) : noreturn (@exit_ poll A status).
Proof.
  intros w Hs. unfold exit_. apply wp_stmt; [assumption |].
  intros w1 Hs1 _. unfold wp. split; [assumption | discriminate].
Qed.

Lemma noreturn_bind {A B : Type} (m : M A) (k : A -> M B) :
  quiet m -> (forall a, noreturn (k a)) -> noreturn (bind m k).
Proof.
  intros Hm Hk w Hs. apply wp_bind.
  eapply wp_mono; [apply Hm, Hs | | auto].
  intros a w1 [Hs1 _]. apply Hk, Hs1.
Qed.

Lemma noreturn_seq {A B : Type} (m : M A) (k : A -> M B) :
  noreturn m -> noreturn (bind m k).
Proof.
  intros Hm w Hs. apply wp_bind.
  eapply wp_mono; [apply Hm, Hs | | auto].
  intros a w1 [].
Qed.

Lemma noreturn_wp {A : Type} (m : M A) Q w :
  noreturn m -> sound w -> wp m Q ends_sound w.
Proof.
  intros Hm Hs. eapply wp_mono; [apply Hm, Hs | | auto].
  intros a w' [].
Qed.

Lemma noreturn_cleanup {A : Type} (retval : Z) :
  noreturn (@cleanup E poll A retval).
Proof.
  intros w Hs. unfold cleanup.
  apply wp_bind. unfold gets at 1, wp at 1.
  apply wp_bind. unfold gets at 1, wp at 1.
  apply wp_bind.
  destruct (negb (isExported w =? 0) && (0 <=? gpio_pin w)) eqn:Hg; cbn [when].
  - apply andb_prop in Hg. destruct Hg as [Hx _].
    apply negb_true_iff, Z.eqb_neq in Hx.
    destruct (sound_exported w Hs Hx) as [Hc _].
    eapply wp_mono; [apply live_unexportGPIO; assumption | | auto].
    intros [] w1 [Hs1 Hf1]. apply noreturn_exit, Hs1.
  - unfold ret at 1, wp at 1.
    apply noreturn_exit, Hs.
Qed.

Lemma quiet_cleanup {A : Type} (retval : Z) : quiet (@cleanup E poll A retval).
Proof. intros w Hs. apply noreturn_wp; [apply noreturn_cleanup | exact Hs]. Qed.

Ltac safe' := safe_with ltac:(apply quiet_cleanup).

Lemma live_exportGPIO (pin : Z) : live (exportGPIO E poll pin).
Proof. unfold exportGPIO. safe'. Qed.

Lemma live_setAsOutput (pin : Z) : live (setAsOutput E poll pin).
Proof. unfold setAsOutput. safe'. Qed.

Lemma live_setValue (pin value : Z) : live (setValue E poll pin value).
Proof. unfold setValue. safe'. Qed.

Lemma live_flash (pin : Z) : live (flash E poll pin).
Proof. unfold flash. safe_with ltac:(apply live_setValue). Qed.

Lemma live_iteration (r : read_result) : live (iteration E poll r).
Proof.
  unfold iteration.
  safe_with ltac:(first [ apply live_flash | apply quiet_cleanup ]).
Qed.


Lemma quiet_getopt_loop (opts : list ascii) (isDaemon : bool) :
  quiet (getopt_loop poll opts isDaemon).
Proof.
  revert isDaemon. induction opts as [| c opts IH]; intros isDaemon; cbn.
  - apply quiet_ret.
  - destruct (Ascii.eqb c "h"); [safe |].
    destruct (Ascii.eqb c "v"); [safe |].
    destruct (Ascii.eqb c "?"); [safe |].
    destruct (Ascii.eqb c "d"); apply IH.
Qed.

Lemma wp_strcpy_sun_path (src : string) w :
  sound w ->
  wp (strcpy_sun_path poll src) (fun _ w' => sound w' /\ frame w w')
     ends_sound w.
Proof.
  intros Hs. apply wp_stmt; [assumption |].
  intros w1 Hs1 Hf1. unfold wp.
  destruct (String.length src <? SUN_PATH_SIZE)%nat.
  - split; [apply sound_sun_path, Hs1 | exact Hf1].
  - split; [assumption | discriminate].
Qed.

Lemma wp_set_gpio_pin (v : Z) (src : string) w :
  sound w -> isExported w = 0 ->
  wp (stmt poll (modify (set_gpio_pin v)) ;; strcpy_sun_path poll src)
     (fun _ w' => sound w' /\ isExported w' = 0 /\ connected w' = connected w)
     ends_sound w.
Proof.
  intros Hs H0. apply wp_bind. apply wp_stmt; [assumption |].
  intros w1 Hs1 (Hp1 & Hx1 & Hc1). unfold modify at 1, wp at 1.
  assert (H1 : isExported w1 = 0) by congruence.
  eapply wp_mono;
    [apply wp_strcpy_sun_path, sound_gpio_pin; assumption | | auto].
  intros [] w2 [Hs2 (Hp2 & Hx2 & Hc2)]. cbn in Hx2, Hc2.
  split; [assumption | split; congruence].
Qed.

Lemma wp_positional (args : list string) w :
  sound w -> isExported w = 0 ->
  wp (positional E poll args)
     (fun _ w' => sound w' /\ isExported w' = 0 /\ connected w' = connected w)
     ends_sound w.
Proof.
  intros Hs H0.
  destruct args as [| a1 [| a2 [| a3 args]]]; cbn [positional];
    try (apply wp_set_gpio_pin; assumption).
  apply noreturn_wp; [| assumption].
  apply noreturn_bind; [apply quiet_eprint | intros; apply noreturn_exit].
Qed.

Lemma wp_check_pin w :
  sound w ->
  wp (check_pin poll)
     (fun _ w' => sound w' /\ frame w w' /\ valid_pin (gpio_pin w') = true)
     ends_sound w.
Proof.
  intros Hs. unfold check_pin. apply wp_bind. unfold gets at 1, wp at 1.
  destruct (valid_pin (gpio_pin w)) eqn:Hv.
  - unfold ret, wp. split; [assumption | split; [framed | assumption]].
  - apply noreturn_wp; [| assumption].
    apply noreturn_bind; [apply quiet_eprint | intros; apply noreturn_exit].
Qed.

Lemma quiet_daemonize (isDaemon : bool) : quiet (daemonize E poll isDaemon).
Proof.
  unfold daemonize. destruct isDaemon; [| apply quiet_ret].
  apply quiet_bind.
  - apply quiet_stmt. intros w Hs. unfold wp.
    split; [apply sound_log_plain; [reflexivity | assumption] | framed].
  - intros pid. destruct (pid <? 0); [apply quiet_exit |].
    destruct (0 <? pid); [apply quiet_exit | apply quiet_ret].
Qed.

Lemma quiet_catch_sigint : quiet (catch_sigint poll).
Proof.
  apply quiet_stmt. intros w Hs. unfold wp, modify.
  split; [| framed].
  apply sound_log_plain; [reflexivity | apply sound_handler, Hs].
Qed.

(** A reporting branch: it reports, then leaves through [exit] or
    [cleanup]. *)
Ltac fatal :=
  repeat (intros;
          lazymatch goal with
          | |- noreturn (exit_ _ _) => apply noreturn_exit
          | |- noreturn (cleanup _ _ _) => apply noreturn_cleanup
          | |- noreturn (bind _ _) => apply noreturn_bind; [solve [safe'] |]
          end).

Lemma wp_lirc_init w :
  sound w ->
  wp (lirc_init E poll)
     (fun _ w' => sound w' /\ connected w' = true
                  /\ gpio_pin w' = gpio_pin w /\ isExported w' = isExported w)
     ends_sound w.
Proof.
  intros Hs. unfold lirc_init.
  apply wp_bind. apply wp_stmt; [assumption |].
  intros w1 Hs1 (Hp1 & Hx1 & Hc1). unfold wp at 1.
  destruct (socket_err E) as [e |]; cbn [negb when].
  - apply noreturn_wp; [| apply sound_errno, Hs1].
    apply noreturn_seq. fatal.
  - apply wp_bind. unfold ret at 1, wp at 1.
    apply wp_bind. unfold gets at 1, wp at 1.
    apply wp_bind. apply wp_stmt.
    { apply sound_log_plain; [reflexivity | assumption]. }
    intros w2 Hs2 (Hp2 & Hx2 & Hc2). cbn in Hp2, Hx2, Hc2. unfold wp at 1.
    destruct (connect_err E (sun_path (log Socket w1))) as [e |];
      cbn [negb when].
    + apply noreturn_wp; [| apply sound_errno, Hs2]. fatal.
    + unfold ret, wp. cbn.
      split; [apply sound_connect, Hs2 |].
      split; [reflexivity | split; congruence].
Qed.

Lemma wp_gpio_init w :
  sound w -> connected w = true -> valid_pin (gpio_pin w) = true ->
  wp (gpio_init E poll)
     (fun _ w' => sound w' /\ connected w' = true /\ isExported w' <> 0)
     ends_sound w.
Proof.
  intros Hs Hc Hv. unfold gpio_init.
  apply wp_bind. unfold gets at 1, wp at 1.
  apply wp_bind.
  eapply wp_mono; [apply live_exportGPIO; assumption | | auto].
  intros [] w1 [Hs1 (Hp1 & Hx1 & Hc1)]. cbv beta.
  apply wp_bind. apply wp_stmt; [assumption |].
  intros w2 Hs2 (Hp2 & Hx2 & Hc2). unfold modify at 1, wp at 1.
  apply wp_bind. unfold gets at 1, wp at 1.
  assert (Hc' : connected w2 = true) by congruence.
  assert (Hv' : valid_pin (gpio_pin w2) = true) by congruence.
  eapply wp_mono;
    [apply live_setAsOutput; [apply sound_isExported; assumption | exact Hc']
    | | auto].
  intros [] w3 [Hs3 (Hp3 & Hx3 & Hc3)]. cbn in Hx3, Hc3.
  split; [assumption | split; [congruence | rewrite Hx3; discriminate]].
Qed.

Lemma wp_startup (opts : list ascii) (args : list string) w :
  sound w -> isExported w = 0 ->
  wp (startup E poll opts args)
     (fun _ w' => sound w' /\ connected w' = true /\ isExported w' <> 0)
     ends_sound w.
Proof.
  intros Hs H0. unfold startup.
  apply wp_bind.
  eapply wp_mono; [apply quiet_getopt_loop, Hs | | auto].
  intros isDaemon w1 [Hs1 (Hp1 & Hx1 & Hc1)]. cbv beta.
  apply wp_bind.
  eapply wp_mono; [apply wp_positional; [assumption | congruence] | | auto].
  intros [] w2 (Hs2 & Hx2 & Hc2). cbv beta.
  apply wp_bind.
  eapply wp_mono; [apply wp_check_pin, Hs2 | | auto].
  intros [] w3 (Hs3 & (Hp3 & Hx3 & Hc3) & Hv3). cbv beta.
  apply wp_bind.
  eapply wp_mono; [apply quiet_daemonize, Hs3 | | auto].
  intros [] w4 (Hs4 & (Hp4 & Hx4 & Hc4)). cbv beta.
  apply wp_bind.
  eapply wp_mono; [apply quiet_catch_sigint, Hs4 | | auto].
  intros [] w5 (Hs5 & (Hp5 & Hx5 & Hc5)). cbv beta.
  apply wp_bind.
  eapply wp_mono; [apply wp_lirc_init, Hs5 | | auto].
  intros [] w6 (Hs6 & Hc6 & Hp6 & Hx6). cbv beta.
  apply wp_gpio_init; [assumption | assumption | congruence].
Qed.

Lemma wp_event_loop (reads : list read_result) w :
  sound w -> connected w = true -> isExported w <> 0 ->
  wp (event_loop E poll reads) (fun _ _ => False) ends_ok w.
Proof.
  revert w. induction reads as [| r reads IH]; intros w Hs Hc Hx; cbn.
  - unfold wp. split; auto.
  - apply wp_bind.
    eapply wp_mono; [apply live_iteration; assumption | |].
    + intros [] w1 [Hs1 (Hp1 & Hx1 & Hc1)]. apply IH; congruence.
    + intros e w1 [Hs1 He]. split; [assumption | intros ->; contradiction].
Qed.

Lemma bind_assoc {A B C : Type} (m : M A) (k : A -> M B) (h : B -> M C) w :
  bind (bind m k) h w = bind m (fun a => bind (k a) h) w.
Proof. unfold bind. destruct (m w); reflexivity. Qed.

Lemma main_startup opts args reads w :
  main E poll opts args reads w
  = bind (startup E poll opts args) (fun _ => event_loop E poll reads) w.
Proof.
  unfold main, startup, bind.
  repeat match goal with
         | |- context [match ?m w with _ => _ end] => destruct (m w); try reflexivity
         | |- context [match ?m ?w1 with _ => _ end] =>
             is_var w1; destruct (m w1); try reflexivity
         end.
Qed.

Lemma wp_main opts args reads w :
  sound w -> isExported w = 0 ->
  wp (main E poll opts args reads) (fun _ _ => False) ends_ok w.
Proof.
  intros Hs H0. unfold wp. rewrite main_startup. fold (wp (bind (startup E poll opts args) (fun _ => event_loop E poll reads)) (fun _ _ => False) ends_ok w).
  apply wp_bind.
  eapply wp_mono; [apply wp_startup; assumption | |].
  - intros [] w1 (Hs1 & Hc1 & Hx1). apply wp_event_loop; assumption.
  - intros e w1 [Hs1 He]. split; [assumption | intros ->; contradiction].
Qed.

End Safety.

(** ** The invariant holds along every run *)

Lemma quiet_masked : quiet masked.
Proof.
  intros w Hs. unfold wp, masked, modify.
  split; [apply sound_advance, Hs | framed].
Qed.

Lemma quiet_boundary (E : env) : quiet (boundary E).
Proof.
  intros w Hs. unfold wp, boundary.
  destruct (match sigint_at E with
            | Some k => Nat.eqb k (clock w)
            | None => false
            end).
  - destruct (handler w).
    + pose proof (noreturn_cleanup E masked quiet_masked (A := unit) 1
                    (advance w) (sound_advance w Hs)) as H.
      unfold wp in H. unfold onExit.
      destruct (cleanup E masked 1 (advance w)); solve [contradiction | exact H].
    + split; [apply sound_advance, Hs | discriminate].
  - split; [apply sound_advance, Hs | framed].
Qed.

Lemma run_sound (E : env) opts args reads stack :
  wp (main E (boundary E) opts args reads) (fun _ _ => False) ends_ok
     (boot stack).
Proof.
  apply wp_main; [apply quiet_boundary | apply sound_boot | reflexivity].
Qed.

Lemma final_sound (E : env) opts args reads stack :
  sound (final (lirc_indicator E opts args reads stack)).
Proof.
  pose proof (run_sound E opts args reads stack) as H.
  unfold wp in H. unfold lirc_indicator.
  destruct (main E (boundary E) opts args reads (boot stack));
    cbn; solve [contradiction | apply H].
Qed.

Lemma quiet_probe (k : nat) : quiet (probe k).
Proof.
  intros w Hs. unfold wp, probe. destruct (Nat.eqb (clock w) k).
  - split; [assumption | discriminate].
  - split; [apply sound_advance, Hs | framed].
Qed.

Lemma state_sound (E : env) opts args reads stack k :
  sound (state_at E opts args reads stack k).
Proof.
  pose proof (wp_main E (probe k) (quiet_probe k) opts args reads (boot stack)
                (sound_boot stack) eq_refl) as H.
  unfold wp in H. unfold state_at.
  destruct (main E (probe k) opts args reads (boot stack));
    cbn; solve [contradiction | apply H].
Qed.

Lemma blocked_exported (E : env) opts args reads stack w :
  lirc_indicator E opts args reads stack = Blocked w ->
  sound w /\ isExported w <> 0.
Proof.
  intros Hr. pose proof (run_sound E opts args reads stack) as H.
  unfold wp in H. unfold lirc_indicator in Hr. rewrite Hr in H.
  destruct H as [Hs Hx]. auto.
Qed.

(** ** Runs without interruption, step by step *)

Lemma boundary_calm (E : env) w :
  no_sigint E -> boundary E w = Ret tt (advance w).
Proof. unfold no_sigint, boundary. intros ->. reflexivity. Qed.

Lemma masked_calm w : masked w = Ret tt (advance w).
Proof. reflexivity. Qed.

Lemma after_refl w : after w [] w.
Proof. unfold after. rewrite app_nil_r. repeat split; reflexivity. Qed.

Lemma after_trans w1 w2 w3 evs1 evs2 :
  after w1 evs1 w2 -> after w2 evs2 w3 -> after w1 (evs1 ++ evs2) w3.
Proof.
  unfold after.
  intros (H1 & H2 & H3 & H4 & H5 & H6 & H7) (K1 & K2 & K3 & K4 & K5 & K6 & K7).
  rewrite K1, H1, app_assoc. repeat split; congruence.
Qed.

Lemma writable_ltb (E : env) path t :
  writable E path -> (fprintf_at E t path <? 0) = false.
Proof. intros H. apply Z.ltb_ge, H. Qed.

Lemma bind_ret_eq {A B : Type} (m : M A) (k : A -> M B) w a w' :
  m w = Ret a w' -> bind m k w = k a w'.
Proof. unfold bind. intros ->. reflexivity. Qed.

Lemma bind_exit_eq {A B : Type} (m : M A) (k : A -> M B) w c w' :
  m w = Exited c w' -> bind m k w = Exited c w'.
Proof. unfold bind. intros ->. reflexivity. Qed.

Ltac aftered :=
  unfold after; cbn; rewrite ?app_nil_r, <- ?app_assoc; repeat split; reflexivity.

Section Calm.

Variable E : env.
Variable poll : M unit.
Hypothesis poll_calm : forall w, poll w = Ret tt (advance w).

Lemma stmt_calm {A : Type} (m : M A) w : stmt poll m w = m (advance w).
Proof. unfold stmt, bind. rewrite poll_calm. reflexivity. Qed.

Lemma exit_calm {A : Type} (status : Z) w :
  @exit_ poll A status w = Exited status (advance w).
Proof. unfold exit_. apply stmt_calm. Qed.

Lemma eprint_calm (r : report) w :
  eprint poll r w = Ret tt (log (Stderr r) (advance w)).
Proof. unfold eprint. apply stmt_calm. Qed.

Lemma usleep_calm (usec : Z) w :
  usleep poll usec w = Ret tt (log (Usleep usec) (advance w)).
Proof. unfold usleep. apply stmt_calm. Qed.

Lemma fclose_calm w : fclose poll w = Ret tt (advance w).
Proof. unfold fclose. apply stmt_calm. Qed.

Lemma fopen_calm (path : string) w :
  opens E path -> fopen E poll path w = Ret true (advance w).
Proof.
  intros Ho. unfold fopen. rewrite stmt_calm, Ho. reflexivity.
Qed.

Lemma fprintf_calm (path text : string) w :
  writable E path ->
  fprintf E poll path text w
  = Ret (fprintf_at E (S (clock w)) path)
        (log (Write path text) (advance w)).
Proof.
  intros Hw. unfold fprintf. rewrite stmt_calm. cbn.
  rewrite writable_ltb by assumption. reflexivity.
Qed.

Lemma unexportGPIO_calm (pin : Z) w :
  opens E GPIO_UNEXPORT -> writable E GPIO_UNEXPORT ->
  exists w',
    unexportGPIO E poll pin w = Ret tt w'
    /\ after w [Write GPIO_UNEXPORT (fmt_d pin ++ NL)%string] w'.
Proof.
  intros Ho Hw. unfold unexportGPIO, bind.
  rewrite fopen_calm by assumption. cbn [negb when ret].
  rewrite fprintf_calm by assumption. cbn [modify].
  rewrite writable_ltb by assumption. cbn [when ret].
  rewrite fclose_calm.
  eexists. split; [reflexivity | aftered].
Qed.

Lemma cleanup_calm {A : Type} (retval : Z) w :
  opens E GPIO_UNEXPORT -> writable E GPIO_UNEXPORT ->
  exists w',
    @cleanup E poll A retval w = Exited retval w'
    /\ after w (release_events w) w'.
Proof.
  intros Ho Hw. unfold cleanup, bind at 1 2 3, gets.
  unfold release_events, exported.
  destruct (negb (isExported w =? 0) && (0 <=? gpio_pin w)); cbn [when ret].
  - destruct (unexportGPIO_calm (gpio_pin w) w Ho Hw) as (w1 & -> & H1).
    rewrite exit_calm. eexists. split; [reflexivity |].
    rewrite <- (app_nil_r [Write _ _]).
    eapply after_trans; [exact H1 | aftered].
  - rewrite exit_calm. eexists. split; [reflexivity | aftered].
Qed.

Lemma setValue_calm (pin value : Z) w :
  opens E (gpio_value pin) -> writable E (gpio_value pin) ->
  value = 0 \/ value = 1 ->
  exists w',
    setValue E poll pin value w = Ret tt w'
    /\ after w [Write (gpio_value pin) (fmt_d value ++ NL)%string] w'.
Proof.
  intros Ho Hw Hv. unfold setValue, bind.
  replace (negb (value =? 0) && negb (value =? 1)) with false
    by (destruct Hv; subst value; reflexivity).
  cbn [when ret].
  rewrite fopen_calm by assumption. cbn [negb when ret].
  rewrite fprintf_calm by assumption. cbn [modify].
  rewrite writable_ltb by assumption. cbn [when ret].
  rewrite fclose_calm.
  eexists. split; [reflexivity | aftered].
Qed.

Lemma setValue_rejects (pin value : Z) w :
  opens E GPIO_UNEXPORT -> writable E GPIO_UNEXPORT ->
  value <> 0 -> value <> 1 ->
  exists w',
    setValue E poll pin value w = Exited 0 w'
    /\ after w (Stderr (ValueNot0Or1 pin value) :: release_events w) w'.
Proof.
  intros Ho Hw H0 H1. unfold setValue, bind at 1 2.
  apply Z.eqb_neq in H0, H1. rewrite H0, H1. cbn [negb andb when].
  rewrite eprint_calm.
  destruct (cleanup_calm (A := unit) 0 (log (Stderr (ValueNot0Or1 pin value)) (advance w)) Ho Hw)
    as (w1 & -> & Ha).
  exists w1. split; [reflexivity |].
  change (Stderr (ValueNot0Or1 pin value) :: release_events w)
    with ([Stderr (ValueNot0Or1 pin value)] ++ release_events w).
  eapply after_trans; [| exact Ha]. aftered.
Qed.

Lemma flash_calm (pin : Z) w :
  opens E (gpio_value pin) -> writable E (gpio_value pin) ->
  exists w',
    flash E poll pin w = Ret tt w'
    /\ after w [Write (gpio_value pin) ("1" ++ NL)%string;
                Usleep 100000;
                Write (gpio_value pin) ("0" ++ NL)%string] w'.
Proof.
  intros Ho Hw. unfold flash, bind.
  destruct (setValue_calm pin 1 w Ho Hw) as (w1 & -> & H1); [auto |].
  rewrite usleep_calm.
  destruct (setValue_calm pin 0 (log (Usleep 100000) (advance w1)) Ho Hw)
    as (w2 & -> & H2); [auto |].
  exists w2. split; [reflexivity |].
  change [Write (gpio_value pin) ("1" ++ NL)%string; Usleep 100000;
          Write (gpio_value pin) ("0" ++ NL)%string]
    with ([Write (gpio_value pin) (fmt_d 1 ++ NL)%string]
          ++ [Usleep 100000]
          ++ [Write (gpio_value pin) (fmt_d 0 ++ NL)%string]).
  eapply after_trans; [exact H1 |].
  eapply after_trans; [| exact H2]. aftered.
Qed.

Lemma read_eof w :
  exists w', read poll (ReadBytes []) w = Ret 0 w' /\ after w [Read 0] w'.
Proof.
  unfold read. rewrite stmt_calm. cbn.
  eexists. split; [reflexivity | aftered].
Qed.

Lemma iteration_eof w :
  opens E GPIO_UNEXPORT -> writable E GPIO_UNEXPORT ->
  exists w',
    iteration E poll (ReadBytes []) w = Exited 0 w'
    /\ after w (Read 0 :: release_events w) w'.
Proof.
  intros Ho Hw. unfold iteration.
  destruct (read_eof w) as (w1 & Hr & Ha1).
  rewrite (bind_ret_eq _ _ _ _ _ Hr). cbn [Z.eqb when].
  rewrite (bind_ret_eq _ _ _ tt w1 eq_refl).
  destruct (cleanup_calm (A := unit) 0 w1 Ho Hw) as (w2 & Hc & Ha2).
  rewrite (bind_exit_eq _ _ _ _ _ Hc).
  exists w2. split; [reflexivity |].
  change (Read 0 :: release_events w) with ([Read 0] ++ release_events w).
  replace (release_events w) with (release_events w1).
  - eapply after_trans; eassumption.
  - unfold release_events, exported.
    destruct Ha1 as (_ & -> & -> & _). reflexivity.
Qed.

End Calm.

(** ** The pulse *)

(** C5: a pulse whose two writes go through makes exactly two writes to the
    value file of the pin, "1" first and "0" second, sleeps 100000
    microseconds (a positive time) between them, and does nothing else to
    the pin: those three events are all that [flash] adds to the log before
    it returns. *)
Theorem flash_two_writes (E : env) (pin : Z) (w : world) :
  no_sigint E ->
  opens E (gpio_value pin) ->
  writable E (gpio_value pin) ->
  exists w',
    flash E (boundary E) pin w = Ret tt w'
    /\ after w [Write (gpio_value pin) ("1" ++ NL)%string;
                Usleep 100000;
                Write (gpio_value pin) ("0" ++ NL)%string] w'
    /\ 0 < 100000.
Proof.
  intros Hq Ho Hw.
  destruct (flash_calm E (boundary E) (fun w0 => boundary_calm E w0 Hq) pin w Ho Hw)
    as (w' & Hr & Ha).
  exists w'. split; [exact Hr | split; [exact Ha | reflexivity]].
Qed.

Lemma flash_two_writes_witness :
  no_sigint calm /\ opens calm (gpio_value 18) /\ writable calm (gpio_value 18)
  /\ exists w',
       flash calm (boundary calm) 18 waiting18 = Ret tt w'
       /\ after waiting18 [Write (gpio_value 18) ("1" ++ NL)%string;
                           Usleep 100000;
                           Write (gpio_value 18) ("0" ++ NL)%string] w'
       /\ 0 < 100000.
Proof.
  assert (Hq : no_sigint calm) by reflexivity.
  assert (Ho : opens calm (gpio_value 18)) by (intros t; reflexivity).
  assert (Hw : writable calm (gpio_value 18)) by (intros t; cbn; lia).
  split; [exact Hq | split; [exact Ho | split; [exact Hw |]]].
  exact (flash_two_writes calm 18 waiting18 Hq Ho Hw).
Defined.

(** ** Rejected values *)

Lemma calm_quiet : no_sigint calm.
Proof. reflexivity. Qed.

Lemma calm_opens path : opens calm path.
Proof. intros t. reflexivity. Qed.

Lemma calm_writable path : writable calm path.
Proof. intros t. cbn. lia. Qed.

(** C2, as stated, fails: asked for the value 2 on the exported pin 18,
    [setValue] does not return to its caller.  It reports, releases the pin
    through the unexport file and exits with status 0. *)
Lemma setValue_2_ends_the_process :
  exists w',
    setValue calm (boundary calm) 18 2 waiting18 = Exited 0 w'
    /\ trace w' = trace waiting18
                   ++ [Stderr (ValueNot0Or1 18 2);
                       Write GPIO_UNEXPORT ("18" ++ NL)%string].
Proof.
  exists (final (setValue calm (boundary calm) 18 2 waiting18)).
  split; vm_compute; reflexivity.
Qed.

(** C2, amended: for every value other than 0 and 1, [setValue] reports the
    value and writes nothing to the value file; it then runs [cleanup(0)]:
    the pin is released if it is exported, and the process exits with
    status 0. *)
Theorem setValue_rejection (E : env) (pin value : Z) (w : world) :
  value <> 0 -> value <> 1 ->
  no_sigint E ->
  opens E GPIO_UNEXPORT ->
  writable E GPIO_UNEXPORT ->
  exists w',
    setValue E (boundary E) pin value w = Exited 0 w'
    /\ after w (Stderr (ValueNot0Or1 pin value) :: release_events w) w'.
Proof.
  intros H0 H1 Hq Ho Hw.
  exact (setValue_rejects E (boundary E) (fun w0 => boundary_calm E w0 Hq)
           pin value w Ho Hw H0 H1).
Qed.

Lemma setValue_rejection_witness :
  2 <> 0 /\ 2 <> 1 /\ no_sigint calm
  /\ opens calm GPIO_UNEXPORT /\ writable calm GPIO_UNEXPORT
  /\ exists w',
       setValue calm (boundary calm) 18 2 waiting18 = Exited 0 w'
       /\ after waiting18
            (Stderr (ValueNot0Or1 18 2) :: release_events waiting18) w'.
Proof.
  assert (H0 : 2 <> 0) by lia.
  assert (H1 : 2 <> 1) by lia.
  split; [exact H0 | split; [exact H1 | split; [exact calm_quiet |]]].
  split; [apply calm_opens | split; [apply calm_writable |]].
  exact (setValue_rejection calm 18 2 waiting18 H0 H1 calm_quiet
           (calm_opens _) (calm_writable _)).
Defined.

(** ** Release *)

(** C4, as stated, fails: on the exported pin 18 a second [cleanup] writes
    the pin to the unexport file a second time.  That is also what a run
    does when SIGINT arrives after the release of a zero-length read and
    before its [exit]: the handler releases the pin again. *)
Lemma release_twice_writes_twice :
  let once := final (cleanup calm (boundary calm) (A := unit) 0 waiting18) in
  let twice := final (cleanup calm (boundary calm) (A := unit) 0 once) in
  isExported once = 1
  /\ writes_to GPIO_UNEXPORT (trace once) = ["18" ++ NL]%string
  /\ writes_to GPIO_UNEXPORT (trace twice) = ["18" ++ NL; "18" ++ NL]%string
  /\ writes_to GPIO_UNEXPORT
       (trace (final (lirc_indicator (with_sigint 16 calm) []
                        ["18"%string] [ReadBytes []] zeros)))
     = ["18" ++ NL; "18" ++ NL]%string.
Proof.
  vm_compute. repeat split; reflexivity.
Qed.

(** C4, amended: when the pin is not marked exported (or the pin number is
    negative) [cleanup] does nothing but exit; when it is, every call of
    [cleanup] writes the pin number to the unexport file and leaves the mark
    set, so that a second call on the world the first one left writes it
    again. *)
Theorem cleanup_release (E : env) (retval retval' : Z) (w : world) :
  no_sigint E ->
  opens E GPIO_UNEXPORT ->
  writable E GPIO_UNEXPORT ->
  (exported w = false ->
   exists w1,
     cleanup E (boundary E) (A := unit) retval w = Exited retval w1
     /\ after w [] w1)
  /\ (exported w = true ->
      exists w1 w2,
        cleanup E (boundary E) (A := unit) retval w = Exited retval w1
        /\ after w [Write GPIO_UNEXPORT (fmt_d (gpio_pin w) ++ NL)%string] w1
        /\ cleanup E (boundary E) (A := unit) retval' w1 = Exited retval' w2
        /\ after w [Write GPIO_UNEXPORT (fmt_d (gpio_pin w) ++ NL)%string;
                    Write GPIO_UNEXPORT (fmt_d (gpio_pin w) ++ NL)%string] w2).
Proof.
  intros Hq Ho Hw.
  pose proof (fun w0 => boundary_calm E w0 Hq) as Hc.
  destruct (cleanup_calm E (boundary E) Hc (A := unit) retval w Ho Hw)
    as (w1 & Hr1 & Ha1).
  split; intros Hx; unfold release_events in Ha1; rewrite Hx in Ha1.
  - exists w1. split; assumption.
  - destruct (cleanup_calm E (boundary E) Hc (A := unit) retval' w1 Ho Hw)
      as (w2 & Hr2 & Ha2).
    assert (Hx1 : exported w1 = true).
    { unfold exported in *. destruct Ha1 as (_ & -> & -> & _). exact Hx. }
    unfold release_events in Ha2. rewrite Hx1 in Ha2.
    assert (Hp : gpio_pin w1 = gpio_pin w) by apply Ha1.
    rewrite Hp in Ha2.
    exists w1, w2. repeat (split; [assumption |]).
    exact (after_trans _ _ _ _ _ Ha1 Ha2).
Qed.

Lemma cleanup_release_witness :
  no_sigint calm /\ opens calm GPIO_UNEXPORT /\ writable calm GPIO_UNEXPORT
  /\ exported waiting18 = true
  /\ exists w1 w2,
       cleanup calm (boundary calm) (A := unit) 0 waiting18 = Exited 0 w1
       /\ after waiting18
            [Write GPIO_UNEXPORT (fmt_d (gpio_pin waiting18) ++ NL)%string] w1
       /\ cleanup calm (boundary calm) (A := unit) 1 w1 = Exited 1 w2
       /\ after waiting18
            [Write GPIO_UNEXPORT (fmt_d (gpio_pin waiting18) ++ NL)%string;
             Write GPIO_UNEXPORT (fmt_d (gpio_pin waiting18) ++ NL)%string] w2.
Proof.
  assert (Hx : exported waiting18 = true) by reflexivity.
  split; [exact calm_quiet | split; [apply calm_opens | split; [apply calm_writable |]]].
  split; [exact Hx |].
  exact (proj2 (cleanup_release calm 0 1 waiting18 calm_quiet
                  (calm_opens _) (calm_writable _)) Hx).
Defined.

(** ** End of stream *)

Lemma valid_pin_nonneg pin : valid_pin pin = true -> 0 <= pin.
Proof. destruct pin; [lia | lia | discriminate]. Qed.

Lemma exported_sound w : sound w -> isExported w <> 0 -> exported w = true.
Proof.
  intros Hs Hx. unfold exported.
  destruct (sound_exported w Hs Hx) as [_ Hv].
  apply valid_pin_nonneg in Hv.
  apply andb_true_intro. split.
  - apply negb_true_iff, Z.eqb_neq, Hx.
  - apply Z.leb_le, Hv.
Qed.

(** Once the process waits in [read], what it does next depends on what
    the next [read]s find only. *)
Lemma event_loop_app (E : env) (poll : M unit) (before rest : list read_result) :
  quiet poll ->
  forall w w',
    sound w -> connected w = true ->
    event_loop E poll before w = Blocked w' ->
    event_loop E poll (before ++ rest) w = event_loop E poll rest w'.
Proof.
  intros Hp. induction before as [| r before IH]; intros w w' Hs Hc Hb.
  - cbn in Hb. injection Hb as ->. reflexivity.
  - cbn in Hb |- *. unfold bind in Hb |- *.
    pose proof (live_iteration E poll Hp r w Hs Hc) as Hi. unfold wp in Hi.
    destruct (iteration E poll r w) as [[] w1 | | | |]; try discriminate.
    + destruct Hi as [Hs1 (_ & _ & Hc1)]. apply IH; [assumption | congruence | assumption].
    + destruct Hi as [_ Hi]. contradiction Hi. reflexivity.
Qed.

(** C7: whenever the process waits in [read] and that [read] returns zero
    bytes, the process writes the pin number to the unexport file and then
    exits with status 0; the release is the last thing it does.  (The
    process is waiting in state [w] after the reads [before]; the pin is
    marked exported there.) *)
Theorem eof_releases_and_exits_0 (E : env) opts args before rest stack w :
  no_sigint E ->
  opens E GPIO_UNEXPORT ->
  writable E GPIO_UNEXPORT ->
  lirc_indicator E opts args before stack = Blocked w ->
  exists w',
    lirc_indicator E opts args (before ++ ReadBytes [] :: rest) stack
    = Exited 0 w'
    /\ after w [Read 0; Write GPIO_UNEXPORT (fmt_d (gpio_pin w) ++ NL)%string] w'
    /\ isExported w <> 0.
Proof.
  intros Hq Ho Hw Hb.
  destruct (blocked_exported _ _ _ _ _ _ Hb) as [Hs Hx].
  pose proof (quiet_boundary E) as Hp.
  unfold lirc_indicator in Hb |- *.
  rewrite main_startup in Hb |- *. unfold bind in Hb |- *.
  pose proof (wp_startup E (boundary E) Hp opts args (boot stack)
                (sound_boot stack) eq_refl) as Hst.
  unfold wp in Hst.
  destruct (startup E (boundary E) opts args (boot stack))
    as [[] w1 | | | |]; try discriminate.
  - destruct Hst as (Hs1 & Hc1 & Hx1).
    rewrite (event_loop_app E (boundary E) before (ReadBytes [] :: rest) Hp
               w1 w Hs1 Hc1 Hb).
    cbn [event_loop].
    destruct (iteration_eof E (boundary E) (fun w0 => boundary_calm E w0 Hq)
                w Ho Hw) as (w' & Hi & Ha).
    rewrite (bind_exit_eq _ _ _ _ _ Hi).
    exists w'. split; [reflexivity | split; [| exact Hx]].
    unfold release_events in Ha.
    rewrite (exported_sound w Hs Hx) in Ha. exact Ha.
  - destruct Hst as [_ Hst]. contradiction Hst. reflexivity.
Qed.

Lemma eof_releases_and_exits_0_witness :
  no_sigint calm /\ opens calm GPIO_UNEXPORT /\ writable calm GPIO_UNEXPORT
  /\ lirc_indicator calm [] ["18"%string] [ReadBytes press_msg] zeros
     = Blocked (final (lirc_indicator calm [] ["18"%string]
                         [ReadBytes press_msg] zeros))
  /\ exists w',
       lirc_indicator calm [] ["18"%string]
         ([ReadBytes press_msg] ++ ReadBytes [] :: []) zeros
       = Exited 0 w'
       /\ after (final (lirc_indicator calm [] ["18"%string]
                          [ReadBytes press_msg] zeros))
            [Read 0; Write GPIO_UNEXPORT ("18" ++ NL)%string] w'
       /\ isExported (final (lirc_indicator calm [] ["18"%string]
                               [ReadBytes press_msg] zeros)) <> 0.
Proof.
  assert (Hb : lirc_indicator calm [] ["18"%string] [ReadBytes press_msg] zeros
               = Blocked (final (lirc_indicator calm [] ["18"%string]
                                   [ReadBytes press_msg] zeros)))
    by (vm_compute; reflexivity).
  split; [exact calm_quiet | split; [apply calm_opens | split; [apply calm_writable |]]].
  split; [exact Hb |].
  exact (eof_releases_and_exits_0 calm [] ["18"%string] [ReadBytes press_msg] []
           zeros _ calm_quiet (calm_opens _) (calm_writable _) Hb).
Defined.

(** ** Arguments and the allow-list *)

Lemma getopt_loop_passes (poll : M unit) opts isDaemon w :
  passes opts = true ->
  getopt_loop poll opts isDaemon w = Ret (isDaemon || daemon_flag opts) w.
Proof.
  revert isDaemon. induction opts as [| c opts IH]; intros isDaemon Hp.
  - cbn. rewrite orb_false_r. reflexivity.
  - cbn [passes forallb] in Hp. cbn [getopt_loop daemon_flag existsb].
    apply andb_prop in Hp. destruct Hp as [Hc Hp].
    apply negb_true_iff in Hc.
    apply orb_false_elim in Hc. destruct Hc as [Hc Hq].
    apply orb_false_elim in Hc. destruct Hc as [Hh Hv].
    rewrite Hh, Hv, Hq.
    destruct (Ascii.eqb c "d") eqn:Hd; rewrite (IH _ Hp).
    + rewrite orb_true_r. reflexivity.
    + reflexivity.
Qed.

Lemma fits_socket rest :
  fits rest = true -> (String.length (socket_of rest) <? SUN_PATH_SIZE)%nat = true.
Proof.
  destruct rest as [| path [| x rest]]; cbn [fits socket_of]; intros H;
    [reflexivity | exact H | discriminate].
Qed.

Lemma positional_shape (E : env) (poll : M unit) s rest :
  fits rest = true ->
  positional E poll (s :: rest)
  = (stmt poll (modify (set_gpio_pin (strtold E s))) ;;
     strcpy_sun_path poll (socket_of rest)).
Proof.
  destruct rest as [| path [| x rest]]; cbn [fits socket_of positional]; intros H;
    [reflexivity | reflexivity | discriminate].
Qed.

Lemma positional_calm (E : env) (poll : M unit) s rest w :
  (forall w0, poll w0 = Ret tt (advance w0)) ->
  fits rest = true ->
  positional E poll (s :: rest) w
  = Ret tt (set_sun_path (socket_of rest)
              (advance (set_gpio_pin (strtold E s) (advance w)))).
Proof.
  intros Hc Hf. rewrite positional_shape by assumption.
  unfold bind. rewrite stmt_calm by assumption. unfold modify.
  unfold strcpy_sun_path. rewrite stmt_calm by assumption.
  rewrite fits_socket by assumption. reflexivity.
Qed.

(** C10: given one or two positional arguments of which the first has no
    numeric prefix (as ["abc"]), [strtold] yields 0, 0 is in the allow-list,
    and the program goes on with pin 0 as if it had been asked for: nothing
    is reported and control reaches the code behind the allow-list with
    [gpio_pin = 0]. *)
Theorem non_numeric_pin_is_pin_0 (E : env) opts s rest reads stack :
  no_sigint E ->
  passes opts = true ->
  fits rest = true ->
  has_subject s = false ->
  strtold E s = 0
  /\ valid_pin (strtold E s) = true
  /\ gpio_pin (configured 0 (socket_of rest) stack) = 0
  /\ trace (configured 0 (socket_of rest) stack) = []
  /\ lirc_indicator E opts (s :: rest) reads stack
     = proceed E (daemon_flag opts) reads
         (configured 0 (socket_of rest) stack).
Proof.
  intros Hq Hp Hf Hs.
  assert (H0 : strtold E s = 0) by (unfold strtold; rewrite Hs; reflexivity).
  rewrite H0.
  split; [reflexivity | split; [reflexivity | split; [reflexivity |]]].
  split; [reflexivity |].
  pose proof (fun w0 => boundary_calm E w0 Hq) as Hc.
  unfold lirc_indicator, main.
  rewrite (bind_ret_eq _ _ _ _ _ (getopt_loop_passes _ opts false _ Hp)).
  rewrite (bind_ret_eq _ _ _ _ _ (positional_calm E _ s rest _ Hc Hf)).
  rewrite H0. reflexivity.
Qed.

(** With every file writable, ["abc"] ends up as pin 0 exported and set
    up as an output. *)
Example abc_exports_pin_0 :
  trace (final (lirc_indicator calm [] ["abc"%string] [] zeros))
  = [Sigaction; Socket; Connect DEFAULT_SOCKET;
     Write GPIO_EXPORT ("0" ++ NL)%string;
     Write (gpio_direction 0) ("out" ++ NL)%string].
Proof. vm_compute. reflexivity. Qed.

Lemma non_numeric_pin_is_pin_0_witness :
  no_sigint calm /\ passes [] = true /\ fits [] = true
  /\ has_subject "abc" = false
  /\ strtold calm "abc" = 0
  /\ valid_pin (strtold calm "abc") = true
  /\ gpio_pin (configured 0 (socket_of []) zeros) = 0
  /\ trace (configured 0 (socket_of []) zeros) = []
  /\ lirc_indicator calm [] ["abc"%string] [] zeros
     = proceed calm (daemon_flag []) []
         (configured 0 (socket_of []) zeros).
Proof.
  split; [exact calm_quiet |].
  split; [reflexivity | split; [reflexivity | split; [reflexivity |]]].
  exact (non_numeric_pin_is_pin_0 calm [] "abc" [] [] zeros calm_quiet
           eq_refl eq_refl eq_refl).
Defined.

Lemma boundary_unhandled (E : env) w :
  handler w = false ->
  boundary E w = Ret tt (advance w) \/ boundary E w = Killed (advance w).
Proof.
  intros Hh. unfold boundary. rewrite Hh.
  destruct (match sigint_at E with
            | Some k => Nat.eqb k (clock w)
            | None => false
            end); auto.
Qed.

(** Before the allow-list lets the pin through, nothing but the complaint
    about the pin is ever logged, whenever SIGINT arrives. *)
Lemma rejected_trace (E : env) opts s rest reads stack :
  passes opts = true ->
  fits rest = true ->
  valid_pin (strtold E s) = false ->
  let w := final (lirc_indicator E opts (s :: rest) reads stack) in
  (trace w = [] \/ trace w = [Stderr (InvalidPin (strtold E s))])
  /\ isExported w = 0.
Proof.
  intros Hp Hf Hv. unfold lirc_indicator, main.
  rewrite (bind_ret_eq _ _ _ _ _ (getopt_loop_passes _ opts false _ Hp)).
  rewrite positional_shape by assumption.
  unfold strcpy_sun_path, check_pin, eprint, exit_, stmt, bind, modify, gets.
  rewrite fits_socket by assumption.
  destruct (boundary_unhandled E (boot stack) eq_refl) as [-> | ->];
    [| cbn; auto].
  match goal with
  | |- context [boundary E ?w] =>
      destruct (boundary_unhandled E w eq_refl) as [-> | ->]; [| cbn; auto]
  end.
  cbn [gpio_pin set_sun_path advance set_gpio_pin]. rewrite Hv.
  match goal with
  | |- context [boundary E ?w] =>
      destruct (boundary_unhandled E w eq_refl) as [-> | ->]; [| cbn; auto]
  end.
  match goal with
  | |- context [boundary E ?w] =>
      destruct (boundary_unhandled E w eq_refl) as [-> | ->]; cbn; auto
  end.
Qed.

(** C6: a pin that is not in the allow-list never reaches the GPIO
    interface: whatever the environment does, no event of the run touches a
    GPIO file and the pin is not marked exported; and unless SIGINT ends
    the process first, the run is the complaint on [stderr] followed by
    [EXIT_FAILURE]. *)
Theorem invalid_pin_rejected (E : env) opts s rest reads stack :
  passes opts = true ->
  fits rest = true ->
  valid_pin (strtold E s) = false ->
  (forall ev,
      In ev (trace (final (lirc_indicator E opts (s :: rest) reads stack))) ->
      is_gpio ev = false)
  /\ isExported (final (lirc_indicator E opts (s :: rest) reads stack)) = 0
  /\ (no_sigint E ->
      exists w,
        lirc_indicator E opts (s :: rest) reads stack = Exited EXIT_FAILURE w
        /\ trace w = [Stderr (InvalidPin (strtold E s))]).
Proof.
  intros Hp Hf Hv.
  destruct (rejected_trace E opts s rest reads stack Hp Hf Hv) as [Ht Hx].
  split; [| split; [exact Hx |]].
  - intros ev Hin. destruct Ht as [Ht | Ht]; rewrite Ht in Hin.
    + destruct Hin.
    + destruct Hin as [<- | []]. reflexivity.
  - intros Hq. pose proof (fun w0 => boundary_calm E w0 Hq) as Hc.
    unfold lirc_indicator, main.
    rewrite (bind_ret_eq _ _ _ _ _ (getopt_loop_passes _ opts false _ Hp)).
    rewrite (bind_ret_eq _ _ _ _ _ (positional_calm E _ s rest _ Hc Hf)).
    unfold check_pin, bind at 1 2, gets.
    cbn [gpio_pin set_sun_path advance set_gpio_pin]. rewrite Hv.
    unfold bind at 1. rewrite eprint_calm by assumption.
    rewrite exit_calm by assumption.
    eexists. split; reflexivity.
Qed.

Lemma invalid_pin_rejected_witness :
  passes ["d"%char] = true /\ fits ["/tmp/test.sock"%string] = true
  /\ valid_pin (strtold calm "5") = false
  /\ (forall ev,
        In ev (trace (final (lirc_indicator calm ["d"%char]
                               ["5"%string; "/tmp/test.sock"%string]
                               [ReadBytes press_msg] zeros))) ->
        is_gpio ev = false)
  /\ isExported (final (lirc_indicator calm ["d"%char]
                          ["5"%string; "/tmp/test.sock"%string]
                          [ReadBytes press_msg] zeros)) = 0
  /\ (no_sigint calm ->
      exists w,
        lirc_indicator calm ["d"%char] ["5"%string; "/tmp/test.sock"%string]
          [ReadBytes press_msg] zeros
        = Exited EXIT_FAILURE w
        /\ trace w = [Stderr (InvalidPin (strtold calm "5"))]).
Proof.
  split; [reflexivity | split; [reflexivity | split; [reflexivity |]]].
  exact (invalid_pin_rejected calm ["d"%char] "5" ["/tmp/test.sock"%string]
           [ReadBytes press_msg] zeros eq_refl eq_refl eq_refl).
Defined.

(** ** The order of socket and pin *)

(** C1, as stated, fails.  The ordinary run passes its boundary 5, the one
    between [connect] and the export of the pin, with the connection open
    and the pin not exported; in a run in which the export file cannot be
    opened the process ends in that state; and when nobody listens on the
    socket, the process exits with the [errno] of [connect] without any
    release: there is nothing to release. *)
Lemma connection_open_without_pin :
  (let w := state_at calm [] [] [ReadBytes press_msg] zeros 5 in
   connected w = true /\ isExported w = 0
   /\ trace w = [Sigaction; Socket; Connect DEFAULT_SOCKET])
  /\ (let w := final (lirc_indicator no_export [] [] [] zeros) in
      connected w = true /\ isExported w = 0
      /\ writes_to GPIO_EXPORT (trace w) = [])
  /\ (exists w,
        lirc_indicator no_lircd [] [] [] zeros = Exited 111 w
        /\ isExported w = 0
        /\ trace w = [Sigaction; Socket;
                      Stderr (UnableOpenSocket DEFAULT_SOCKET 111)]).
Proof.
  split; [vm_compute; repeat split; reflexivity |].
  split; [vm_compute; repeat split; reflexivity |].
  exists (final (lirc_indicator no_lircd [] [] [] zeros)).
  vm_compute. repeat split; reflexivity.
Qed.

Lemma lirc_init_refused (E : env) (e : Z) (w : world) :
  no_sigint E ->
  socket_err E = None ->
  connect_err E (sun_path w) = Some e ->
  exists w',
    lirc_init E (boundary E) w = Exited e w'
    /\ after w [Socket; Stderr (UnableOpenSocket (sun_path w) e)] w'.
Proof.
  intros Hq Hso Hco. pose proof (fun w0 => boundary_calm E w0 Hq) as Hc.
  unfold lirc_init, bind. rewrite stmt_calm by assumption.
  rewrite Hso. cbn [negb when ret gets].
  rewrite stmt_calm by assumption.
  cbn [sun_path log advance]. rewrite Hco. cbn [negb when errno set_errno].
  rewrite eprint_calm by assumption. cbn [errno log advance set_errno].
  rewrite exit_calm by assumption.
  eexists. split; [reflexivity | aftered].
Qed.

Lemma no_gpio_before_connect w :
  sound w -> connected w = false ->
  forall ev, In ev (trace w) -> is_gpio ev = false.
Proof.
  intros Hs Hc ev Hin.
  destruct (is_gpio ev) eqn:Hg; [| reflexivity].
  apply in_split in Hin. destruct Hin as (pre & post & Heq).
  destruct (sound_order w Hs pre ev post Heq Hg) as [path Hp].
  assert (Hcon : connected w = true).
  { apply (sound_connected w Hs). exists path. rewrite Heq.
    apply in_or_app. left. exact Hp. }
  congruence.
Qed.

(** C1, amended: the pin is acquired only after the connection to the event
    source has been opened.  In every state the process passes through,
    a pin marked exported means an open connection; in every run, whatever
    the environment does and whenever SIGINT arrives, every write to a GPIO
    file comes after a successful [connect], and while the connection is not
    open no GPIO file has been written and the pin is not marked.  So when
    [connect] fails the process reports and exits with the [errno] of
    [connect], and neither exports nor releases anything. *)
Theorem pin_only_after_connection (E : env) opts args reads stack :
  let w := final (lirc_indicator E opts args reads stack) in
  (forall k,
      isExported (state_at E opts args reads stack k) <> 0 ->
      connected (state_at E opts args reads stack k) = true)
  /\ connect_first (trace w)
  /\ (isExported w <> 0 -> connected w = true)
  /\ (connected w = false ->
      isExported w = 0 /\ forall ev, In ev (trace w) -> is_gpio ev = false)
  /\ (forall w0 e,
        no_sigint E -> socket_err E = None ->
        connect_err E (sun_path w0) = Some e ->
        exists w',
          lirc_init E (boundary E) w0 = Exited e w'
          /\ after w0 [Socket; Stderr (UnableOpenSocket (sun_path w0) e)] w').
Proof.
  intros w. pose proof (final_sound E opts args reads stack) as Hs.
  fold w in Hs.
  split.
  { intros k Hx.
    exact (proj1 (sound_exported _ (state_sound E opts args reads stack k) Hx)). }
  split; [exact (sound_order w Hs) |].
  split; [intros Hx; exact (proj1 (sound_exported w Hs Hx)) |].
  split.
  - intros Hc. split; [| exact (no_gpio_before_connect w Hs Hc)].
    destruct (Z.eq_dec (isExported w) 0) as [H0 | Hx]; [exact H0 |].
    destruct (sound_exported w Hs Hx) as [Hc' _]. congruence.
  - intros w0 e. apply lirc_init_refused.
Qed.

Lemma pin_only_after_connection_witness :
  let w := final (lirc_indicator no_lircd [] [] [ReadBytes press_msg] zeros) in
  no_sigint no_lircd /\ socket_err no_lircd = None
  /\ connect_err no_lircd (sun_path (configured 4 DEFAULT_SOCKET zeros)) = Some 111
  /\ connected w = false
  /\ (isExported w = 0 /\ forall ev, In ev (trace w) -> is_gpio ev = false)
  /\ exists w',
       lirc_init no_lircd (boundary no_lircd) (configured 4 DEFAULT_SOCKET zeros)
       = Exited 111 w'
       /\ after (configured 4 DEFAULT_SOCKET zeros)
            [Socket;
             Stderr (UnableOpenSocket
                       (sun_path (configured 4 DEFAULT_SOCKET zeros)) 111)] w'.
Proof.
  intros w.
  pose proof (pin_only_after_connection no_lircd [] [] [ReadBytes press_msg] zeros)
    as (_ & _ & _ & H3 & H4).
  fold w in H3.
  assert (Hc : connected w = false) by reflexivity.
  split; [reflexivity | split; [reflexivity | split; [reflexivity |]]].
  split; [exact Hc | split; [exact (H3 Hc) |]].
  exact (H4 (configured 4 DEFAULT_SOCKET zeros) 111 eq_refl eq_refl eq_refl).
Defined.

(** ** The filter *)

(** What the filter sees when the byte behind the bytes read happens to be
    NUL: the bytes read, and nothing else. *)
Lemma cstring_terminated (bs rest : list byte) :
  forallb (fun b => negb (Byte.eqb b NUL)) bs = true ->
  cstring (bs ++ NUL :: rest) = Some bs.
Proof.
  induction bs as [| b bs IH]; intros Hn.
  - reflexivity.
  - cbn in Hn |- *. apply andb_prop in Hn. destruct Hn as [Hb Hn].
    apply negb_true_iff in Hb. rewrite Hb, (IH Hn). reflexivity.
Qed.

(** When the bytes read hold no NUL and the byte of [buf] behind them is
    NUL, the scan sees the bytes read and nothing else: the message is
    flashed exactly when it does not contain the marker. *)
Lemma iteration_terminated (E : env) (poll : M unit) (bs rest : list byte) w :
  (forall w0, poll w0 = Ret tt (advance w0)) ->
  opens E (gpio_value (gpio_pin w)) ->
  writable E (gpio_value (gpio_pin w)) ->
  bs <> [] -> (List.length bs <= BUF_SIZE)%nat ->
  forallb (fun b => negb (Byte.eqb b NUL)) bs = true ->
  skipn (List.length bs) (buf w) = NUL :: rest ->
  exists w',
    iteration E poll (ReadBytes bs) w = Ret tt w'
    /\ trace w'
       = trace w
         ++ [Read (Z.of_nat (List.length bs))]
         ++ match strstr bs UP_MARKER with
            | None => [Write (gpio_value (gpio_pin w)) ("1" ++ NL)%string;
                       Usleep 100000;
                       Write (gpio_value (gpio_pin w)) ("0" ++ NL)%string]
            | Some _ => []
            end
         ++ [Lseek].
Proof.
  intros Hc Ho Hw Hne Hlen Hnul Hrest.
  unfold iteration, bind at 1, read. rewrite stmt_calm by assumption.
  rewrite firstn_all2 by exact Hlen.
  cbn [buf advance]. rewrite Hrest.
  assert (Hi1 : (Z.of_nat (List.length bs) =? -1) = false)
    by (apply Z.eqb_neq; lia).
  assert (Hi0 : (Z.of_nat (List.length bs) =? 0) = false).
  { apply Z.eqb_neq. destruct bs; [contradiction | cbn [List.length]; lia]. }
  rewrite Hi1. unfold bind at 1. cbn [when ret].
  rewrite Hi0. unfold bind at 1. cbn [when ret].
  unfold bind at 1, strstr_buf. rewrite stmt_calm by assumption.
  cbn [buf advance log set_buf]. rewrite (cstring_terminated bs rest Hnul).
  destruct (strstr bs UP_MARKER) as [off |].
  - unfold bind, lseek_end. cbn [when ret].
    rewrite stmt_calm by assumption.
    eexists. split; [reflexivity |]. cbn. rewrite <- app_assoc. reflexivity.
  - unfold bind at 1. cbn [when]. unfold bind at 1, gets.
    cbn [gpio_pin advance log set_buf].
    match goal with
    | |- context [flash E poll (gpio_pin w) ?w1] =>
        destruct (flash_calm E poll Hc (gpio_pin w) w1 Ho Hw) as (w2 & -> & Ha)
    end.
    unfold lseek_end. rewrite stmt_calm by assumption.
    eexists. split; [reflexivity |].
    cbn. destruct Ha as (-> & _). cbn. rewrite <- !app_assoc. reflexivity.
Qed.

(** C3: the code scans [buf] as a C string, not the bytes of the last
    [read].  The same message, a button press of 28 bytes, is flashed when
    it is read into a zeroed buffer, and is not flashed when a release of
    40 bytes was read before it, nor when the stack held the marker behind
    byte 28; and with no NUL in [buf] the scan leaves the array. *)
Theorem residue_decides_the_filter :
  let pulses stack reads :=
    writes_to (gpio_value 18)
      (trace (final (lirc_indicator calm [] ["18"%string] reads stack))) in
  pulses zeros [ReadBytes press_msg] = ["1" ++ NL; "0" ++ NL]%string
  /\ pulses zeros [ReadBytes release_msg; ReadBytes press_msg] = []
  /\ pulses stale_stack [ReadBytes press_msg] = []
  /\ exists w,
       lirc_indicator calm [] ["18"%string] [ReadBytes press_msg] full_stack
       = Undefined w.
Proof.
  cbv zeta.
  split; [vm_compute; reflexivity |].
  split; [vm_compute; reflexivity |].
  split; [vm_compute; reflexivity |].
  exists (final (lirc_indicator calm [] ["18"%string] [ReadBytes press_msg]
                   full_stack)).
  vm_compute. reflexivity.
Qed.

(** C8: the filter is not a function of the payload.  A press, which does
    not contain the marker, triggers no pulse when it is read after a
    longer release; and a payload that does contain the marker, behind a
    NUL, triggers a pulse. *)
Theorem payload_does_not_decide_the_pulse :
  strstr press_msg UP_MARKER = None
  /\ trace (final (lirc_indicator calm [] ["18"%string]
                     [ReadBytes release_msg; ReadBytes press_msg] zeros))
     = [Sigaction; Socket; Connect DEFAULT_SOCKET;
        Write GPIO_EXPORT ("18" ++ NL)%string;
        Write (gpio_direction 18) ("out" ++ NL)%string;
        Read 40; Lseek; Read 28; Lseek]
  /\ strstr nul_msg UP_MARKER = Some 26%nat
  /\ trace (final (lirc_indicator calm [] ["18"%string]
                     [ReadBytes nul_msg] zeros))
     = [Sigaction; Socket; Connect DEFAULT_SOCKET;
        Write GPIO_EXPORT ("18" ++ NL)%string;
        Write (gpio_direction 18) ("out" ++ NL)%string;
        Read 32;
        Write (gpio_value 18) ("1" ++ NL)%string; Usleep 100000;
        Write (gpio_value 18) ("0" ++ NL)%string; Lseek].
Proof.
  repeat split; vm_compute; reflexivity.
Qed.

(** ** SIGINT *)

(** What the handler does, in any state: it releases the pin if the pin is
    marked exported, and exits with status 1. *)
Lemma onExit_release (E : env) (w : world) :
  opens E GPIO_UNEXPORT -> writable E GPIO_UNEXPORT ->
  exists w',
    onExit E (A := unit) w = Exited 1 w' /\ after w (release_events w) w'.
Proof.
  intros Ho Hw. unfold onExit.
  exact (cleanup_calm E masked masked_calm 1 w Ho Hw).
Qed.

(** What SIGINT does at a boundary once the handler is installed: the
    handler runs on the state as it is, and the mark alone decides whether
    the pin is released. *)
Lemma sigint_delivery (E : env) (w : world) :
  handler w = true ->
  sigint_at E = Some (clock w) ->
  opens E GPIO_UNEXPORT -> writable E GPIO_UNEXPORT ->
  exists w',
    boundary E w = Exited 1 w' /\ after w (release_events w) w'.
Proof.
  intros Hh Hk Ho Hw. unfold boundary. rewrite Hk, Nat.eqb_refl, Hh.
  destruct (onExit_release E (advance w) Ho Hw) as (w' & Hr & Ha).
  exists w'. split; [exact Hr |].
  rewrite <- (app_nil_l (release_events w)).
  eapply after_trans; [| exact Ha]. aftered.
Qed.

(** C9: SIGINT between the return of [exportGPIO] and the assignment
    [isExported = 1] finds the pin exported and the mark not set: the
    handler exits with status 1 and releases nothing.  And SIGINT between
    the release of a zero-length read and its [exit] releases the pin a
    second time. *)
Theorem sigint_in_the_gaps :
  (exists w,
     lirc_indicator (with_sigint 8 calm) [] ["18"%string]
       [ReadBytes press_msg] zeros = Exited 1 w
     /\ trace w = [Sigaction; Socket; Connect DEFAULT_SOCKET;
                   Write GPIO_EXPORT ("18" ++ NL)%string]
     /\ isExported w = 0
     /\ writes_to GPIO_UNEXPORT (trace w) = [])
  /\ (exists w,
        lirc_indicator (with_sigint 16 calm) [] ["18"%string]
          [ReadBytes []] zeros = Exited 1 w
        /\ trace w = [Sigaction; Socket; Connect DEFAULT_SOCKET;
                      Write GPIO_EXPORT ("18" ++ NL)%string;
                      Write (gpio_direction 18) ("out" ++ NL)%string;
                      Read 0;
                      Write GPIO_UNEXPORT ("18" ++ NL)%string;
                      Write GPIO_UNEXPORT ("18" ++ NL)%string]).
Proof.
  split.
  - exists (final (lirc_indicator (with_sigint 8 calm) [] ["18"%string]
                     [ReadBytes press_msg] zeros)).
    vm_compute. repeat split; reflexivity.
  - exists (final (lirc_indicator (with_sigint 16 calm) [] ["18"%string]
                     [ReadBytes []] zeros)).
    vm_compute. repeat split; reflexivity.
Qed.

(** * More of the program *)

(** ** Errors on the way to the GPIO files *)

Section Failures.

Variable E : env.
Variable poll : M unit.
Hypothesis poll_calm : forall w, poll w = Ret tt (advance w).

Lemma fopen_refused (path : string) (e : Z) w :
  refuses E path e ->
  fopen E poll path w = Ret false (set_errno e (advance w)).
Proof.
  intros Hr. unfold fopen. rewrite stmt_calm by assumption.
  rewrite Hr. reflexivity.
Qed.

Lemma fprintf_fails (path text : string) (r : Z) w :
  fprintf_returns E path r -> r < 0 ->
  fprintf E poll path text w = Ret r (advance w).
Proof.
  intros Hr Hneg. unfold fprintf. rewrite stmt_calm by assumption.
  cbv zeta. rewrite Hr.
  replace (r <? 0) with true by (symmetry; apply Z.ltb_lt, Hneg).
  reflexivity.
Qed.

(** A report followed by [cleanup(errno)]. *)
Lemma report_then_cleanup (R : Z -> report) w :
  opens E GPIO_UNEXPORT -> writable E GPIO_UNEXPORT ->
  exists w',
    (e <- gets errno ;; eprint poll (R e) ;;
     e <- gets errno ;; @cleanup E poll unit e) w
    = Exited (errno w) w'
    /\ after w (Stderr (R (errno w)) :: release_events w) w'.
Proof.
  intros Ho Hw. unfold bind at 1 2 3, gets.
  rewrite eprint_calm by assumption. cbn [errno log advance].
  destruct (cleanup_calm E poll poll_calm (A := unit) (errno w)
              (log (Stderr (R (errno w))) (advance w)) Ho Hw)
    as (w' & Hc & Ha).
  exists w'. split; [exact Hc |].
  change (Stderr (R (errno w)) :: release_events w)
    with ([Stderr (R (errno w))] ++ release_events w).
  eapply after_trans; [| exact Ha]. aftered.
Qed.

(** A report followed by [exit(errno)]. *)
Lemma report_then_exit (R : Z -> report) w :
  exists w',
    (e <- gets errno ;; eprint poll (R e) ;;
     e <- gets errno ;; @exit_ poll unit e) w
    = Exited (errno w) w'
    /\ after w [Stderr (R (errno w))] w'.
Proof.
  unfold bind, gets. rewrite eprint_calm by assumption.
  cbn [errno log advance]. rewrite exit_calm by assumption.
  eexists. split; [reflexivity | aftered].
Qed.

Lemma after_errno w evs w' e :
  after (set_errno e (advance w)) evs w' -> after w evs w'.
Proof. unfold after. cbn. auto. Qed.

Lemma release_events_errno w e :
  release_events (set_errno e (advance w)) = release_events w.
Proof. reflexivity. Qed.

Lemma exportGPIO_refused (pin e : Z) w :
  refuses E GPIO_EXPORT e ->
  opens E GPIO_UNEXPORT -> writable E GPIO_UNEXPORT ->
  exists w',
    exportGPIO E poll pin w = Exited e w'
    /\ after w (Stderr (UnableOpenExport e) :: release_events w) w'.
Proof.
  intros Hr Ho Hw. unfold exportGPIO.
  rewrite (bind_ret_eq _ _ _ _ _ (fopen_refused _ e w Hr)). cbn [negb when].
  destruct (report_then_cleanup UnableOpenExport (set_errno e (advance w)) Ho Hw)
    as (w' & Hc & Ha).
  rewrite (bind_exit_eq _ _ _ _ _ Hc).
  exists w'. split; [reflexivity | exact (after_errno _ _ _ _ Ha)].
Qed.

Lemma exportGPIO_write_fails (pin r : Z) w :
  opens E GPIO_EXPORT -> fprintf_returns E GPIO_EXPORT r -> r < 0 ->
  opens E GPIO_UNEXPORT -> writable E GPIO_UNEXPORT ->
  exists w',
    exportGPIO E poll pin w = Exited r w'
    /\ after w (Stderr (UnableWriteExport r) :: release_events w) w'.
Proof.
  intros Hop Hr Hneg Ho Hw. unfold exportGPIO.
  rewrite (bind_ret_eq _ _ _ _ _ (fopen_calm E poll poll_calm _ w Hop)).
  cbn [negb when]. rewrite (bind_ret_eq _ _ _ tt _ eq_refl).
  rewrite (bind_ret_eq _ _ _ _ _ (fprintf_fails _ _ r _ Hr Hneg)).
  unfold bind at 1. cbn [modify].
  replace (r <? 0) with true by (symmetry; apply Z.ltb_lt, Hneg).
  cbn [when].
  destruct (report_then_cleanup UnableWriteExport
              (set_errno r (advance (advance w))) Ho Hw) as (w' & Hc & Ha).
  rewrite (bind_exit_eq _ _ _ _ _ Hc).
  exists w'. split; [reflexivity |].
  apply after_errno in Ha.
  assert (H0 : after w [] (advance w)) by aftered.
  exact (after_trans _ _ _ _ _ H0 Ha).
Qed.

Lemma exportGPIO_calm (pin : Z) w :
  opens E GPIO_EXPORT -> writable E GPIO_EXPORT ->
  exists w',
    exportGPIO E poll pin w = Ret tt w'
    /\ after w [Write GPIO_EXPORT (fmt_d pin ++ NL)%string] w'.
Proof.
  intros Ho Hw. unfold exportGPIO, bind.
  rewrite fopen_calm by assumption. cbn [negb when ret].
  rewrite fprintf_calm by assumption. cbn [modify].
  rewrite writable_ltb by assumption. cbn [when ret].
  rewrite fclose_calm by assumption.
  eexists. split; [reflexivity | aftered].
Qed.

Lemma setAsOutput_calm (pin : Z) w :
  opens E (gpio_direction pin) -> writable E (gpio_direction pin) ->
  exists w',
    setAsOutput E poll pin w = Ret tt w'
    /\ after w [Write (gpio_direction pin) ("out" ++ NL)%string] w'.
Proof.
  intros Ho Hw. unfold setAsOutput, bind.
  rewrite fopen_calm by assumption. cbn [negb when ret].
  rewrite fprintf_calm by assumption. cbn [modify].
  rewrite writable_ltb by assumption. cbn [when ret].
  rewrite fclose_calm by assumption.
  eexists. split; [reflexivity | aftered].
Qed.

Lemma setAsOutput_refused (pin e : Z) w :
  refuses E (gpio_direction pin) e ->
  opens E GPIO_UNEXPORT -> writable E GPIO_UNEXPORT ->
  exists w',
    setAsOutput E poll pin w = Exited e w'
    /\ after w (Stderr (UnableOpenDirection pin e) :: release_events w) w'.
Proof.
  intros Hr Ho Hw. unfold setAsOutput.
  rewrite (bind_ret_eq _ _ _ _ _ (fopen_refused _ e w Hr)). cbn [negb when].
  destruct (report_then_cleanup (UnableOpenDirection pin)
              (set_errno e (advance w)) Ho Hw) as (w' & Hc & Ha).
  rewrite (bind_exit_eq _ _ _ _ _ Hc).
  exists w'. split; [reflexivity | exact (after_errno _ _ _ _ Ha)].
Qed.

Lemma setValue_refused (pin value e : Z) w :
  value = 0 \/ value = 1 ->
  refuses E (gpio_value pin) e ->
  opens E GPIO_UNEXPORT -> writable E GPIO_UNEXPORT ->
  exists w',
    setValue E poll pin value w = Exited e w'
    /\ after w (Stderr (UnableOpenValue pin e) :: release_events w) w'.
Proof.
  intros Hv Hr Ho Hw. unfold setValue.
  replace (negb (value =? 0) && negb (value =? 1)) with false
    by (destruct Hv; subst value; reflexivity).
  cbn [when]. rewrite (bind_ret_eq _ _ _ tt w eq_refl).
  rewrite (bind_ret_eq _ _ _ _ _ (fopen_refused _ e w Hr)). cbn [negb when].
  destruct (report_then_cleanup (UnableOpenValue pin)
              (set_errno e (advance w)) Ho Hw) as (w' & Hc & Ha).
  rewrite (bind_exit_eq _ _ _ _ _ Hc).
  exists w'. split; [reflexivity | exact (after_errno _ _ _ _ Ha)].
Qed.

Lemma unexportGPIO_refused (pin e : Z) w :
  refuses E GPIO_UNEXPORT e ->
  exists w',
    unexportGPIO E poll pin w = Exited e w'
    /\ after w [Stderr (UnableOpenUnexport e)] w'.
Proof.
  intros Hr. unfold unexportGPIO.
  rewrite (bind_ret_eq _ _ _ _ _ (fopen_refused _ e w Hr)). cbn [negb when].
  destruct (report_then_exit UnableOpenUnexport (set_errno e (advance w)))
    as (w' & Hc & Ha).
  rewrite (bind_exit_eq _ _ _ _ _ Hc).
  exists w'. split; [reflexivity | exact (after_errno _ _ _ _ Ha)].
Qed.

End Failures.

(** ** From the arguments to the GPIO initialisation *)

Lemma positional_any (E : env) (poll : M unit) args w :
  (forall w0, poll w0 = Ret tt (advance w0)) ->
  (List.length args <= 2)%nat ->
  (String.length (path_of args) < SUN_PATH_SIZE)%nat ->
  positional E poll args w
  = Ret tt (set_sun_path (path_of args)
              (advance (set_gpio_pin (pin_of E args) (advance w)))).
Proof.
  intros Hc Hn Hf. apply Nat.ltb_lt in Hf.
  destruct args as [| a1 [| a2 [| a3 args]]]; cbn [positional path_of pin_of] in *;
    try (cbn in Hn; lia);
    unfold bind; rewrite stmt_calm by assumption; unfold modify;
    unfold strcpy_sun_path; rewrite stmt_calm by assumption;
    rewrite Hf; reflexivity.
Qed.

Lemma reach_lirc_init (E : env) opts args reads stack :
  prepares E opts args ->
  lirc_indicator E opts args reads stack
  = (lirc_init E (boundary E) ;; gpio_init E (boundary E) ;;
     event_loop E (boundary E) reads)
      (prepared_world (daemon_flag opts) (pin_of E args) (path_of args) stack).
Proof.
  intros (Hq & Hp & Hn & Hf & Hv & Hd).
  pose proof (fun w0 => boundary_calm E w0 Hq) as Hc.
  unfold lirc_indicator, main.
  rewrite (bind_ret_eq _ _ _ _ _ (getopt_loop_passes _ opts false _ Hp)).
  rewrite (bind_ret_eq _ _ _ _ _ (positional_any E _ args _ Hc Hn Hf)).
  unfold check_pin, bind at 1 2, gets.
  cbn [gpio_pin set_sun_path advance set_gpio_pin orb]. rewrite Hv.
  unfold ret at 1.
  unfold bind at 1, daemonize.
  destruct (daemon_flag opts) eqn:Hdf.
  - unfold bind at 1. rewrite stmt_calm by assumption.
    rewrite (Hd eq_refl). cbn [Z.ltb Z.compare ret].
    unfold bind at 1, catch_sigint. rewrite stmt_calm by assumption.
    reflexivity.
  - unfold ret at 1.
    unfold bind at 1, catch_sigint. rewrite stmt_calm by assumption.
    reflexivity.
Qed.

Lemma reach_gpio_init (E : env) opts args reads stack :
  starts E opts args ->
  lirc_indicator E opts args reads stack
  = (gpio_init E (boundary E) ;; event_loop E (boundary E) reads)
      (connected_world (daemon_flag opts) (pin_of E args) (path_of args) stack).
Proof.
  intros (Hpr & Hso & Hco). pose proof Hpr as (Hq & _).
  pose proof (fun w0 => boundary_calm E w0 Hq) as Hc.
  rewrite (reach_lirc_init E opts args reads stack Hpr).
  unfold bind at 1, lirc_init, bind at 1.
  rewrite stmt_calm by assumption. rewrite Hso. cbn [negb when].
  unfold bind at 1, ret at 1. unfold bind at 1, gets.
  unfold bind at 1. rewrite stmt_calm by assumption.
  cbn [sun_path log advance prepared_world].
  rewrite Hco. cbn [negb when ret].
  destruct (daemon_flag opts); reflexivity.
Qed.

Lemma cleanup_unmarked (E : env) (poll : M unit) (retval : Z) w :
  (forall w0, poll w0 = Ret tt (advance w0)) ->
  exported w = false ->
  @cleanup E poll unit retval w = Exited retval (advance w).
Proof.
  intros Hc Hx. unfold cleanup, bind, gets. unfold exported in Hx.
  rewrite Hx. cbn [when ret]. apply exit_calm, Hc.
Qed.

Lemma gpio_init_calm (E : env) (poll : M unit) w :
  (forall w0, poll w0 = Ret tt (advance w0)) ->
  opens E GPIO_EXPORT -> writable E GPIO_EXPORT ->
  opens E (gpio_direction (gpio_pin w)) ->
  writable E (gpio_direction (gpio_pin w)) ->
  exists w1 w',
    gpio_init E poll w = Ret tt w'
    /\ after w [Write GPIO_EXPORT (fmt_d (gpio_pin w) ++ NL)%string] w1
    /\ after (set_isExported 1 w1)
         [Write (gpio_direction (gpio_pin w)) ("out" ++ NL)%string] w'.
Proof.
  intros Hc Hoe Hwe Hod Hwd. unfold gpio_init, bind at 1, gets.
  destruct (exportGPIO_calm E poll Hc (gpio_pin w) w Hoe Hwe) as (w1 & He & Ha1).
  rewrite (bind_ret_eq _ _ _ _ _ He).
  unfold bind at 1. rewrite stmt_calm by assumption. unfold modify.
  unfold bind at 1, gets. cbn [gpio_pin set_isExported advance].
  assert (Hp : gpio_pin w1 = gpio_pin w) by apply Ha1.
  rewrite Hp.
  destruct (setAsOutput_calm E poll Hc (gpio_pin w)
              (set_isExported 1 (advance w1)) Hod Hwd) as (w' & Hs & Ha2).
  exists w1, w'. split; [exact Hs | split; [exact Ha1 |]].
  unfold after in Ha2 |- *. cbn in Ha2 |- *. exact Ha2.
Qed.

(** X1: with options that let the program run, at most two arguments and a
    pin of the allow-list, a socket that connects and GPIO files that take
    the writes, [main] installs the handler, connects to the socket the
    arguments select (the second argument, else the default), exports the
    pin the arguments select (the first argument, else pin 4), marks it,
    makes it an output, and enters the loop; nothing else is logged. *)
Theorem startup_sequence (E : env) opts args stack :
  starts E opts args ->
  opens E GPIO_EXPORT -> writable E GPIO_EXPORT ->
  opens E (gpio_direction (pin_of E args)) ->
  writable E (gpio_direction (pin_of E args)) ->
  exists w,
    (forall reads,
        lirc_indicator E opts args reads stack
        = event_loop E (boundary E) reads w)
    /\ lirc_indicator E opts args [] stack = Blocked w
    /\ gpio_pin w = pin_of E args
    /\ sun_path w = path_of args
    /\ isExported w = 1
    /\ trace w
       = startup_events (daemon_flag opts) (path_of args)
         ++ [Write GPIO_EXPORT (fmt_d (pin_of E args) ++ NL)%string;
             Write (gpio_direction (pin_of E args)) ("out" ++ NL)%string].
Proof.
  intros Hst Hoe Hwe Hod Hwd.
  pose proof Hst as ((Hq & _) & _).
  pose proof (fun w0 => boundary_calm E w0 Hq) as Hc.
  destruct (gpio_init_calm E (boundary E)
              (connected_world (daemon_flag opts) (pin_of E args)
                 (path_of args) stack) Hc Hoe Hwe Hod Hwd)
    as (w1 & w & Hg & Ha1 & Ha2).
  assert (Hall : forall reads,
             lirc_indicator E opts args reads stack
             = event_loop E (boundary E) reads w).
  { intros reads. rewrite (reach_gpio_init E opts args reads stack Hst).
    rewrite (bind_ret_eq _ _ _ _ _ Hg). reflexivity. }
  exists w. split; [exact Hall | split; [exact (Hall []) |]].
  destruct Ha1 as (T1 & P1 & _ & S1 & _).
  destruct Ha2 as (T2 & P2 & X2 & S2 & _).
  cbn in T2, P2, X2, S2, T1, P1, S1.
  split; [congruence | split; [congruence | split; [exact X2 |]]].
  rewrite T2, T1, <- app_assoc. reflexivity.
Qed.

Lemma starts_calm_22 :
  starts calm ["d"%char] ["22"%string; "/tmp/test.sock"%string].
Proof.
  unfold starts, prepares.
  split; [| split; reflexivity].
  split; [reflexivity | split; [reflexivity |]].
  split; [apply Nat.leb_le; reflexivity |].
  split; [apply Nat.ltb_lt; reflexivity |].
  split; reflexivity.
Qed.

Lemma startup_sequence_witness :
  starts calm ["d"%char] ["22"%string; "/tmp/test.sock"%string]
  /\ exists w,
       (forall reads,
           lirc_indicator calm ["d"%char]
             ["22"%string; "/tmp/test.sock"%string] reads zeros
           = event_loop calm (boundary calm) reads w)
       /\ lirc_indicator calm ["d"%char]
            ["22"%string; "/tmp/test.sock"%string] [] zeros = Blocked w
       /\ gpio_pin w = 22
       /\ sun_path w = "/tmp/test.sock"%string
       /\ isExported w = 1
       /\ trace w
          = [Fork 0; Sigaction; Socket; Connect "/tmp/test.sock"]
            ++ [Write GPIO_EXPORT ("22" ++ NL)%string;
                Write (gpio_direction 22) ("out" ++ NL)%string].
Proof.
  split; [exact starts_calm_22 |].
  exact (startup_sequence calm ["d"%char]
           ["22"%string; "/tmp/test.sock"%string] zeros starts_calm_22
           (calm_opens _) (calm_writable _) (calm_opens _) (calm_writable _)).
Defined.

(** ** Failures of the GPIO initialisation *)

Lemma report_then_cleanup_eq (E : env) (poll : M unit) (R : Z -> report) w :
  (forall w0, poll w0 = Ret tt (advance w0)) ->
  (e <- gets errno ;; eprint poll (R e) ;;
   e <- gets errno ;; @cleanup E poll unit e) w
  = @cleanup E poll unit (errno w) (log (Stderr (R (errno w))) (advance w)).
Proof.
  intros Hc. unfold bind at 1 2 3, gets.
  rewrite eprint_calm by assumption. reflexivity.
Qed.

Lemma gets_bind {A B : Type} (f : world -> A) (k : A -> M B) w :
  bind (gets f) k w = k (f w) w.
Proof. reflexivity. Qed.

Lemma cleanup_no_ret (E : env) (poll : M unit) {A : Type} (retval : Z) w a w' :
  @cleanup E poll A retval w <> Ret a w'.
Proof.
  intros H. unfold cleanup, bind, gets, exit_, stmt, bind in H.
  repeat match type of H with
         | context [match ?x with _ => _ end] => destruct x
         end; discriminate.
Qed.

Lemma exportGPIO_refused_eq (E : env) (poll : M unit) (pin e : Z) w :
  (forall w0, poll w0 = Ret tt (advance w0)) ->
  refuses E GPIO_EXPORT e ->
  exportGPIO E poll pin w
  = @cleanup E poll unit e
      (log (Stderr (UnableOpenExport e)) (advance (set_errno e (advance w)))).
Proof.
  intros Hc Hr. unfold exportGPIO.
  rewrite (bind_ret_eq _ _ _ _ _ (fopen_refused E _ Hc _ e _ Hr)).
  cbn [negb when]. unfold bind at 1.
  rewrite report_then_cleanup_eq by assumption. cbn [errno set_errno].
  match goal with
  | |- match ?m with _ => _ end = _ =>
      destruct m as [a w' | | | |] eqn:Hm; try reflexivity
  end.
  contradiction (cleanup_no_ret _ _ _ _ _ _ Hm).
Qed.

Lemma exportGPIO_write_fails_eq (E : env) (poll : M unit) (pin r : Z) w :
  (forall w0, poll w0 = Ret tt (advance w0)) ->
  opens E GPIO_EXPORT -> fprintf_returns E GPIO_EXPORT r -> r < 0 ->
  exportGPIO E poll pin w
  = @cleanup E poll unit r
      (log (Stderr (UnableWriteExport r))
         (advance (set_errno r (advance (advance w))))).
Proof.
  intros Hc Ho Hr Hneg. unfold exportGPIO.
  rewrite (bind_ret_eq _ _ _ _ _ (fopen_calm E _ Hc _ _ Ho)).
  cbn [negb when]. rewrite (bind_ret_eq _ _ _ tt _ eq_refl).
  rewrite (bind_ret_eq _ _ _ _ _ (fprintf_fails E _ Hc _ _ r _ Hr Hneg)).
  unfold bind at 1. cbn [modify].
  replace (r <? 0) with true by (symmetry; apply Z.ltb_lt, Hneg).
  cbn [when]. unfold bind at 1.
  rewrite report_then_cleanup_eq by assumption. cbn [errno set_errno].
  match goal with
  | |- match ?m with _ => _ end = _ =>
      destruct m as [a w' | | | |] eqn:Hm; try reflexivity
  end.
  contradiction (cleanup_no_ret _ _ _ _ _ _ Hm).
Qed.

Lemma trace_startup daemon pin path stack :
  trace (connected_world daemon pin path stack) = startup_events daemon path.
Proof. reflexivity. Qed.

(** X2: when the export file cannot be opened, the process reports it and
    exits with the [errno] of [fopen]; it has written to no GPIO file, and
    it releases nothing, the pin not being marked. *)
Theorem export_refused (E : env) opts args reads stack (e : Z) :
  starts E opts args ->
  refuses E GPIO_EXPORT e ->
  exists w,
    lirc_indicator E opts args reads stack = Exited e w
    /\ trace w = startup_events (daemon_flag opts) (path_of args)
                 ++ [Stderr (UnableOpenExport e)]
    /\ isExported w = 0.
Proof.
  intros Hst Hr. pose proof Hst as ((Hq & _) & _).
  pose proof (fun w0 => boundary_calm E w0 Hq) as Hc.
  rewrite (reach_gpio_init E opts args reads stack Hst).
  unfold gpio_init. unfold bind at 1. rewrite gets_bind. unfold bind at 1.
  rewrite (exportGPIO_refused_eq E _ _ e _ Hc Hr).
  rewrite cleanup_unmarked by (assumption || reflexivity).
  eexists. split; [reflexivity | split; reflexivity].
Qed.

Lemma starts_calm_18 (E : env) :
  strtold_num E = dec_value -> fork_pid E = 0 ->
  socket_err E = None -> connect_err E = (fun _ => None) ->
  sigint_at E = None ->
  starts E [] ["18"%string].
Proof.
  intros Hn Hf Hs Hc Hq. unfold starts, prepares, no_sigint.
  split; [| split; [exact Hs | rewrite Hc; reflexivity]].
  split; [exact Hq | split; [reflexivity |]].
  split; [apply Nat.leb_le; reflexivity |].
  split; [apply Nat.ltb_lt; reflexivity |].
  split; [cbn; unfold strtold; rewrite Hn; reflexivity | discriminate].
Qed.

Lemma export_refused_witness :
  starts (denying GPIO_EXPORT) [] ["18"%string]
  /\ refuses (denying GPIO_EXPORT) GPIO_EXPORT 13
  /\ exists w,
       lirc_indicator (denying GPIO_EXPORT) [] ["18"%string]
         [ReadBytes press_msg] zeros = Exited 13 w
       /\ trace w = startup_events (daemon_flag []) (path_of ["18"%string])
                    ++ [Stderr (UnableOpenExport 13)]
       /\ isExported w = 0.
Proof.
  assert (Hs : starts (denying GPIO_EXPORT) [] ["18"%string])
    by (apply starts_calm_18; reflexivity).
  assert (Hr : refuses (denying GPIO_EXPORT) GPIO_EXPORT 13)
    by (intros t; reflexivity).
  split; [exact Hs | split; [exact Hr |]].
  exact (export_refused (denying GPIO_EXPORT) [] ["18"%string]
           [ReadBytes press_msg] zeros 13 Hs Hr).
Defined.

(** X3: when the write to the export file fails, the status the process
    exits with is not an error number of the system: it is the negative
    value [fprintf] returned, which the code assigns to [errno].  Nothing
    has reached a GPIO file and nothing is released. *)
Theorem export_write_fails (E : env) opts args reads stack (r : Z) :
  starts E opts args ->
  opens E GPIO_EXPORT ->
  fprintf_returns E GPIO_EXPORT r -> r < 0 ->
  exists w,
    lirc_indicator E opts args reads stack = Exited r w
    /\ trace w = startup_events (daemon_flag opts) (path_of args)
                 ++ [Stderr (UnableWriteExport r)]
    /\ isExported w = 0.
Proof.
  intros Hst Ho Hr Hneg. pose proof Hst as ((Hq & _) & _).
  pose proof (fun w0 => boundary_calm E w0 Hq) as Hc.
  rewrite (reach_gpio_init E opts args reads stack Hst).
  unfold gpio_init. unfold bind at 1. rewrite gets_bind. unfold bind at 1.
  rewrite (exportGPIO_write_fails_eq E _ _ r _ Hc Ho Hr Hneg).
  rewrite cleanup_unmarked by (assumption || reflexivity).
  eexists. split; [reflexivity | split; reflexivity].
Qed.

Lemma export_write_fails_witness :
  starts (failing_writes GPIO_EXPORT) [] ["18"%string]
  /\ opens (failing_writes GPIO_EXPORT) GPIO_EXPORT
  /\ fprintf_returns (failing_writes GPIO_EXPORT) GPIO_EXPORT (-1)
  /\ -1 < 0
  /\ exists w,
       lirc_indicator (failing_writes GPIO_EXPORT) [] ["18"%string]
         [ReadBytes press_msg] zeros = Exited (-1) w
       /\ trace w = startup_events (daemon_flag []) (path_of ["18"%string])
                    ++ [Stderr (UnableWriteExport (-1))]
       /\ isExported w = 0.
Proof.
  assert (Hs : starts (failing_writes GPIO_EXPORT) [] ["18"%string])
    by (apply starts_calm_18; reflexivity).
  assert (Ho : opens (failing_writes GPIO_EXPORT) GPIO_EXPORT)
    by (intros t; reflexivity).
  assert (Hr : fprintf_returns (failing_writes GPIO_EXPORT) GPIO_EXPORT (-1))
    by (intros t; reflexivity).
  assert (Hn : -1 < 0) by lia.
  split; [exact Hs | split; [exact Ho | split; [exact Hr | split; [exact Hn |]]]].
  exact (export_write_fails (failing_writes GPIO_EXPORT) [] ["18"%string]
           [ReadBytes press_msg] zeros (-1) Hs Ho Hr Hn).
Defined.

Lemma pin_of_nonneg (E : env) opts args :
  starts E opts args -> 0 <= pin_of E args.
Proof. intros ((_ & _ & _ & _ & Hv & _) & _). apply valid_pin_nonneg, Hv. Qed.

(** X4: when the pin has been exported and its direction file cannot be
    opened, the process reports it, writes the pin to the unexport file and
    exits with the [errno] of [fopen]: the half-configured pin is released. *)
Theorem direction_refused_releases (E : env) opts args reads stack (e : Z) :
  starts E opts args ->
  opens E GPIO_EXPORT -> writable E GPIO_EXPORT ->
  refuses E (gpio_direction (pin_of E args)) e ->
  opens E GPIO_UNEXPORT -> writable E GPIO_UNEXPORT ->
  exists w,
    lirc_indicator E opts args reads stack = Exited e w
    /\ trace w
       = startup_events (daemon_flag opts) (path_of args)
         ++ [Write GPIO_EXPORT (fmt_d (pin_of E args) ++ NL)%string;
             Stderr (UnableOpenDirection (pin_of E args) e);
             Write GPIO_UNEXPORT (fmt_d (pin_of E args) ++ NL)%string]
    /\ isExported w = 1.
Proof.
  intros Hst Hoe Hwe Hr Hou Hwu. pose proof Hst as ((Hq & _) & _).
  pose proof (fun w0 => boundary_calm E w0 Hq) as Hc.
  pose proof (pin_of_nonneg E opts args Hst) as Hpin.
  rewrite (reach_gpio_init E opts args reads stack Hst).
  set (w0 := connected_world (daemon_flag opts) (pin_of E args) (path_of args) stack).
  unfold gpio_init. unfold bind at 1. rewrite gets_bind.
  change (gpio_pin w0) with (pin_of E args).
  destruct (exportGPIO_calm E (boundary E) Hc (pin_of E args) w0 Hoe Hwe)
    as (w1 & He & Ha1).
  rewrite (bind_ret_eq _ _ _ _ _ He).
  unfold bind at 1. rewrite stmt_calm by assumption. unfold modify.
  rewrite gets_bind. cbn [gpio_pin set_isExported advance].
  assert (Hp : gpio_pin w1 = pin_of E args) by apply Ha1.
  rewrite Hp.
  destruct (setAsOutput_refused E (boundary E) Hc (pin_of E args) e
              (set_isExported 1 (advance w1)) Hr Hou Hwu) as (w & Hs & Ha2).
  rewrite Hs. exists w. split; [reflexivity |].
  unfold release_events, exported in Ha2.
  cbn [isExported gpio_pin set_isExported advance] in Ha2. rewrite Hp in Ha2.
  replace (0 <=? pin_of E args) with true in Ha2
    by (symmetry; apply Z.leb_le, Hpin).
  cbn [Z.eqb negb andb] in Ha2.
  destruct Ha1 as (T1 & _). destruct Ha2 as (T2 & _ & X2 & _).
  cbn in T2, X2. split; [| exact X2].
  rewrite T2, T1. unfold w0. rewrite trace_startup, <- app_assoc. reflexivity.
Qed.

Lemma direction_refused_releases_witness :
  starts (denying (gpio_direction 18)) [] ["18"%string]
  /\ refuses (denying (gpio_direction 18))
       (gpio_direction (pin_of (denying (gpio_direction 18)) ["18"%string])) 13
  /\ exists w,
       lirc_indicator (denying (gpio_direction 18)) [] ["18"%string]
         [ReadBytes press_msg] zeros = Exited 13 w
       /\ trace w
          = startup_events (daemon_flag []) (path_of ["18"%string])
            ++ [Write GPIO_EXPORT ("18" ++ NL)%string;
                Stderr (UnableOpenDirection 18 13);
                Write GPIO_UNEXPORT ("18" ++ NL)%string]
       /\ isExported w = 1.
Proof.
  assert (Hs : starts (denying (gpio_direction 18)) [] ["18"%string])
    by (apply starts_calm_18; reflexivity).
  assert (Hr : refuses (denying (gpio_direction 18))
                 (gpio_direction (pin_of (denying (gpio_direction 18))
                                    ["18"%string])) 13)
    by (intros t; reflexivity).
  split; [exact Hs | split; [exact Hr |]].
  refine (direction_refused_releases (denying (gpio_direction 18)) []
            ["18"%string] [ReadBytes press_msg] zeros 13 Hs _ _ Hr _ _);
    intros t; cbn; solve [reflexivity | lia].
Defined.

(** ** Options and arguments that end the program *)

Lemma getopt_loop_prefix (poll : M unit) pre rest isDaemon w :
  passes pre = true ->
  getopt_loop poll (pre ++ rest) isDaemon w
  = getopt_loop poll rest (isDaemon || daemon_flag pre) w.
Proof.
  revert isDaemon. induction pre as [| c pre IH]; intros isDaemon Hp.
  - cbn. rewrite orb_false_r. reflexivity.
  - cbn [passes forallb] in Hp. cbn [app getopt_loop daemon_flag existsb].
    apply andb_prop in Hp. destruct Hp as [Hc Hp].
    apply negb_true_iff in Hc.
    apply orb_false_elim in Hc. destruct Hc as [Hc Hq].
    apply orb_false_elim in Hc. destruct Hc as [Hh Hv].
    rewrite Hh, Hv, Hq.
    destruct (Ascii.eqb c "d") eqn:Hd; rewrite (IH _ Hp).
    + rewrite orb_true_r. reflexivity.
    + reflexivity.
Qed.

(** X5: the first of the options [h], [v] and [?] decides the run, whatever
    follows it and whatever the arguments are: [h] and [v] print their text
    and end the program with [EXIT_SUCCESS], [?] (an option [getopt_long]
    does not know) is reported and ends it with [EXIT_FAILURE].  The
    arguments are not looked at: [gpio_pin] is still -1. *)
Theorem first_decisive_option (E : env) pre post args reads stack :
  no_sigint E ->
  passes pre = true ->
  (exists w,
     lirc_indicator E (pre ++ "h"%char :: post) args reads stack
     = Exited EXIT_SUCCESS w
     /\ trace w = [Stdout Help] /\ gpio_pin w = -1)
  /\ (exists w,
        lirc_indicator E (pre ++ "v"%char :: post) args reads stack
        = Exited EXIT_SUCCESS w
        /\ trace w = [Stdout Version] /\ gpio_pin w = -1)
  /\ (exists w,
        lirc_indicator E (pre ++ "?"%char :: post) args reads stack
        = Exited EXIT_FAILURE w
        /\ trace w = [Stderr UnrecognizedOption] /\ gpio_pin w = -1).
Proof.
  intros Hq Hp. pose proof (fun w0 => boundary_calm E w0 Hq) as Hc.
  unfold lirc_indicator, main.
  split; [| split]; unfold bind at 1; rewrite getopt_loop_prefix by assumption;
    cbn [getopt_loop Ascii.eqb Bool.eqb]; unfold bind at 1, print, eprint;
    rewrite stmt_calm by assumption; unfold modify;
    rewrite exit_calm by assumption;
    eexists; (split; [reflexivity | split; reflexivity]).
Qed.

Lemma first_decisive_option_witness :
  no_sigint calm /\ passes ["d"%char] = true
  /\ exists w,
       lirc_indicator calm (["d"%char] ++ "h"%char :: ["?"%char])
         ["99"%string; "x"%string; "y"%string] [ReadBytes press_msg] zeros
       = Exited EXIT_SUCCESS w
       /\ trace w = [Stdout Help] /\ gpio_pin w = -1.
Proof.
  split; [exact calm_quiet | split; [reflexivity |]].
  exact (proj1 (first_decisive_option calm ["d"%char] ["?"%char]
                  ["99"%string; "x"%string; "y"%string]
                  [ReadBytes press_msg] zeros calm_quiet eq_refl)).
Defined.

(** X6: with more than two positional arguments the program complains and
    ends with [EXIT_FAILURE] before it reads any of them: even a first
    argument that names a good pin is not stored. *)
Theorem too_many_arguments (E : env) opts args reads stack :
  no_sigint E ->
  passes opts = true ->
  (3 <= List.length args)%nat ->
  exists w,
    lirc_indicator E opts args reads stack = Exited EXIT_FAILURE w
    /\ trace w = [Stderr IncorrectArguments]
    /\ gpio_pin w = -1.
Proof.
  intros Hq Hp Hn. pose proof (fun w0 => boundary_calm E w0 Hq) as Hc.
  unfold lirc_indicator, main.
  rewrite (bind_ret_eq _ _ _ _ _ (getopt_loop_passes _ opts false _ Hp)).
  destruct args as [| a1 [| a2 [| a3 args]]]; try (cbn in Hn; lia).
  cbn [positional]. unfold bind at 1 2.
  rewrite eprint_calm by assumption. rewrite exit_calm by assumption.
  eexists. split; [reflexivity | split; reflexivity].
Qed.

Lemma too_many_arguments_witness :
  no_sigint calm /\ passes [] = true
  /\ (3 <= List.length ["18"%string; "/tmp/s"%string; "x"%string])%nat
  /\ exists w,
       lirc_indicator calm [] ["18"%string; "/tmp/s"%string; "x"%string]
         [] zeros = Exited EXIT_FAILURE w
       /\ trace w = [Stderr IncorrectArguments]
       /\ gpio_pin w = -1.
Proof.
  assert (Hn : (3 <= List.length ["18"%string; "/tmp/s"%string; "x"%string])%nat)
    by (apply Nat.leb_le; reflexivity).
  split; [exact calm_quiet | split; [reflexivity | split; [exact Hn |]]].
  exact (too_many_arguments calm [] ["18"%string; "/tmp/s"%string; "x"%string]
           [] zeros calm_quiet eq_refl Hn).
Defined.

(** X7: asked to run as a daemon, the process forks once the pin has passed
    the allow-list and before it installs the handler or touches the socket
    or the pin.  The parent ends with [EXIT_SUCCESS], a failed [fork] ends
    the program with [EXIT_FAILURE]; in both cases the fork is all that
    happened. *)
Theorem daemon_parent_leaves (E : env) opts args reads stack :
  no_sigint E ->
  passes opts = true ->
  daemon_flag opts = true ->
  (List.length args <= 2)%nat ->
  (String.length (path_of args) < SUN_PATH_SIZE)%nat ->
  valid_pin (pin_of E args) = true ->
  fork_pid E <> 0 ->
  exists w,
    lirc_indicator E opts args reads stack
    = Exited (if fork_pid E <? 0 then EXIT_FAILURE else EXIT_SUCCESS) w
    /\ trace w = [Fork (fork_pid E)]
    /\ handler w = false /\ connected w = false /\ isExported w = 0.
Proof.
  intros Hq Hp Hd Hn Hf Hv Hpid.
  pose proof (fun w0 => boundary_calm E w0 Hq) as Hc.
  unfold lirc_indicator, main.
  rewrite (bind_ret_eq _ _ _ _ _ (getopt_loop_passes _ opts false _ Hp)).
  rewrite (bind_ret_eq _ _ _ _ _ (positional_any E _ args _ Hc Hn Hf)).
  unfold check_pin, bind at 1 2, gets.
  cbn [gpio_pin set_sun_path advance set_gpio_pin orb]. rewrite Hv.
  unfold ret at 1. rewrite Hd.
  unfold bind at 1, daemonize, bind at 1.
  rewrite stmt_calm by assumption.
  destruct (fork_pid E <? 0) eqn:Hneg.
  - rewrite exit_calm by assumption.
    eexists. split; [reflexivity |]. repeat split; reflexivity.
  - replace (0 <? fork_pid E) with true
      by (symmetry; apply Z.ltb_lt; apply Z.ltb_ge in Hneg; lia).
    rewrite exit_calm by assumption.
    eexists. split; [reflexivity |]. repeat split; reflexivity.
Qed.

Lemma daemon_parent_leaves_witness :
  no_sigint (forking 4711) /\ passes ["d"%char] = true
  /\ daemon_flag ["d"%char] = true
  /\ (List.length ["18"%string] <= 2)%nat
  /\ (String.length (path_of ["18"%string]) < SUN_PATH_SIZE)%nat
  /\ valid_pin (pin_of (forking 4711) ["18"%string]) = true
  /\ fork_pid (forking 4711) <> 0
  /\ exists w,
       lirc_indicator (forking 4711) ["d"%char] ["18"%string]
         [ReadBytes press_msg] zeros
       = Exited (if fork_pid (forking 4711) <? 0 then EXIT_FAILURE
                 else EXIT_SUCCESS) w
       /\ trace w = [Fork (fork_pid (forking 4711))]
       /\ handler w = false /\ connected w = false /\ isExported w = 0.
Proof.
  assert (Hpid : fork_pid (forking 4711) <> 0) by discriminate.
  assert (Hn : (List.length ["18"%string] <= 2)%nat)
    by (apply Nat.leb_le; reflexivity).
  assert (Hf : (String.length (path_of ["18"%string]) < SUN_PATH_SIZE)%nat)
    by (apply Nat.ltb_lt; reflexivity).
  split; [reflexivity | split; [reflexivity | split; [reflexivity |]]].
  split; [exact Hn | split; [exact Hf |]].
  split; [reflexivity | split; [exact Hpid |]].
  exact (daemon_parent_leaves (forking 4711) ["d"%char] ["18"%string]
           [ReadBytes press_msg] zeros eq_refl eq_refl eq_refl Hn Hf
           eq_refl Hpid).
Defined.

(** ** Failures in the loop *)

(** A process that waits in [read] goes on with what the next [read]s
    find; the pin is marked and the socket connected. *)
Lemma resume (E : env) opts args before rest stack w :
  lirc_indicator E opts args before stack = Blocked w ->
  lirc_indicator E opts args (before ++ rest) stack
  = event_loop E (boundary E) rest w
  /\ sound w /\ isExported w <> 0.
Proof.
  intros Hb.
  destruct (blocked_exported _ _ _ _ _ _ Hb) as [Hs Hx].
  split; [| split; assumption].
  pose proof (quiet_boundary E) as Hp.
  unfold lirc_indicator in Hb |- *.
  rewrite main_startup in Hb |- *. unfold bind in Hb |- *.
  pose proof (wp_startup E (boundary E) Hp opts args (boot stack)
                (sound_boot stack) eq_refl) as Hst.
  unfold wp in Hst.
  destruct (startup E (boundary E) opts args (boot stack))
    as [[] w1 | | | |]; try discriminate.
  - destruct Hst as (Hs1 & Hc1 & Hx1).
    exact (event_loop_app E (boundary E) before rest Hp w1 w Hs1 Hc1 Hb).
  - destruct Hst as [_ Hst]. contradiction Hst. reflexivity.
Qed.

Lemma read_error_calm (poll : M unit) (e : Z) w :
  (forall w0, poll w0 = Ret tt (advance w0)) ->
  read poll (ReadError e) w
  = Ret (-1) (log (Read (-1)) (set_errno e (advance w))).
Proof. intros Hc. unfold read. rewrite stmt_calm by assumption. reflexivity. Qed.

(** X8: whenever the process waits in [read] and that [read] fails, the
    process reports it, writes the pin to the unexport file and exits with
    the [errno] of [read]; the release is the last thing it does. *)
Theorem read_error_releases (E : env) opts args before rest stack w (e : Z) :
  no_sigint E ->
  opens E GPIO_UNEXPORT ->
  writable E GPIO_UNEXPORT ->
  lirc_indicator E opts args before stack = Blocked w ->
  exists w',
    lirc_indicator E opts args (before ++ ReadError e :: rest) stack
    = Exited e w'
    /\ after w [Read (-1); Stderr (PerrorRead e);
                Write GPIO_UNEXPORT (fmt_d (gpio_pin w) ++ NL)%string] w'.
Proof.
  intros Hq Ho Hw Hb.
  pose proof (fun w0 => boundary_calm E w0 Hq) as Hc.
  destruct (resume E opts args before (ReadError e :: rest) stack w Hb)
    as (-> & Hs & Hx).
  cbn [event_loop]. unfold bind at 1, iteration.
  rewrite (bind_ret_eq _ _ _ _ _ (read_error_calm _ e w Hc)).
  cbn [Z.eqb Pos.eqb when].
  destruct (report_then_cleanup E (boundary E) Hc PerrorRead
              (log (Read (-1)) (set_errno e (advance w))) Ho Hw)
    as (w' & Hr & Ha).
  rewrite (bind_exit_eq _ _ _ _ _ Hr). cbn [errno log set_errno].
  exists w'. split; [reflexivity |].
  cbn [errno log set_errno] in Ha.
  unfold release_events, exported in Ha.
  cbn [isExported gpio_pin log set_errno advance] in Ha.
  pose proof (exported_sound w Hs Hx) as Hex. unfold exported in Hex.
  rewrite Hex in Ha.
  change [Read (-1); Stderr (PerrorRead e);
          Write GPIO_UNEXPORT (fmt_d (gpio_pin w) ++ NL)%string]
    with ([Read (-1)] ++ [Stderr (PerrorRead e);
          Write GPIO_UNEXPORT (fmt_d (gpio_pin w) ++ NL)%string]).
  eapply after_trans; [| exact Ha]. aftered.
Qed.

Lemma read_error_releases_witness :
  no_sigint calm /\ opens calm GPIO_UNEXPORT /\ writable calm GPIO_UNEXPORT
  /\ lirc_indicator calm [] ["18"%string] [ReadBytes press_msg] zeros
     = Blocked (final (lirc_indicator calm [] ["18"%string]
                         [ReadBytes press_msg] zeros))
  /\ exists w',
       lirc_indicator calm [] ["18"%string]
         ([ReadBytes press_msg] ++ ReadError 104 :: []) zeros
       = Exited 104 w'
       /\ after (final (lirc_indicator calm [] ["18"%string]
                          [ReadBytes press_msg] zeros))
            [Read (-1); Stderr (PerrorRead 104);
             Write GPIO_UNEXPORT ("18" ++ NL)%string] w'.
Proof.
  assert (Hb : lirc_indicator calm [] ["18"%string] [ReadBytes press_msg] zeros
               = Blocked (final (lirc_indicator calm [] ["18"%string]
                                   [ReadBytes press_msg] zeros)))
    by (vm_compute; reflexivity).
  split; [exact calm_quiet | split; [apply calm_opens | split; [apply calm_writable |]]].
  split; [exact Hb |].
  exact (read_error_releases calm [] ["18"%string] [ReadBytes press_msg] []
           zeros _ 104 calm_quiet (calm_opens _) (calm_writable _) Hb).
Defined.

Lemma cleanup_refused (E : env) (poll : M unit) :
  (forall w0, poll w0 = Ret tt (advance w0)) ->
  forall (retval e : Z) w,
    refuses E GPIO_UNEXPORT e ->
    exported w = true ->
    exists w',
      @cleanup E poll unit retval w = Exited e w'
      /\ after w [Stderr (UnableOpenUnexport e)] w'.
Proof.
  intros Hc retval e w Hr Hex. unfold cleanup.
  rewrite gets_bind, gets_bind. unfold exported in Hex. rewrite Hex.
  cbn [when].
  destruct (unexportGPIO_refused E poll Hc (gpio_pin w) e w Hr)
    as (w' & Hu & Ha).
  rewrite (bind_exit_eq _ _ _ _ _ Hu).
  exists w'. split; [reflexivity | exact Ha].
Qed.

(** X9: the status passed to [cleanup] is lost when the release fails: if
    the process waits in [read], that [read] returns zero bytes and the
    unexport file cannot be opened, the process reports it and exits with
    the [errno] of [fopen], not with 0. *)
Theorem eof_with_failed_release (E : env) opts args before rest stack w (e : Z) :
  no_sigint E ->
  refuses E GPIO_UNEXPORT e ->
  lirc_indicator E opts args before stack = Blocked w ->
  exists w',
    lirc_indicator E opts args (before ++ ReadBytes [] :: rest) stack
    = Exited e w'
    /\ after w [Read 0; Stderr (UnableOpenUnexport e)] w'.
Proof.
  intros Hq Hr Hb.
  pose proof (fun w0 => boundary_calm E w0 Hq) as Hc.
  destruct (resume E opts args before (ReadBytes [] :: rest) stack w Hb)
    as (-> & Hs & Hx).
  cbn [event_loop]. unfold bind at 1, iteration.
  destruct (read_eof (boundary E) Hc w) as (w1 & Hrd & Ha1).
  rewrite (bind_ret_eq _ _ _ _ _ Hrd). cbn [Z.eqb when].
  rewrite (bind_ret_eq _ _ _ tt w1 eq_refl).
  assert (Hex : exported w1 = true).
  { pose proof (exported_sound w Hs Hx) as Hex. unfold exported in Hex |- *.
    destruct Ha1 as (_ & -> & -> & _). exact Hex. }
  destruct (cleanup_refused E (boundary E) Hc 0 e w1 Hr Hex) as (w' & Hu & Ha2).
  rewrite (bind_exit_eq _ _ _ _ _ Hu).
  exists w'. split; [reflexivity |].
  exact (after_trans _ _ _ _ _ Ha1 Ha2).
Qed.

Lemma eof_with_failed_release_witness :
  no_sigint (denying GPIO_UNEXPORT)
  /\ refuses (denying GPIO_UNEXPORT) GPIO_UNEXPORT 13
  /\ lirc_indicator (denying GPIO_UNEXPORT) [] ["18"%string] [] zeros
     = Blocked (final (lirc_indicator (denying GPIO_UNEXPORT) []
                         ["18"%string] [] zeros))
  /\ exists w',
       lirc_indicator (denying GPIO_UNEXPORT) [] ["18"%string]
         ([] ++ ReadBytes [] :: []) zeros = Exited 13 w'
       /\ after (final (lirc_indicator (denying GPIO_UNEXPORT) []
                          ["18"%string] [] zeros))
            [Read 0; Stderr (UnableOpenUnexport 13)] w'.
Proof.
  assert (Hb : lirc_indicator (denying GPIO_UNEXPORT) [] ["18"%string] [] zeros
               = Blocked (final (lirc_indicator (denying GPIO_UNEXPORT) []
                                   ["18"%string] [] zeros)))
    by (vm_compute; reflexivity).
  assert (Hr : refuses (denying GPIO_UNEXPORT) GPIO_UNEXPORT 13)
    by (intros t; reflexivity).
  split; [reflexivity | split; [exact Hr | split; [exact Hb |]]].
  exact (eof_with_failed_release (denying GPIO_UNEXPORT) [] ["18"%string] [] []
           zeros _ 13 eq_refl Hr Hb).
Defined.

(** X10: a pulse whose value file cannot be opened does not happen: [flash]
    reports the failure of its first write, does not sleep and does not try
    the second write; the pin is released if it is marked, and the process
    exits with the [errno] of [fopen]. *)
Theorem pulse_refused (E : env) (pin e : Z) (w : world) :
  no_sigint E ->
  refuses E (gpio_value pin) e ->
  opens E GPIO_UNEXPORT -> writable E GPIO_UNEXPORT ->
  exists w',
    flash E (boundary E) pin w = Exited e w'
    /\ after w (Stderr (UnableOpenValue pin e) :: release_events w) w'.
Proof.
  intros Hq Hr Ho Hw. pose proof (fun w0 => boundary_calm E w0 Hq) as Hc.
  destruct (setValue_refused E (boundary E) Hc pin 1 e w (or_intror eq_refl)
              Hr Ho Hw) as (w' & Hs & Ha).
  exists w'. split; [| exact Ha].
  unfold flash. exact (bind_exit_eq _ _ _ _ _ Hs).
Qed.

Lemma pulse_refused_witness :
  no_sigint (denying (gpio_value 18))
  /\ refuses (denying (gpio_value 18)) (gpio_value 18) 13
  /\ opens (denying (gpio_value 18)) GPIO_UNEXPORT
  /\ writable (denying (gpio_value 18)) GPIO_UNEXPORT
  /\ exists w',
       flash (denying (gpio_value 18)) (boundary (denying (gpio_value 18)))
         18 waiting18 = Exited 13 w'
       /\ after waiting18
            (Stderr (UnableOpenValue 18 13) :: release_events waiting18) w'.
Proof.
  assert (Hr : refuses (denying (gpio_value 18)) (gpio_value 18) 13)
    by (intros t; reflexivity).
  assert (Ho : opens (denying (gpio_value 18)) GPIO_UNEXPORT)
    by (intros t; reflexivity).
  assert (Hw : writable (denying (gpio_value 18)) GPIO_UNEXPORT)
    by (intros t; cbn; lia).
  split; [reflexivity | split; [exact Hr | split; [exact Ho | split; [exact Hw |]]]].
  exact (pulse_refused (denying (gpio_value 18)) 18 13 waiting18 eq_refl Hr Ho Hw).
Defined.

(** X11: a process that waits in [read] and is given a message without NUL
    into a buffer whose next byte is NUL flashes the pin exactly when the
    message does not contain ["_UP "]; either way it then calls [lseek] and
    waits in [read] again. *)
Theorem message_flashed_unless_marked (E : env) opts args before stack
    (bs rest : list byte) w :
  no_sigint E ->
  opens E (gpio_value (gpio_pin w)) ->
  writable E (gpio_value (gpio_pin w)) ->
  lirc_indicator E opts args before stack = Blocked w ->
  bs <> [] -> (List.length bs <= BUF_SIZE)%nat ->
  forallb (fun b => negb (Byte.eqb b NUL)) bs = true ->
  skipn (List.length bs) (buf w) = NUL :: rest ->
  exists w',
    lirc_indicator E opts args (before ++ [ReadBytes bs]) stack = Blocked w'
    /\ trace w'
       = trace w
         ++ [Read (Z.of_nat (List.length bs))]
         ++ match strstr bs UP_MARKER with
            | None => [Write (gpio_value (gpio_pin w)) ("1" ++ NL)%string;
                       Usleep 100000;
                       Write (gpio_value (gpio_pin w)) ("0" ++ NL)%string]
            | Some _ => []
            end
         ++ [Lseek].
Proof.
  intros Hq Ho Hw Hb Hne Hlen Hnul Hrest.
  pose proof (fun w0 => boundary_calm E w0 Hq) as Hc.
  destruct (resume E opts args before [ReadBytes bs] stack w Hb) as (-> & _).
  destruct (iteration_terminated E (boundary E) bs rest w Hc Ho Hw Hne Hlen
              Hnul Hrest) as (w' & Hi & Ht).
  exists w'. split; [| exact Ht].
  cbn [event_loop]. rewrite (bind_ret_eq _ _ _ _ _ Hi). reflexivity.
Qed.

Lemma message_flashed_unless_marked_witness :
  no_sigint calm
  /\ lirc_indicator calm [] ["18"%string] [] zeros = Blocked waiting18
  /\ release_msg <> []
  /\ (List.length release_msg <= BUF_SIZE)%nat
  /\ forallb (fun b => negb (Byte.eqb b NUL)) release_msg = true
  /\ skipn (List.length release_msg) (buf waiting18) = NUL :: repeat NUL 87
  /\ exists w',
       lirc_indicator calm [] ["18"%string] ([] ++ [ReadBytes release_msg]) zeros
       = Blocked w'
       /\ trace w'
          = trace waiting18
            ++ [Read (Z.of_nat (List.length release_msg))]
            ++ match strstr release_msg UP_MARKER with
               | None => [Write (gpio_value (gpio_pin waiting18)) ("1" ++ NL)%string;
                          Usleep 100000;
                          Write (gpio_value (gpio_pin waiting18)) ("0" ++ NL)%string]
               | Some _ => []
               end
            ++ [Lseek].
Proof.
  assert (Hb : lirc_indicator calm [] ["18"%string] [] zeros = Blocked waiting18)
    by (vm_compute; reflexivity).
  assert (Hne : release_msg <> []) by discriminate.
  assert (Hlen : (List.length release_msg <= BUF_SIZE)%nat)
    by (apply Nat.leb_le; reflexivity).
  assert (Hnul : forallb (fun b => negb (Byte.eqb b NUL)) release_msg = true)
    by reflexivity.
  assert (Hrest : skipn (List.length release_msg) (buf waiting18)
                  = NUL :: repeat NUL 87) by reflexivity.
  split; [exact calm_quiet | split; [exact Hb | split; [exact Hne |]]].
  split; [exact Hlen | split; [exact Hnul | split; [exact Hrest |]]].
  exact (message_flashed_unless_marked calm [] ["18"%string] [] zeros
           release_msg (repeat NUL 87) waiting18 calm_quiet
           (calm_opens _) (calm_writable _) Hb Hne Hlen Hnul Hrest).
Defined.

(** ** SIGINT at any boundary

    A run over [boundary E] with SIGINT due at boundary [k] is the run over
    [probe k] up to that boundary, followed by what [boundary E] does
    there. *)

Lemma ended_ended {A B C : Type} (r : result A) :
  @ended B C (@ended A B r) = @ended A C r.
Proof. destruct r; reflexivity. Qed.

Lemma bind_ended {A B C : Type} (m : M A) (k : A -> M B) (r : result C) w :
  m w = ended r -> bind m k w = ended r.
Proof. unfold bind. intros ->. destruct r; reflexivity. Qed.

Lemma tracks_bind (k : nat) (H : M unit) {A B : Type}
    (m1 m2 : M A) (k1 k2 : A -> M B) :
  tracks k H m1 m2 -> (forall a, tracks k H (k1 a) (k2 a)) ->
  tracks k H (bind m1 k1) (bind m2 k2).
Proof.
  intros Hm Hk w. specialize (Hm w). unfold bind at 1.
  destruct (m1 w) as [a w1 | c w1 | w0 | w1 | w1].
  - rewrite (bind_ret_eq _ _ _ _ _ Hm). apply Hk.
  - unfold bind. rewrite Hm. reflexivity.
  - destruct Hm as [Hc Hm]. split; [exact Hc | exact (bind_ended _ _ _ _ Hm)].
  - unfold bind. rewrite Hm. reflexivity.
  - unfold bind. rewrite Hm. reflexivity.
Qed.

Lemma tracks_same (k : nat) (H : M unit) {A : Type} (m : M A) :
  (forall w w0, m w <> Killed w0) -> tracks k H m m.
Proof.
  intros Hm w. specialize (Hm w).
  destruct (m w) as [a w1 | c w1 | w0 | w1 | w1]; try reflexivity.
  contradiction (Hm w0). reflexivity.
Qed.

Lemma tracks_when (k : nat) (H : M unit) (b : bool) (m1 m2 : M unit) :
  tracks k H m1 m2 -> tracks k H (when b m1) (when b m2).
Proof.
  intros Hm. destruct b; [exact Hm |].
  apply tracks_same. intros w w0. discriminate.
Qed.

Section Interrupt.

Variable E : env.
Variable k : nat.
Hypothesis due : sigint_at E = Some k.

Lemma boundary_due_ended w :
  clock w = k -> boundary E w = ended (boundary E w).
Proof.
  intros Hc. unfold boundary. rewrite due, Hc, Nat.eqb_refl.
  destruct (handler w); [| reflexivity].
  unfold onExit.
  destruct (cleanup E masked 1 (advance w)) as [a w' | | | |] eqn:Hr;
    try reflexivity.
  contradiction (cleanup_no_ret _ _ _ _ _ _ Hr).
Qed.

Lemma tracks_poll : tracks k (boundary E) (probe k) (boundary E).
Proof.
  intros w. unfold probe. destruct (Nat.eqb (clock w) k) eqn:Hc.
  - apply Nat.eqb_eq in Hc. split; [exact Hc | apply boundary_due_ended, Hc].
  - unfold boundary. rewrite due, Nat.eqb_sym, Hc. reflexivity.
Qed.

Lemma tracks_stmt {A : Type} (m1 m2 : M A) :
  tracks k (boundary E) m1 m2 ->
  tracks k (boundary E) (stmt (probe k) m1) (stmt (boundary E) m2).
Proof.
  intros Hm. unfold stmt. apply tracks_bind; [apply tracks_poll | intros _; exact Hm].
Qed.

(** What holds no boundary is not stopped. *)
Ltac unstopped :=
  intros ? ?; unfold gets, modify, ret; cbv beta zeta;
  repeat match goal with
         | |- context [match ?x with _ => _ end] => destruct x
         | |- context [if ?x then _ else _] => destruct x
         end;
  discriminate.

Ltac tracked extra :=
  repeat (intros;
          lazymatch goal with
          | |- tracks _ _ (bind _ _) (bind _ _) => apply tracks_bind
          | |- tracks _ _ (stmt _ _) (stmt _ _) => apply tracks_stmt
          | |- tracks _ _ (when _ _) (when _ _) => apply tracks_when
          | |- tracks _ _ (if ?b then _ else _) (if ?b then _ else _) =>
              destruct b
          | |- tracks _ _ ?m ?m => apply tracks_same; unstopped
          | |- _ => extra
          end).

Lemma tracks_unexportGPIO (pin : Z) :
  tracks k (boundary E) (unexportGPIO E (probe k) pin)
    (unexportGPIO E (boundary E) pin).
Proof.
  unfold unexportGPIO, fopen, fprintf, fclose, eprint, exit_. tracked fail.
Qed.

Lemma tracks_cleanup {A : Type} (retval : Z) :
  tracks k (boundary E) (@cleanup E (probe k) A retval)
    (@cleanup E (boundary E) A retval).
Proof.
  unfold cleanup, exit_. tracked ltac:(apply tracks_unexportGPIO).
Qed.

Lemma tracks_exportGPIO (pin : Z) :
  tracks k (boundary E) (exportGPIO E (probe k) pin)
    (exportGPIO E (boundary E) pin).
Proof.
  unfold exportGPIO, fopen, fprintf, fclose, eprint.
  tracked ltac:(apply tracks_cleanup).
Qed.

Lemma tracks_setAsOutput (pin : Z) :
  tracks k (boundary E) (setAsOutput E (probe k) pin)
    (setAsOutput E (boundary E) pin).
Proof.
  unfold setAsOutput, fopen, fprintf, fclose, eprint.
  tracked ltac:(apply tracks_cleanup).
Qed.

Lemma tracks_setValue (pin value : Z) :
  tracks k (boundary E) (setValue E (probe k) pin value)
    (setValue E (boundary E) pin value).
Proof.
  unfold setValue, fopen, fprintf, fclose, eprint.
  tracked ltac:(apply tracks_cleanup).
Qed.

Lemma tracks_flash (pin : Z) :
  tracks k (boundary E) (flash E (probe k) pin) (flash E (boundary E) pin).
Proof.
  unfold flash, usleep. tracked ltac:(apply tracks_setValue).
Qed.

Lemma tracks_iteration (r : read_result) :
  tracks k (boundary E) (iteration E (probe k) r)
    (iteration E (boundary E) r).
Proof.
  unfold iteration, read, strstr_buf, lseek_end, eprint.
  tracked ltac:(first [apply tracks_cleanup | apply tracks_flash]).
Qed.

Lemma tracks_event_loop (reads : list read_result) :
  tracks k (boundary E) (event_loop E (probe k) reads)
    (event_loop E (boundary E) reads).
Proof.
  induction reads as [| r reads IH]; cbn [event_loop].
  - apply tracks_same. unstopped.
  - apply tracks_bind; [apply tracks_iteration | intros _; exact IH].
Qed.

Lemma tracks_getopt_loop (opts : list ascii) (isDaemon : bool) :
  tracks k (boundary E) (getopt_loop (probe k) opts isDaemon)
    (getopt_loop (boundary E) opts isDaemon).
Proof.
  revert isDaemon. induction opts as [| c opts IH]; intros isDaemon;
    cbn [getopt_loop].
  - apply tracks_same. unstopped.
  - unfold print, eprint, exit_. tracked ltac:(apply IH).
Qed.

Lemma tracks_main opts args reads :
  tracks k (boundary E) (main E (probe k) opts args reads)
    (main E (boundary E) opts args reads).
Proof.
  unfold main. apply tracks_bind; [apply tracks_getopt_loop | intros isDaemon].
  apply tracks_bind.
  { destruct args as [| a1 [| a2 [| a3 args]]]; cbn [positional];
      unfold strcpy_sun_path, eprint, exit_; tracked fail. }
  intros _. apply tracks_bind.
  { unfold check_pin, eprint, exit_. tracked fail. }
  intros _. apply tracks_bind.
  { unfold daemonize, exit_. tracked fail. }
  intros _. apply tracks_bind.
  { unfold catch_sigint. tracked fail. }
  intros _. apply tracks_bind.
  { unfold lirc_init, eprint, exit_. tracked fail. }
  intros _. apply tracks_bind.
  { unfold gpio_init.
    tracked ltac:(first [apply tracks_exportGPIO | apply tracks_setAsOutput]). }
  intros _. apply tracks_event_loop.
Qed.

Lemma interrupted_run opts args reads stack w :
  main E (probe k) opts args reads (boot stack) = Killed w ->
  clock w = k
  /\ lirc_indicator E opts args reads stack = ended (boundary E w).
Proof.
  intros Hp. pose proof (tracks_main opts args reads (boot stack)) as H.
  rewrite Hp in H. exact H.
Qed.

End Interrupt.

(** X12: SIGINT at any statement boundary.  Let the process, left alone,
    reach its boundary [k] in the state [w].  If SIGINT arrives there, the
    statement behind the boundary is not executed.  With the handler
    installed the process exits with status 1, and what it does before is
    decided by the mark alone: it writes the pin to the unexport file if
    [isExported] is set and does nothing if it is not.  Before [sigaction]
    the process is killed and does nothing. *)
Theorem sigint_at_any_boundary (E : env) (k : nat) opts args reads stack w :
  sigint_at E = Some k ->
  main E (probe k) opts args reads (boot stack) = Killed w ->
  opens E GPIO_UNEXPORT -> writable E GPIO_UNEXPORT ->
  (handler w = true ->
   exists w',
     lirc_indicator E opts args reads stack = Exited 1 w'
     /\ trace w'
        = trace w
          ++ (if isExported w =? 0 then []
              else [Write GPIO_UNEXPORT (fmt_d (gpio_pin w) ++ NL)%string]))
  /\ (handler w = false ->
      lirc_indicator E opts args reads stack = Killed (advance w)).
Proof.
  intros Hk Hp Ho Hw.
  destruct (interrupted_run E k Hk opts args reads stack w Hp) as [Hc Hr].
  assert (Hs : sound w).
  { pose proof (state_sound E opts args reads stack k) as Hs.
    unfold state_at in Hs. rewrite Hp in Hs. exact Hs. }
  split; intros Hh.
  - destruct (sigint_delivery E w Hh (eq_trans Hk (f_equal Some (eq_sym Hc)))
                Ho Hw) as (w' & Hb & Ha).
    exists w'. rewrite Hr, Hb. split; [reflexivity |].
    destruct Ha as (Ht & _). rewrite Ht. f_equal.
    unfold release_events.
    destruct (isExported w =? 0) eqn:H0.
    + unfold exported. rewrite H0. reflexivity.
    + apply Z.eqb_neq in H0. rewrite (exported_sound w Hs H0). reflexivity.
  - rewrite Hr. unfold boundary. rewrite Hk, Hc, Nat.eqb_refl, Hh. reflexivity.
Qed.

Lemma sigint_at_any_boundary_witness :
  let w := state_at (with_sigint 12 calm) [] ["18"%string]
             [ReadBytes press_msg] zeros 12 in
  sigint_at (with_sigint 12 calm) = Some 12%nat
  /\ main (with_sigint 12 calm) (probe 12) [] ["18"%string]
       [ReadBytes press_msg] (boot zeros) = Killed w
  /\ opens (with_sigint 12 calm) GPIO_UNEXPORT
  /\ writable (with_sigint 12 calm) GPIO_UNEXPORT
  /\ handler w = true
  /\ exists w',
       lirc_indicator (with_sigint 12 calm) [] ["18"%string]
         [ReadBytes press_msg] zeros = Exited 1 w'
       /\ trace w'
          = trace w
            ++ (if isExported w =? 0 then []
                else [Write GPIO_UNEXPORT (fmt_d (gpio_pin w) ++ NL)%string]).
Proof.
  intros w.
  assert (Hp : main (with_sigint 12 calm) (probe 12) [] ["18"%string]
                 [ReadBytes press_msg] (boot zeros) = Killed w)
    by (vm_compute; reflexivity).
  assert (Ho : opens (with_sigint 12 calm) GPIO_UNEXPORT)
    by (intros t; reflexivity).
  assert (Hw : writable (with_sigint 12 calm) GPIO_UNEXPORT)
    by (intros t; cbn; lia).
  assert (Hh : handler w = true) by reflexivity.
  split; [reflexivity | split; [exact Hp | split; [exact Ho | split; [exact Hw |]]]].
  split; [exact Hh |].
  exact (proj1 (sigint_at_any_boundary (with_sigint 12 calm) 12 []
                  ["18"%string] [ReadBytes press_msg] zeros w eq_refl Hp Ho Hw)
           Hh).
Defined.

(** ** A second invariant: only the pin, and no exit without release *)

Lemma frame2_refl w : frame2 w w.
Proof.
  unfold frame2. repeat split; try reflexivity.
  exists []. symmetry. apply app_nil_r.
Qed.

Lemma frame2_trans w1 w2 w3 : frame2 w1 w2 -> frame2 w2 w3 -> frame2 w1 w3.
Proof.
  intros (H1 & H2 & H3 & H4 & evs1 & H5) (K1 & K2 & K3 & K4 & evs2 & K5).
  unfold frame2. repeat split; try congruence.
  exists (evs1 ++ evs2). rewrite K5, H5, app_assoc. reflexivity.
Qed.

Lemma release_tried_app tr evs : release_tried tr -> release_tried (tr ++ evs).
Proof.
  intros [[t H] | [[e H] | [e H]]]; [left; exists t | right; left; exists e
                                    | right; right; exists e];
    apply in_or_app; left; exact H.
Qed.

Lemma release_tried_frame w w' :
  frame2 w w' -> release_tried (trace w) -> release_tried (trace w').
Proof.
  intros (_ & _ & _ & _ & evs & ->). apply release_tried_app.
Qed.

Lemma steady_anytime : steady anytime.
Proof. intros w w' _ _. exact I. Qed.

Lemma steady_unmarked : steady unmarked.
Proof. intros w w' (_ & H & _) H0. unfold unmarked in *. congruence. Qed.

Lemma steady_serving pin : steady (serving pin).
Proof.
  intros w w' (H1 & _ & H3 & _) [Hp Hc]. unfold serving. split; congruence.
Qed.

Lemma keeps_weaken (P Q : world -> Prop) {A : Type} (m : M A) :
  (forall w, Q w -> P w) -> keeps P m -> keeps Q m.
Proof. intros HPQ Hm w Ht Hq. apply Hm; auto. Qed.

Lemma keeps_bind (P : world -> Prop) {A B : Type} (m : M A) (k : A -> M B) :
  steady P -> keeps P m -> (forall a, keeps P (k a)) -> keeps P (bind m k).
Proof.
  intros Hst Hm Hk w Ht Hp. apply wp_bind.
  eapply wp_mono; [apply Hm; assumption | | auto].
  intros a w1 [Ht1 Hf1]. cbv beta.
  eapply wp_mono; [apply Hk; [assumption | exact (Hst _ _ Hf1 Hp)] | | auto].
  intros b w2 [Ht2 Hf2]. split; [assumption | eapply frame2_trans; eassumption].
Qed.

Lemma keeps_ret (P : world -> Prop) {A : Type} (a : A) : keeps P (ret a).
Proof. intros w Ht _. split; [assumption | apply frame2_refl]. Qed.

Lemma keeps_gets (P : world -> Prop) {A : Type} (f : world -> A) :
  keeps P (gets f).
Proof. intros w Ht _. split; [assumption | apply frame2_refl]. Qed.

Lemma keeps_when (P : world -> Prop) (b : bool) (m : M unit) :
  keeps P m -> keeps P (when b m).
Proof. destruct b; [auto | intros _; apply keeps_ret]. Qed.

(** *** [tidy] under the updates of the world *)

Lemma tidy_boot stack : tidy (boot stack).
Proof.
  constructor; cbn.
  - intros H. contradiction H. reflexivity.
  - discriminate.
  - discriminate.
  - constructor.
  - constructor.
Qed.

Lemma tidy_advance w : tidy w -> tidy (advance w).
Proof. intros [H1 H2 H3 H4 H5]. constructor; assumption. Qed.

Lemma tidy_errno e w : tidy w -> tidy (set_errno e w).
Proof. intros [H1 H2 H3 H4 H5]. constructor; assumption. Qed.

Lemma tidy_buf b w : tidy w -> tidy (set_buf b w).
Proof. intros [H1 H2 H3 H4 H5]. constructor; assumption. Qed.

Lemma tidy_sun_path p w : tidy w -> tidy (set_sun_path p w).
Proof. intros [H1 H2 H3 H4 H5]. constructor; assumption. Qed.

Lemma tidy_log_plain ev w : plain ev = true -> tidy w -> tidy (log ev w).
Proof.
  intros Hev [H1 H2 H3 H4 H5]. constructor; cbn; try assumption.
  - apply Forall_app. split; [assumption |].
    constructor; [| constructor]. destruct ev; try reflexivity; discriminate.
  - intros Hc. apply Forall_app. split; [auto |].
    constructor; [| constructor]. destruct ev; try reflexivity; discriminate.
Qed.

Lemma tidy_log_write path text w :
  connected w = true -> pin_write (gpio_pin w) path text = true ->
  tidy w -> tidy (log (Write path text) w).
Proof.
  intros Hc Hp [H1 H2 H3 H4 H5]. constructor; cbn; try assumption.
  - apply Forall_app. split; [assumption |].
    constructor; [exact Hp | constructor].
  - intros Hc'. congruence.
Qed.

Lemma tidy_connect path w :
  valid_pin (gpio_pin w) = true -> handler w = true ->
  tidy w -> tidy (log (Connect path) (set_connected true w)).
Proof.
  intros Hv Hh [H1 H2 H3 H4 H5]. constructor; cbn; auto.
  - intros Hx. destruct (H1 Hx) as [Hx1 _]. auto.
  - apply Forall_app. split; [assumption |].
    constructor; [reflexivity | constructor].
  - discriminate.
Qed.

Lemma tidy_handler_on w :
  tidy w -> tidy (log Sigaction (set_handler true w)).
Proof.
  intros [H1 H2 H3 H4 H5]. constructor; cbn; auto.
  - apply Forall_app. split; [assumption |].
    constructor; [reflexivity | constructor].
  - intros Hc. apply Forall_app. split; [auto |].
    constructor; [reflexivity | constructor].
Qed.

Lemma tidy_gpio_pin v w :
  connected w = false -> tidy w -> tidy (set_gpio_pin v w).
Proof.
  intros Hc [H1 H2 H3 H4 H5]. constructor; cbn; try assumption.
  - intros Hc'. congruence.
  - eapply Forall_impl; [| exact (H5 Hc)].
    intros ev Hev. destruct ev; try reflexivity. discriminate.
Qed.

Lemma tidy_isExported w :
  connected w = true -> tidy w -> tidy (set_isExported 1 w).
Proof.
  intros Hc [H1 H2 H3 H4 H5]. constructor; cbn; auto.
Qed.

Lemma tidy_no_write w :
  tidy w -> connected w = false ->
  forall path text, ~ In (Write path text) (trace w).
Proof.
  intros Ht Hc path text Hin.
  pose proof (tidy_early w Ht Hc) as Hf.
  rewrite Forall_forall in Hf. specialize (Hf _ Hin). discriminate.
Qed.

Ltac framed2 :=
  unfold frame2; cbn; repeat split; try reflexivity;
  first [ exists []; symmetry; apply app_nil_r | eexists; reflexivity ].

Lemma pin_write_export pin : pin_write pin GPIO_EXPORT (fmt_d pin ++ NL) = true.
Proof. unfold pin_write. rewrite !String.eqb_refl. reflexivity. Qed.

Lemma pin_write_unexport pin :
  pin_write pin GPIO_UNEXPORT (fmt_d pin ++ NL) = true.
Proof.
  unfold pin_write. rewrite !String.eqb_refl, !orb_true_r. reflexivity.
Qed.

Lemma pin_write_direction pin :
  pin_write pin (gpio_direction pin) ("out" ++ NL) = true.
Proof.
  unfold pin_write. rewrite !String.eqb_refl, !orb_true_r. reflexivity.
Qed.

Lemma pin_write_value pin value :
  value = 0 \/ value = 1 ->
  pin_write pin (gpio_value pin) (fmt_d value ++ NL) = true.
Proof.
  intros Hv. unfold pin_write. rewrite (String.eqb_refl (gpio_value pin)).
  replace (String.eqb (fmt_d value ++ NL) ("1" ++ NL)
           || String.eqb (fmt_d value ++ NL) ("0" ++ NL))%bool with true
    by (destruct Hv; subst value; reflexivity).
  rewrite !orb_true_r. reflexivity.
Qed.

Section Tidy.

Variable E : env.
Variable poll : M unit.
Hypothesis poll_keeps : keeps anytime poll.

Lemma wp_stmt2 {A : Type} (m : M A) Q w :
  tidy w ->
  (forall w', tidy w' -> frame2 w w' -> wp m Q ends_tidy w') ->
  wp (stmt poll m) Q ends_tidy w.
Proof.
  intros Ht Hm. unfold stmt. apply wp_bind.
  eapply wp_mono; [apply poll_keeps; [exact Ht | exact I] | | auto].
  intros [] w' [Ht' Hf]. auto.
Qed.

Lemma keeps_stmt (P : world -> Prop) {A : Type} (m : M A) :
  steady P -> keeps P m -> keeps P (stmt poll m).
Proof.
  intros Hst Hm. apply keeps_bind; [exact Hst | | intros _; exact Hm].
  apply (keeps_weaken anytime); [intros; exact I | exact poll_keeps].
Qed.

Lemma keeps_log (P : world -> Prop) (ev : event) :
  plain ev = true -> keeps P (modify (log ev)).
Proof.
  intros Hev w Ht _. split; [apply tidy_log_plain; assumption |].
  framed2.
Qed.

Lemma keeps_eprint P (r : report) : steady P -> keeps P (eprint poll r).
Proof. intros Hst. apply keeps_stmt, keeps_log; [exact Hst | reflexivity]. Qed.

Lemma keeps_print P (b : banner) : steady P -> keeps P (print poll b).
Proof. intros Hst. apply keeps_stmt, keeps_log; [exact Hst | reflexivity]. Qed.

Lemma keeps_usleep P (usec : Z) : steady P -> keeps P (usleep poll usec).
Proof. intros Hst. apply keeps_stmt, keeps_log; [exact Hst | reflexivity]. Qed.

Lemma keeps_lseek_end P : steady P -> keeps P (lseek_end poll).
Proof. intros Hst. apply keeps_stmt, keeps_log; [exact Hst | reflexivity]. Qed.

Lemma keeps_fclose P : steady P -> keeps P (fclose poll).
Proof. intros Hst. apply keeps_stmt, keeps_ret. exact Hst. Qed.

Lemma keeps_set_errno P (e : Z) : keeps P (modify (set_errno e)).
Proof.
  intros w Ht _. split; [apply tidy_errno, Ht | framed2].
Qed.

Lemma keeps_fopen P (path : string) : steady P -> keeps P (fopen E poll path).
Proof.
  intros Hst. apply keeps_stmt; [exact Hst |]. intros w Ht _. unfold wp.
  destruct (fopen_at E (clock w) path).
  - split; [apply tidy_errno, Ht | framed2].
  - split; [assumption | framed2].
Qed.

Lemma keeps_read P (r : read_result) : steady P -> keeps P (read poll r).
Proof.
  intros Hst. apply keeps_stmt; [exact Hst |]. intros w Ht _. unfold wp.
  destruct r as [bs | e].
  - split; [apply tidy_log_plain; [reflexivity | apply tidy_buf, Ht] |].
    framed2.
  - split; [apply tidy_log_plain; [reflexivity | apply tidy_errno, Ht] |].
    framed2.
Qed.

Lemma keeps_strstr_buf P (needle : list byte) :
  steady P -> keeps P (strstr_buf poll needle).
Proof.
  intros Hst. apply keeps_stmt; [exact Hst |]. intros w Ht _. unfold wp.
  destruct (cstring (buf w)).
  - split; [assumption | framed2].
  - split; [assumption | split; [discriminate | discriminate]].
Qed.

Lemma keeps_fprintf (pin : Z) (path text : string) :
  pin_write pin path text = true ->
  keeps (serving pin) (fprintf E poll path text).
Proof.
  intros Hp. apply keeps_stmt; [apply steady_serving |].
  intros w Ht [Hpin Hc]. unfold wp. cbv zeta.
  destruct (fprintf_at E (clock w) path <? 0).
  - split; [assumption | framed2].
  - split; [apply tidy_log_write; [assumption | rewrite Hpin; exact Hp | assumption] |].
    framed2.
Qed.

Lemma wp_exit_unmarked {A : Type} (status : Z) (Q : A -> world -> Prop) w :
  tidy w -> isExported w = 0 ->
  wp (@exit_ poll A status) Q ends_tidy w.
Proof.
  intros Ht H0. unfold exit_. apply wp_stmt2; [assumption |].
  intros w1 Ht1 (_ & Hx & _). unfold wp.
  split; [assumption | split; [| discriminate]].
  intros c _ Hne. congruence.
Qed.

Lemma keeps_exit_unmarked {A : Type} (status : Z) :
  keeps unmarked (@exit_ poll A status).
Proof. intros w Ht H0. apply wp_exit_unmarked; assumption. Qed.

Lemma wp_exit_released {A : Type} (status : Z) (Q : A -> world -> Prop) w :
  tidy w -> release_tried (trace w) ->
  wp (@exit_ poll A status) Q ends_tidy w.
Proof.
  intros Ht Hr. unfold exit_. apply wp_stmt2; [assumption |].
  intros w1 Ht1 Hf. unfold wp.
  split; [assumption | split; [| discriminate]].
  intros c _ _. exact (release_tried_frame _ _ Hf Hr).
Qed.

(** A report that the release failed, followed by [exit(errno)]. *)
Lemma wp_release_failed (R : Z -> report) (Q : unit -> world -> Prop) w :
  (forall e, R e = UnableOpenUnexport e) \/ (forall e, R e = UnableWriteUnexport e) ->
  tidy w ->
  wp (e <- gets errno ;; eprint poll (R e) ;;
      e <- gets errno ;; @exit_ poll unit e) Q ends_tidy w.
Proof.
  intros HR Ht. apply wp_bind. unfold gets at 1, wp at 1.
  apply wp_bind. unfold eprint. apply wp_stmt2; [assumption |].
  intros w1 Ht1 Hf1. unfold modify at 1, wp at 1.
  apply wp_bind. unfold gets at 1, wp at 1.
  apply wp_exit_released.
  - apply tidy_log_plain; [reflexivity | assumption].
  - cbn [trace log].
    destruct HR as [HR | HR]; rewrite HR;
      [right; left | right; right]; exists (errno w);
      apply in_or_app; right; left; reflexivity.
Qed.

Lemma wp_unexportGPIO w :
  tidy w -> connected w = true ->
  wp (unexportGPIO E poll (gpio_pin w))
     (fun _ w' => tidy w' /\ frame2 w w' /\ release_tried (trace w'))
     ends_tidy w.
Proof.
  intros Ht Hc. unfold unexportGPIO.
  apply wp_bind.
  eapply wp_mono;
    [apply (keeps_fopen anytime _ steady_anytime); [exact Ht | exact I] | | auto].
  intros fd w1 [Ht1 Hf1]. cbv beta.
  apply wp_bind. destruct fd; cbn [negb when].
  2:{ apply wp_release_failed; [left; reflexivity | assumption]. }
  unfold ret at 1, wp at 1.
  assert (Hs1 : serving (gpio_pin w) w1).
  { exact (steady_serving _ _ _ Hf1 (conj eq_refl Hc)). }
  apply wp_bind. unfold fprintf.
  apply wp_stmt2; [assumption |].
  intros w2 Ht2 Hf2. unfold wp at 1. cbv zeta.
  pose proof (steady_serving _ _ _ Hf2 Hs1) as [Hp2 Hc2].
  destruct (fprintf_at E (clock w2) GPIO_UNEXPORT <? 0) eqn:Hneg.
  - apply wp_bind. unfold modify at 1, wp at 1.
    apply wp_bind. cbn [when].
    apply wp_release_failed; [right; reflexivity | apply tidy_errno, Ht2].
  - apply wp_bind. unfold modify at 1, wp at 1.
    apply wp_bind. cbn [when]. unfold ret at 1, wp at 1.
    set (w3 := set_errno _ (log _ w2)).
    assert (Ht3 : tidy w3).
    { apply tidy_errno, tidy_log_write; [assumption | | assumption].
      rewrite Hp2. apply pin_write_unexport. }
    assert (Hf3 : frame2 w w3).
    { eapply frame2_trans; [exact Hf1 |]. eapply frame2_trans; [exact Hf2 |].
      unfold w3. framed2. }
    assert (Hr3 : release_tried (trace w3)).
    { left. eexists. unfold w3. cbn. apply in_or_app. right. left. reflexivity. }
    eapply wp_mono;
      [apply (keeps_fclose anytime steady_anytime); [exact Ht3 | exact I] | | auto].
    intros [] w4 [Ht4 Hf4]. split; [assumption |].
    split; [eapply frame2_trans; eassumption |].
    exact (release_tried_frame _ _ Hf4 Hr3).
Qed.

Lemma wp_cleanup {A : Type} (retval : Z) (Q : A -> world -> Prop) w :
  tidy w -> wp (@cleanup E poll A retval) Q ends_tidy w.
Proof.
  intros Ht. unfold cleanup.
  apply wp_bind. unfold gets at 1, wp at 1.
  apply wp_bind. unfold gets at 1, wp at 1.
  apply wp_bind.
  destruct (negb (isExported w =? 0) && (0 <=? gpio_pin w)) eqn:Hg; cbn [when].
  - apply andb_prop in Hg. destruct Hg as [Hx _].
    apply negb_true_iff, Z.eqb_neq in Hx.
    destruct (tidy_marked w Ht Hx) as [_ Hc].
    eapply wp_mono; [apply wp_unexportGPIO; assumption | | auto].
    intros [] w1 (Ht1 & Hf1 & Hr1). apply wp_exit_released; assumption.
  - unfold ret at 1, wp at 1.
    destruct (Z.eq_dec (isExported w) 0) as [H0 | Hx].
    + apply wp_exit_unmarked; assumption.
    + exfalso. destruct (tidy_marked w Ht Hx) as [_ Hc].
      pose proof (valid_pin_nonneg _ (tidy_valid w Ht Hc)) as Hp.
      apply Z.eqb_neq in Hx. rewrite Hx in Hg. cbn [negb andb] in Hg.
      apply Z.leb_gt in Hg. lia.
Qed.

Lemma keeps_cleanup P {A : Type} (retval : Z) :
  keeps P (@cleanup E poll A retval).
Proof. intros w Ht _. apply wp_cleanup, Ht. Qed.

Lemma keeps_gets_pin (pin : Z) {B : Type} (k : Z -> M B) :
  keeps (serving pin) (k pin) ->
  keeps (serving pin) (bind (gets gpio_pin) k).
Proof.
  intros Hk w Ht Hs. apply wp_bind. unfold gets at 1, wp at 1.
  destruct Hs as [Hp Hc]. rewrite Hp. apply Hk; [assumption | split; assumption].
Qed.

Ltac steadiness :=
  first [ apply steady_anytime | apply steady_unmarked | apply steady_serving ].

Ltac atom2 :=
  first [ apply keeps_ret | apply keeps_gets | apply keeps_set_errno
        | apply keeps_cleanup
        | apply keeps_exit_unmarked
        | apply keeps_eprint; steadiness | apply keeps_print; steadiness
        | apply keeps_usleep; steadiness | apply keeps_lseek_end; steadiness
        | apply keeps_fclose; steadiness | apply keeps_fopen; steadiness
        | apply keeps_read; steadiness | apply keeps_strstr_buf; steadiness
        | apply keeps_fprintf;
          first [ apply pin_write_export | apply pin_write_unexport
                | apply pin_write_direction
                | apply pin_write_value; auto ] ].

Ltac kept extra :=
  repeat (intros;
          lazymatch goal with
          | |- keeps (serving _) (bind (gets gpio_pin) _) => apply keeps_gets_pin
          | |- keeps _ (bind _ _) => apply keeps_bind; [steadiness | |]
          | |- keeps _ (when _ _) => apply keeps_when
          | |- keeps _ _ => first [ extra | atom2 ]
          end).

Lemma keeps_exportGPIO (pin : Z) : keeps (serving pin) (exportGPIO E poll pin).
Proof. unfold exportGPIO. kept fail. Qed.

Lemma keeps_setAsOutput (pin : Z) :
  keeps (serving pin) (setAsOutput E poll pin).
Proof. unfold setAsOutput. kept fail. Qed.

Lemma keeps_setValue (pin value : Z) :
  keeps (serving pin) (setValue E poll pin value).
Proof.
  destruct (Z.eq_dec value 0) as [-> | H0]; [unfold setValue; kept fail |].
  destruct (Z.eq_dec value 1) as [-> | H1]; [unfold setValue; kept fail |].
  intros w Ht Hs. unfold setValue.
  apply Z.eqb_neq in H0, H1. rewrite H0, H1. cbn [negb andb when].
  apply wp_bind. apply wp_bind.
  eapply wp_mono;
    [apply (keeps_eprint anytime _ steady_anytime); [exact Ht | exact I] | | auto].
  intros [] w1 [Ht1 _]. apply wp_cleanup, Ht1.
Qed.

Lemma keeps_flash (pin : Z) : keeps (serving pin) (flash E poll pin).
Proof. unfold flash. kept ltac:(apply keeps_setValue). Qed.

Lemma keeps_iteration (pin : Z) (r : read_result) :
  keeps (serving pin) (iteration E poll r).
Proof. unfold iteration. kept ltac:(apply keeps_flash). Qed.

Lemma keeps_getopt_loop (opts : list ascii) (isDaemon : bool) :
  keeps unmarked (getopt_loop poll opts isDaemon).
Proof.
  revert isDaemon. induction opts as [| c opts IH]; intros isDaemon; cbn.
  - apply keeps_ret.
  - destruct (Ascii.eqb c "h"); [kept fail |].
    destruct (Ascii.eqb c "v"); [kept fail |].
    destruct (Ascii.eqb c "?"); [kept fail |].
    destruct (Ascii.eqb c "d"); apply IH.
Qed.

Lemma keeps_daemonize (isDaemon : bool) :
  keeps unmarked (daemonize E poll isDaemon).
Proof.
  unfold daemonize. destruct isDaemon; [| apply keeps_ret].
  apply keeps_bind; [apply steady_unmarked | |].
  - apply keeps_stmt; [apply steady_unmarked |]. intros w Ht _. unfold wp.
    split; [apply tidy_log_plain; [reflexivity | assumption] | framed2].
  - intros pid. destruct (pid <? 0); [apply keeps_exit_unmarked |].
    destruct (0 <? pid); [apply keeps_exit_unmarked | apply keeps_ret].
Qed.

Lemma wp_report_exit_unmarked (r : report) (status : Z)
    (Q : unit -> world -> Prop) w :
  tidy w -> isExported w = 0 ->
  wp (eprint poll r ;; @exit_ poll unit status) Q ends_tidy w.
Proof.
  intros Ht H0. apply wp_bind.
  eapply wp_mono;
    [apply (keeps_eprint unmarked _ steady_unmarked); [exact Ht | exact H0] | | auto].
  intros [] w1 [Ht1 (_ & Hx & _)]. apply wp_exit_unmarked; [assumption | congruence].
Qed.

Lemma wp_positional2 (args : list string) w :
  tidy w -> connected w = false -> isExported w = 0 ->
  wp (positional E poll args)
     (fun _ w' => tidy w' /\ connected w' = false /\ isExported w' = 0
                  /\ handler w' = handler w)
     ends_tidy w.
Proof.
  intros Ht Hc H0.
  assert (Hset : forall v src,
             wp (stmt poll (modify (set_gpio_pin v)) ;; strcpy_sun_path poll src)
                (fun _ w' => tidy w' /\ connected w' = false
                             /\ isExported w' = 0 /\ handler w' = handler w)
                ends_tidy w).
  { intros v src. apply wp_bind. apply wp_stmt2; [assumption |].
    intros w1 Ht1 (Hp1 & Hx1 & Hc1 & Hh1 & _). unfold modify at 1, wp at 1.
    unfold strcpy_sun_path. apply wp_stmt2.
    { apply tidy_gpio_pin; [congruence | assumption]. }
    intros w2 Ht2 (Hp2 & Hx2 & Hc2 & Hh2 & _). cbn in Hx2, Hc2, Hh2. unfold wp.
    destruct (String.length src <? SUN_PATH_SIZE)%nat.
    - split; [apply tidy_sun_path, Ht2 |]. cbn.
      split; [congruence | split; congruence].
    - split; [assumption | split; discriminate]. }
  destruct args as [| a1 [| a2 [| a3 args]]]; cbn [positional]; try apply Hset.
  apply wp_report_exit_unmarked; assumption.
Qed.

Lemma wp_check_pin2 w :
  tidy w -> isExported w = 0 ->
  wp (check_pin poll)
     (fun _ w' => w' = w /\ valid_pin (gpio_pin w) = true)
     ends_tidy w.
Proof.
  intros Ht H0. unfold check_pin. apply wp_bind. unfold gets at 1, wp at 1.
  destruct (valid_pin (gpio_pin w)) eqn:Hv.
  - unfold ret, wp. split; reflexivity.
  - apply wp_report_exit_unmarked; assumption.
Qed.

Lemma wp_catch_sigint w :
  tidy w ->
  wp (catch_sigint poll)
     (fun _ w' => tidy w' /\ handler w' = true /\ gpio_pin w' = gpio_pin w
                  /\ isExported w' = isExported w
                  /\ connected w' = connected w)
     ends_tidy w.
Proof.
  intros Ht. unfold catch_sigint. apply wp_stmt2; [assumption |].
  intros w1 Ht1 (Hp1 & Hx1 & Hc1 & _). unfold modify, wp.
  split; [apply tidy_handler_on, Ht1 |]. cbn. auto.
Qed.

Lemma wp_report_errno_exit_unmarked (R : Z -> report)
    (Q : unit -> world -> Prop) w :
  tidy w -> isExported w = 0 ->
  wp (e <- gets errno ;; eprint poll (R e) ;;
      e <- gets errno ;; @exit_ poll unit e) Q ends_tidy w.
Proof.
  intros Ht H0. apply wp_bind. unfold gets at 1, wp at 1.
  apply wp_bind.
  eapply wp_mono;
    [apply (keeps_eprint unmarked _ steady_unmarked); [exact Ht | exact H0] | | auto].
  intros [] w1 [Ht1 (_ & Hx & _)]. cbv beta.
  apply wp_bind. unfold gets at 1, wp at 1.
  apply wp_exit_unmarked; [assumption | congruence].
Qed.

Lemma wp_lirc_init2 w :
  tidy w -> isExported w = 0 -> handler w = true ->
  valid_pin (gpio_pin w) = true ->
  wp (lirc_init E poll)
     (fun _ w' => tidy w' /\ connected w' = true
                  /\ gpio_pin w' = gpio_pin w)
     ends_tidy w.
Proof.
  intros Ht H0 Hh Hv. unfold lirc_init.
  apply wp_bind. apply wp_stmt2; [assumption |].
  intros w1 Ht1 (Hp1 & Hx1 & Hc1 & Hh1 & _). unfold wp at 1.
  destruct (socket_err E) as [e |]; cbn [negb when].
  - apply wp_bind. apply wp_report_errno_exit_unmarked;
      [apply tidy_errno, Ht1 | cbn; congruence].
  - apply wp_bind. unfold ret at 1, wp at 1.
    apply wp_bind. unfold gets at 1, wp at 1.
    apply wp_bind. apply wp_stmt2.
    { apply tidy_log_plain; [reflexivity | assumption]. }
    intros w2 Ht2 (Hp2 & Hx2 & Hc2 & Hh2 & _). cbn in Hp2, Hx2, Hc2, Hh2.
    unfold wp at 1.
    destruct (connect_err E (sun_path (log Socket w1))) as [e |];
      cbn [negb when].
    + apply wp_report_errno_exit_unmarked;
        [apply tidy_errno, Ht2 | cbn; congruence].
    + unfold ret, wp.
      split; [apply tidy_connect; [congruence | congruence | assumption] |].
      cbn. split; [reflexivity | congruence].
Qed.

Lemma wp_gpio_init2 w :
  tidy w -> connected w = true ->
  wp (gpio_init E poll)
     (fun _ w' => tidy w' /\ serving (gpio_pin w) w')
     ends_tidy w.
Proof.
  intros Ht Hc. unfold gpio_init.
  apply wp_bind. unfold gets at 1, wp at 1.
  apply wp_bind.
  eapply wp_mono;
    [apply keeps_exportGPIO; [exact Ht | split; [reflexivity | exact Hc]] | | auto].
  intros [] w1 [Ht1 (Hp1 & Hx1 & Hc1 & _)]. cbv beta.
  apply wp_bind. apply wp_stmt2; [assumption |].
  intros w2 Ht2 (Hp2 & Hx2 & Hc2 & _). unfold modify at 1, wp at 1.
  apply wp_bind. unfold gets at 1, wp at 1. cbn [gpio_pin set_isExported].
  assert (Hs2 : serving (gpio_pin w2) (set_isExported 1 w2))
    by (split; [reflexivity | cbn; congruence]).
  eapply wp_mono;
    [apply keeps_setAsOutput;
     [apply tidy_isExported; [congruence | assumption] | exact Hs2] | | auto].
  intros [] w3 [Ht3 (Hp3 & Hx3 & Hc3 & _)]. cbn in Hp3, Hc3.
  split; [assumption | split; congruence].
Qed.

Lemma wp_event_loop2 (pin : Z) (reads : list read_result) w :
  tidy w -> serving pin w ->
  wp (event_loop E poll reads) (fun _ _ => False) ends_tidy w.
Proof.
  revert w. induction reads as [| r reads IH]; intros w Ht Hs; cbn.
  - unfold wp. split; [assumption | split; [discriminate | discriminate]].
  - apply wp_bind.
    eapply wp_mono; [apply (keeps_iteration pin); assumption | | auto].
    intros [] w1 [Ht1 Hf1]. apply IH; [assumption |].
    exact (steady_serving _ _ _ Hf1 Hs).
Qed.

Lemma wp_main2 opts args reads stack :
  wp (main E poll opts args reads) (fun _ _ => False) ends_tidy (boot stack).
Proof.
  unfold main. apply wp_bind.
  eapply wp_mono;
    [apply keeps_getopt_loop; [apply tidy_boot | reflexivity] | | auto].
  intros isDaemon w1 [Ht1 (Hp1 & Hx1 & Hc1 & Hh1 & _)]. cbv beta.
  cbn in Hx1, Hc1, Hh1.
  apply wp_bind.
  eapply wp_mono; [apply wp_positional2; assumption | | auto].
  intros [] w2 (Ht2 & Hc2 & Hx2 & Hh2). cbv beta.
  apply wp_bind.
  eapply wp_mono; [apply wp_check_pin2; assumption | | auto].
  intros [] w3 (-> & Hv3). cbv beta.
  apply wp_bind.
  eapply wp_mono; [apply keeps_daemonize; [exact Ht2 | exact Hx2] | | auto].
  intros [] w4 (Ht4 & (Hp4 & Hx4 & Hc4 & Hh4 & _)). cbv beta.
  apply wp_bind.
  eapply wp_mono; [apply wp_catch_sigint, Ht4 | | auto].
  intros [] w5 (Ht5 & Hh5 & Hp5 & Hx5 & Hc5). cbv beta.
  apply wp_bind.
  eapply wp_mono;
    [apply wp_lirc_init2; [assumption | congruence | assumption | congruence]
    | | auto].
  intros [] w6 (Ht6 & Hc6 & Hp6). cbv beta.
  apply wp_bind.
  eapply wp_mono; [apply wp_gpio_init2; assumption | | auto].
  intros [] w7 (Ht7 & Hs7). cbv beta.
  exact (wp_event_loop2 _ reads w7 Ht7 Hs7).
Qed.

End Tidy.

Lemma keeps_masked : keeps anytime masked.
Proof.
  intros w Ht _. unfold wp, masked, modify.
  split; [apply tidy_advance, Ht | framed2].
Qed.

Lemma keeps_boundary (E : env) : keeps anytime (boundary E).
Proof.
  intros w Ht _. unfold wp, boundary.
  destruct (match sigint_at E with
            | Some k => Nat.eqb k (clock w)
            | None => false
            end).
  - destruct (handler w) eqn:Hh.
    + pose proof (wp_cleanup E masked keeps_masked (A := unit) 1
                    (fun _ _ => False) (advance w) (tidy_advance w Ht)) as H.
      unfold wp in H. unfold onExit.
      destruct (cleanup E masked 1 (advance w)); solve [contradiction | exact H].
    + split; [apply tidy_advance, Ht | split; [discriminate |]].
      intros _. cbn. destruct (connected w) eqn:Hc; [| reflexivity].
      pose proof (tidy_handler w Ht Hc). congruence.
  - split; [apply tidy_advance, Ht | framed2].
Qed.

Lemma run_tidy (E : env) opts args reads stack :
  wp (main E (boundary E) opts args reads) (fun _ _ => False) ends_tidy
     (boot stack).
Proof. apply wp_main2, keeps_boundary. Qed.

Lemma final_tidy (E : env) opts args reads stack :
  tidy (final (lirc_indicator E opts args reads stack)).
Proof.
  pose proof (run_tidy E opts args reads stack) as H.
  unfold wp in H. unfold lirc_indicator.
  destruct (main E (boundary E) opts args reads (boot stack));
    cbn; solve [contradiction | apply H].
Qed.

Lemma pin_write_cases pin path text :
  pin_write pin path text = true ->
  (path = GPIO_EXPORT /\ text = (fmt_d pin ++ NL)%string)
  \/ (path = GPIO_UNEXPORT /\ text = (fmt_d pin ++ NL)%string)
  \/ (path = gpio_direction pin /\ text = ("out" ++ NL)%string)
  \/ (path = gpio_value pin
      /\ (text = ("1" ++ NL)%string \/ text = ("0" ++ NL)%string)).
Proof.
  unfold pin_write. intros H.
  repeat match type of H with
         | (_ || _)%bool = true => apply orb_prop in H; destruct H as [H | H]
         end;
    apply andb_prop in H; destruct H as [Hp Ht]; apply String.eqb_eq in Hp.
  - left. apply String.eqb_eq in Ht. auto.
  - right. left. apply String.eqb_eq in Ht. auto.
  - right. right. left. apply String.eqb_eq in Ht. auto.
  - right. right. right. split; [exact Hp |].
    apply orb_prop in Ht. destruct Ht as [Ht | Ht]; apply String.eqb_eq in Ht; auto.
Qed.

(** X13: the program touches one pin only.  In every run, whatever the
    environment does and whenever SIGINT arrives, every write to a GPIO
    file is one of five: the number of the pin in [gpio_pin] to the export
    or the unexport file, [out] to the direction file of that pin, [1] or
    [0] to its value file; and that pin is in the allow-list. *)
Theorem only_the_pin (E : env) opts args reads stack path text :
  let w := final (lirc_indicator E opts args reads stack) in
  In (Write path text) (trace w) ->
  valid_pin (gpio_pin w) = true
  /\ ((path = GPIO_EXPORT /\ text = (fmt_d (gpio_pin w) ++ NL)%string)
      \/ (path = GPIO_UNEXPORT /\ text = (fmt_d (gpio_pin w) ++ NL)%string)
      \/ (path = gpio_direction (gpio_pin w) /\ text = ("out" ++ NL)%string)
      \/ (path = gpio_value (gpio_pin w)
          /\ (text = ("1" ++ NL)%string \/ text = ("0" ++ NL)%string))).
Proof.
  intros w Hin. pose proof (final_tidy E opts args reads stack) as Ht.
  fold w in Ht. split.
  - destruct (connected w) eqn:Hc; [exact (tidy_valid w Ht Hc) |].
    contradiction (tidy_no_write w Ht Hc path text Hin).
  - pose proof (tidy_writes w Ht) as Hf. rewrite Forall_forall in Hf.
    exact (pin_write_cases _ _ _ (Hf _ Hin)).
Qed.

Lemma only_the_pin_witness :
  let w := final (lirc_indicator (with_sigint 17 calm) [] ["18"%string]
                    [ReadBytes press_msg] zeros) in
  In (Write (gpio_value 18) ("1" ++ NL)%string) (trace w)
  /\ valid_pin (gpio_pin w) = true
  /\ ((gpio_value 18 = GPIO_EXPORT
       /\ ("1" ++ NL)%string = (fmt_d (gpio_pin w) ++ NL)%string)
      \/ (gpio_value 18 = GPIO_UNEXPORT
          /\ ("1" ++ NL)%string = (fmt_d (gpio_pin w) ++ NL)%string)
      \/ (gpio_value 18 = gpio_direction (gpio_pin w)
          /\ ("1" ++ NL)%string = ("out" ++ NL)%string)
      \/ (gpio_value 18 = gpio_value (gpio_pin w)
          /\ (("1" ++ NL)%string = ("1" ++ NL)%string
              \/ ("1" ++ NL)%string = ("0" ++ NL)%string))).
Proof.
  intros w.
  assert (Hin : In (Write (gpio_value 18) ("1" ++ NL)%string) (trace w)).
  { vm_compute. do 6 right. left. reflexivity. }
  split; [exact Hin |].
  exact (only_the_pin (with_sigint 17 calm) [] ["18"%string]
           [ReadBytes press_msg] zeros (gpio_value 18) ("1" ++ NL)%string Hin).
Defined.

(** X14: no run leaves through [exit] with the pin marked exported without
    having tried to release it: the log of such a run holds a write to the
    unexport file or the report that this file could not be opened or
    written.  And a run that SIGINT kills (before the handler is installed)
    has not connected, not marked the pin and not written to a GPIO file. *)
Theorem no_exit_without_release (E : env) opts args reads stack :
  (forall c w,
      lirc_indicator E opts args reads stack = Exited c w ->
      isExported w <> 0 ->
      release_tried (trace w))
  /\ (forall w,
        lirc_indicator E opts args reads stack = Killed w ->
        connected w = false /\ isExported w = 0
        /\ forall path text, ~ In (Write path text) (trace w)).
Proof.
  pose proof (run_tidy E opts args reads stack) as H.
  unfold wp in H. unfold lirc_indicator.
  split.
  - intros c w Hr Hx. rewrite Hr in H. destruct H as (_ & He & _).
    exact (He c eq_refl Hx).
  - intros w Hr. rewrite Hr in H. destruct H as (Ht & _ & Hk).
    pose proof (Hk eq_refl) as Hc.
    split; [exact Hc | split; [| exact (tidy_no_write w Ht Hc)]].
    destruct (Z.eq_dec (isExported w) 0) as [H0 | Hx]; [exact H0 |].
    destruct (tidy_marked w Ht Hx) as [_ Hc']. congruence.
Qed.

Lemma no_exit_without_release_witness :
  let w := final (lirc_indicator calm [] ["18"%string]
                    [ReadBytes press_msg; ReadError 104] zeros) in
  lirc_indicator calm [] ["18"%string] [ReadBytes press_msg; ReadError 104] zeros
  = Exited 104 w
  /\ isExported w <> 0
  /\ release_tried (trace w).
Proof.
  intros w.
  assert (Hr : lirc_indicator calm [] ["18"%string]
                 [ReadBytes press_msg; ReadError 104] zeros = Exited 104 w)
    by (vm_compute; reflexivity).
  assert (Hx : isExported w <> 0) by discriminate.
  split; [exact Hr | split; [exact Hx |]].
  exact (proj1 (no_exit_without_release calm [] ["18"%string]
                  [ReadBytes press_msg; ReadError 104] zeros) 104 w Hr Hx).
Defined.

(** ** The socket *)

(** X15: when the socket cannot be had, the program ends before it touches
    the pin, and without cleanup.  If [socket] fails the process reports it
    and exits with its [errno]; if [connect] to the path the arguments
    select fails, the process reports that path and exits with the [errno]
    of [connect].  The handler is installed by then, and nothing else has
    happened. *)
Theorem socket_unreachable (E : env) opts args reads stack (e : Z) :
  prepares E opts args ->
  (socket_err E = Some e ->
   exists w,
     lirc_indicator E opts args reads stack = Exited e w
     /\ trace w = prepared_events (daemon_flag opts) ++ [Stderr (PerrorSocket e)]
     /\ connected w = false /\ isExported w = 0)
  /\ (socket_err E = None -> connect_err E (path_of args) = Some e ->
      exists w,
        lirc_indicator E opts args reads stack = Exited e w
        /\ trace w = prepared_events (daemon_flag opts)
                     ++ [Socket; Stderr (UnableOpenSocket (path_of args) e)]
        /\ connected w = false /\ isExported w = 0).
Proof.
  intros Hpr. pose proof Hpr as (Hq & _).
  pose proof (fun w0 => boundary_calm E w0 Hq) as Hc.
  rewrite (reach_lirc_init E opts args reads stack Hpr).
  split.
  - intros Hso. unfold bind at 1, lirc_init, bind at 1.
    rewrite stmt_calm by assumption. rewrite Hso. cbn [negb when].
    unfold bind at 1.
    destruct (report_then_exit (boundary E) Hc PerrorSocket
                (set_errno e (advance (prepared_world (daemon_flag opts)
                                         (pin_of E args) (path_of args) stack))))
      as (w & -> & Ha).
    exists w. split; [reflexivity |].
    destruct Ha as (Ht & _ & Hx & _ & _ & Hcn & _).
    cbn [trace errno isExported connected set_errno advance log prepared_world] in Ht, Hx, Hcn.
    rewrite Ht, <- ?app_assoc. auto.
  - intros Hso Hco.
    destruct (lirc_init_refused E e
                (prepared_world (daemon_flag opts) (pin_of E args)
                   (path_of args) stack) Hq Hso Hco) as (w & Hl & Ha).
    rewrite (bind_exit_eq _ _ _ _ _ Hl).
    exists w. split; [reflexivity |].
    destruct Ha as (Ht & _ & Hx & _ & _ & Hcn & _).
    cbn [trace sun_path isExported connected prepared_world] in Ht, Hx, Hcn.
    rewrite Ht. auto.
Qed.

Lemma socket_unreachable_witness :
  prepares no_lircd [] ["18"%string; "/tmp/none"%string]
  /\ socket_err no_lircd = None
  /\ connect_err no_lircd (path_of ["18"%string; "/tmp/none"%string]) = Some 111
  /\ exists w,
       lirc_indicator no_lircd [] ["18"%string; "/tmp/none"%string]
         [ReadBytes press_msg] zeros = Exited 111 w
       /\ trace w = prepared_events (daemon_flag [])
                    ++ [Socket; Stderr (UnableOpenSocket "/tmp/none" 111)]
       /\ connected w = false /\ isExported w = 0.
Proof.
  assert (Hp : prepares no_lircd [] ["18"%string; "/tmp/none"%string]).
  { unfold prepares.
    split; [reflexivity | split; [reflexivity |]].
    split; [apply Nat.leb_le; reflexivity |].
    split; [apply Nat.ltb_lt; reflexivity |].
    split; [reflexivity | discriminate]. }
  split; [exact Hp | split; [reflexivity | split; [reflexivity |]]].
  exact (proj2 (socket_unreachable no_lircd [] ["18"%string; "/tmp/none"%string]
                  [ReadBytes press_msg] zeros 111 Hp) eq_refl eq_refl).
Defined.

(** ** Messages of rising length *)

Lemma iteration_clean (E : env) (poll : M unit) (bs rest : list byte) w :
  (forall w0, poll w0 = Ret tt (advance w0)) ->
  opens E (gpio_value (gpio_pin w)) ->
  writable E (gpio_value (gpio_pin w)) ->
  bs <> [] -> (List.length bs <= BUF_SIZE)%nat ->
  forallb (fun b => negb (Byte.eqb b NUL)) bs = true ->
  skipn (List.length bs) (buf w) = NUL :: rest ->
  exists w',
    iteration E poll (ReadBytes bs) w = Ret tt w'
    /\ trace w' = trace w ++ message_events (gpio_pin w) bs
    /\ gpio_pin w' = gpio_pin w
    /\ buf w' = bs ++ NUL :: rest.
Proof.
  intros Hc Ho Hw Hne Hlen Hnul Hrest.
  unfold iteration, bind at 1, read. rewrite stmt_calm by assumption.
  rewrite firstn_all2 by exact Hlen.
  cbn [buf advance]. rewrite Hrest.
  assert (Hi1 : (Z.of_nat (List.length bs) =? -1) = false)
    by (apply Z.eqb_neq; lia).
  assert (Hi0 : (Z.of_nat (List.length bs) =? 0) = false).
  { apply Z.eqb_neq. destruct bs; [contradiction | cbn [List.length]; lia]. }
  rewrite Hi1. unfold bind at 1. cbn [when ret].
  rewrite Hi0. unfold bind at 1. cbn [when ret].
  unfold bind at 1, strstr_buf. rewrite stmt_calm by assumption.
  cbn [buf advance log set_buf]. rewrite (cstring_terminated bs rest Hnul).
  unfold message_events.
  destruct (strstr bs UP_MARKER) as [off |].
  - unfold bind, lseek_end. cbn [when ret].
    rewrite stmt_calm by assumption.
    eexists. split; [reflexivity |]. cbn.
    split; [rewrite <- app_assoc; reflexivity | split; reflexivity].
  - unfold bind at 1. cbn [when]. unfold bind at 1, gets.
    cbn [gpio_pin advance log set_buf].
    match goal with
    | |- context [flash E poll (gpio_pin w) ?w1] =>
        destruct (flash_calm E poll Hc (gpio_pin w) w1 Ho Hw) as (w2 & -> & Ha)
    end.
    unfold lseek_end. rewrite stmt_calm by assumption.
    eexists. split; [reflexivity |].
    destruct Ha as (Ht & Hp & _ & _ & Hb & _). cbn in Ht, Hp, Hb |- *.
    rewrite Ht, Hp, Hb.
    split; [rewrite <- !app_assoc; reflexivity | split; reflexivity].
Qed.

Lemma Forall_nul_skipn (n : nat) (l : list byte) :
  Forall (fun b => b = NUL) l -> Forall (fun b => b = NUL) (skipn n l).
Proof.
  revert l. induction n as [| n IH]; intros l Hl; [exact Hl |].
  destruct l as [| b l]; [constructor |].
  cbn. apply IH. inversion Hl. assumption.
Qed.

Lemma event_loop_rising (E : env) (poll : M unit) (msgs : list (list byte)) :
  (forall w0, poll w0 = Ret tt (advance w0)) ->
  forall (n : nat) w,
    opens E (gpio_value (gpio_pin w)) ->
    writable E (gpio_value (gpio_pin w)) ->
    List.length (buf w) = BUF_SIZE ->
    Forall (fun b => b = NUL) (skipn n (buf w)) ->
    rising n msgs ->
    exists w',
      event_loop E poll (map ReadBytes msgs) w = Blocked w'
      /\ trace w' = trace w ++ flat_map (message_events (gpio_pin w)) msgs.
Proof.
  intros Hc. induction msgs as [| bs msgs IH]; intros n w Ho Hw Hlen Hz Hr.
  - exists w. split; [reflexivity | cbn; symmetry; apply app_nil_r].
  - destruct Hr as (Hne & Hn & Hlt & Hnul & Hr).
    assert (Hz' : Forall (fun b => b = NUL) (skipn (List.length bs) (buf w))).
    { replace (List.length bs) with ((List.length bs - n) + n)%nat by lia.
      rewrite <- skipn_skipn. apply Forall_nul_skipn, Hz. }
    destruct (skipn (List.length bs) (buf w)) as [| z rest] eqn:Hsk.
    { apply (f_equal (@List.length byte)) in Hsk.
      rewrite length_skipn, Hlen in Hsk. cbn [List.length] in Hsk.
      unfold BUF_SIZE in *. lia. }
    assert (z = NUL) by (inversion Hz'; assumption). subst z.
    destruct (iteration_clean E poll bs rest w Hc Ho Hw Hne
                (Nat.lt_le_incl _ _ Hlt) Hnul Hsk)
      as (w1 & Hi & Ht1 & Hp1 & Hb1).
    assert (Hlen1 : List.length (buf w1) = BUF_SIZE).
    { rewrite Hb1, length_app.
      apply (f_equal (@List.length byte)) in Hsk.
      rewrite length_skipn, Hlen in Hsk. cbn [List.length] in Hsk |- *.
      unfold BUF_SIZE in *. lia. }
    assert (Hz1 : Forall (fun b => b = NUL) (skipn (List.length bs) (buf w1))).
    { rewrite Hb1, skipn_app, Nat.sub_diag, skipn_all. cbn. exact Hz'. }
    rewrite <- Hp1 in Ho, Hw.
    destruct (IH (List.length bs) w1 Ho Hw Hlen1 Hz1 Hr) as (w' & He & Ht).
    exists w'. cbn [map event_loop flat_map].
    rewrite (bind_ret_eq _ _ _ _ _ Hi). split; [exact He |].
    rewrite Ht, Ht1, Hp1, <- app_assoc. reflexivity.
Qed.

(** X16: when the filter works.  Let the process wait in [read] with a
    buffer that is zero from byte [n] on, and let the messages that arrive
    hold no NUL, be shorter than the buffer, and none be shorter than the
    one before it (nor than [n]).  Then every message that does not contain
    ["_UP "] is flashed, every message that contains it is not, [lseek]
    follows each, and the process waits again. *)
Theorem rising_messages_are_filtered (E : env) opts args before stack
    (n : nat) (msgs : list (list byte)) w :
  no_sigint E ->
  opens E (gpio_value (gpio_pin w)) ->
  writable E (gpio_value (gpio_pin w)) ->
  lirc_indicator E opts args before stack = Blocked w ->
  List.length (buf w) = BUF_SIZE ->
  Forall (fun b => b = NUL) (skipn n (buf w)) ->
  rising n msgs ->
  exists w',
    lirc_indicator E opts args (before ++ map ReadBytes msgs) stack
    = Blocked w'
    /\ trace w' = trace w ++ flat_map (message_events (gpio_pin w)) msgs.
Proof.
  intros Hq Ho Hw Hb Hlen Hz Hr.
  pose proof (fun w0 => boundary_calm E w0 Hq) as Hc.
  destruct (resume E opts args before (map ReadBytes msgs) stack w Hb)
    as (-> & _).
  exact (event_loop_rising E (boundary E) msgs Hc n w Ho Hw Hlen Hz Hr).
Qed.

Lemma rising_messages_are_filtered_witness :
  no_sigint calm
  /\ lirc_indicator calm [] ["18"%string] [] zeros = Blocked waiting18
  /\ List.length (buf waiting18) = BUF_SIZE
  /\ Forall (fun b => b = NUL) (skipn 0 (buf waiting18))
  /\ rising 0 [press_msg; release_msg; release_msg]
  /\ exists w',
       lirc_indicator calm [] ["18"%string]
         ([] ++ map ReadBytes [press_msg; release_msg; release_msg]) zeros
       = Blocked w'
       /\ trace w'
          = trace waiting18
            ++ flat_map (message_events (gpio_pin waiting18))
                 [press_msg; release_msg; release_msg].
Proof.
  assert (Hb : lirc_indicator calm [] ["18"%string] [] zeros = Blocked waiting18)
    by (vm_compute; reflexivity).
  assert (Hlen : List.length (buf waiting18) = BUF_SIZE) by reflexivity.
  assert (Hz : Forall (fun b => b = NUL) (skipn 0 (buf waiting18))).
  { vm_compute. repeat constructor. }
  assert (Hr : rising 0 [press_msg; release_msg; release_msg]).
  { cbn [rising].
    repeat (split; [first [ discriminate | reflexivity
                          | apply Nat.leb_le; reflexivity
                          | apply Nat.ltb_lt; reflexivity ] |]).
    exact I. }
  split; [exact calm_quiet | split; [exact Hb | split; [exact Hlen |]]].
  split; [exact Hz | split; [exact Hr |]].
  exact (rising_messages_are_filtered calm [] ["18"%string] [] zeros 0
           [press_msg; release_msg; release_msg] waiting18 calm_quiet
           (calm_opens _) (calm_writable _) Hb Hlen Hz Hr).
Defined.
